(** * csv::Reader (include/reader.hpp): tokenizer, dialect registry and the
      two-stage reading pipeline, embedded as executable definitions.

    Conventions of the embedding.
    - [std::string] is a list of characters; [s[i]] is [char_at s i], which
      like the C++ operator yields the null character at [i = s.size()].
    - [size_t] members of the Reader are numbers in [N] whose increments wrap
      at 2^64.  The locals [i] and [quotes_encountered] of [split] never
      exceed the length of the scanned string, so they are kept in [nat].
    - [robin_map] is a finite map ([gmap]); the registry owns each Dialect, so
      a [shared_ptr<Dialect>] entry is the Dialect itself.  A name that is not
      in the map is a name for which [dialects_[name]] yields a null pointer;
      dereferencing it is the outcome [Undefined].
    - [ConcurrentQueue] is a FIFO list.
    - The three threads (caller, read_internal, process_values) are
      interleaved by an explicit schedule of atomic actions. *)

From Stdlib Require Import Ascii String.
From stdpp Require Import gmap strings list fin_maps pretty.

Local Open Scope list_scope.
Set Warnings "-clear-no-such-hyp".

(** ** Strings *)

Abbreviation str := (list ascii).

Definition lit (s : string) : str := list_ascii_of_string s.

(** [s[i]]: for [i = s.size()] the standard guarantees a reference to the
    null character. *)
Definition char_at (s : str) (i : nat) : ascii := nth i s Ascii.zero.

(** The character 34, the double quotation mark. *)
Definition double_quote_mark : ascii := "034"%char.

(** ** Dialect *)

(** Modelled from the spec: the [Dialect] class of dialect.hpp, which is not
    part of the sources at hand.  The fields are the members reader.hpp
    reads ([delimiter_], [quote_character_], [double_quote_], [header_],
    [trim_characters_], [skip_initial_space_], [column_names_],
    [ignore_columns_]); of [ignore_columns_] the reader uses only the keys
    ([kvpair.first], [count]), so it is kept as a set of names. *)
Record Dialect : Type := mkDialect {
  delimiter_ : str;
  quote_character_ : ascii;
  double_quote_ : bool;
  header_ : bool;
  trim_characters_ : list ascii;
  skip_initial_space_ : bool;
  column_names_ : list str;
  ignore_columns_ : gset str
}.

(** Modelled from the spec: the chaining setters of dialect.hpp used by the
    Reader constructor; each changes one attribute and returns the dialect. *)
Definition delimiter (s : str) (d : Dialect) : Dialect :=
  mkDialect s (quote_character_ d) (double_quote_ d) (header_ d)
            (trim_characters_ d) (skip_initial_space_ d) (column_names_ d)
            (ignore_columns_ d).

Definition quote_character (c : ascii) (d : Dialect) : Dialect :=
  mkDialect (delimiter_ d) c (double_quote_ d) (header_ d)
            (trim_characters_ d) (skip_initial_space_ d) (column_names_ d)
            (ignore_columns_ d).

Definition double_quote (b : bool) (d : Dialect) : Dialect :=
  mkDialect (delimiter_ d) (quote_character_ d) b (header_ d)
            (trim_characters_ d) (skip_initial_space_ d) (column_names_ d)
            (ignore_columns_ d).

Definition header (b : bool) (d : Dialect) : Dialect :=
  mkDialect (delimiter_ d) (quote_character_ d) (double_quote_ d) b
            (trim_characters_ d) (skip_initial_space_ d) (column_names_ d)
            (ignore_columns_ d).

(** A dialect as the built-in ones are set up, with no trimming. *)
Definition comma_dialect : Dialect :=
  mkDialect (lit ",") double_quote_mark true true [] false [] ∅.

(** ** Tokenizer: ltrim, rtrim, trim, split *)

Module Tokenizer.

(** The lambda of [ltrim]/[rtrim] negates this test:
    [std::find(trim_characters_.begin(), trim_characters_.end(), ch) != end]. *)
Definition is_trim_char (dialect : Dialect) (ch : ascii) : bool :=
  existsb (Ascii.eqb ch) (trim_characters_ dialect).

(** [erase(begin, find_if(begin, end, not-a-trim-char))]. *)
Fixpoint erase_leading (dialect : Dialect) (s : str) : str :=
  match s with
  | [] => []
  | ch :: s' => if is_trim_char dialect ch then erase_leading dialect s' else s
  end.

Definition ltrim (dialect : Dialect) (input : str) : str :=
  erase_leading dialect input.

(** The same search through reverse iterators: everything after the last
    character that is not a trim character is erased. *)
Definition rtrim (dialect : Dialect) (input : str) : str :=
  rev (erase_leading dialect (rev input)).

Definition trim (dialect : Dialect) (input : str) : str :=
  match trim_characters_ dialect with
  | [] => input
  | _ :: _ => ltrim dialect (rtrim dialect input)
  end.

(** The variables of [split] that live across iterations of its outer loop. *)
Record scan : Type := mkScan {
  i : nat;
  sub_result : str;
  quotes_encountered : nat;
  result : list str
}.

Section Split.
(** [split] is private; its only caller, [read_internal], passes
    [dialects_[current_dialect_]], which is also the dialect [trim] looks
    up, so one dialect serves both. *)
Variable dialect : Dialect.
Variable input_string : str.

(** The inner [for (j ...)] loop, over the part [rest] of the delimiter
    that starts at index [j].  Returns the variables and
    [delimiter_detected]. *)
Fixpoint delimiter_loop (rest : str) (st : scan) : scan * bool :=
  match rest with
  | [] => (st, false)
  | dj :: rest' =>
      let ch := char_at input_string (i st) in
      if negb (Ascii.eqb ch dj) then (st, false)
      else
        match rest' with
        | [] =>
            (* j + 1 == dialect->delimiter_.size() *)
            if Nat.even (quotes_encountered st) then
              let i' :=
                if (S (i st) <? length input_string)
                   && skip_initial_space_ dialect
                   && Ascii.eqb (char_at input_string (S (i st))) " "
                then S (i st) else i st in
              (mkScan i' [] 0 (result st ++ [trim dialect (sub_result st)]),
               true)
            else
              (mkScan (S (i st)) (sub_result st ++ [ch])
                      (quotes_encountered st) (result st),
               false)
        | _ :: _ =>
            (* keep looking *)
            let st' := mkScan (S (i st)) (sub_result st)
                              (quotes_encountered st) (result st) in
            if S (i st) =? length input_string then (st', false)
            else delimiter_loop rest' st'
        end
  end.

(** One iteration of the outer [for (i ...)] loop, [++i] included. *)
Definition split_body (st : scan) : scan :=
  let '(st1, delimiter_detected) := delimiter_loop (delimiter_ dialect) st in
  let ch := char_at input_string (i st1) in
  let sub1 :=
    if delimiter_detected then sub_result st1 else sub_result st1 ++ [ch] in
  let is_quote := Ascii.eqb ch (quote_character_ dialect) in
  let q1 :=
    if is_quote then S (quotes_encountered st1) else quotes_encountered st1 in
  let q2 :=
    if is_quote && double_quote_ dialect && (2 <=? length sub1)
       && Ascii.eqb (char_at sub1 (length sub1 - 2)) ch
    then q1 - 1 else q1 in
  mkScan (S (i st1)) sub1 q2 (result st1).

(** The outer loop; [None] when the fuel runs out before [i] reaches the
    end of the input. *)
Fixpoint split_loop (fuel : nat) (st : scan) : option scan :=
  match fuel with
  | O => None
  | S fuel' =>
      if i st <? length input_string
      then split_loop fuel' (split_body st)
      else Some st
  end.

Definition split_init : scan := mkScan 0 [] 0 [].

(** The code after the loop. *)
Definition split_finish (st : scan) : list str :=
  match sub_result st with
  | [] => result st
  | _ :: _ => result st ++ [trim dialect (sub_result st)]
  end.

Definition split : option (list str) :=
  split_finish <$> split_loop (S (length input_string)) split_init.

End Split.

End Tokenizer.

Import Tokenizer.

(** ** Collaborators of the Reader *)

(** [size_t] arithmetic: unsigned, wrapping at 2^64. *)
Definition size_t_wrap (x : N) : N := (x mod 2 ^ 64)%N.

(** [std::to_string(i)] *)
Definition to_string (n : nat) : str := list_ascii_of_string (pretty n).

(** A row: [robin_map<std::string, std::string>]. *)
Abbreviation Row := (gmap str str).

(** Modelled from the spec: [ConcurrentQueue] of concurrent_queue.hpp, which
    is not part of the sources at hand.  A FIFO channel; [enqueue] and
    [try_enqueue] append (no capacity limit is modelled), [try_dequeue] does
    not wait: on an empty queue it reports failure and leaves its output
    argument as it was (this is how [front], [ready] and [done] use it). *)
Definition enqueue {A} (q : list A) (x : A) : list A := q ++ [x].

Definition try_dequeue {A} (q : list A) (out : A) : list A * A * bool :=
  match q with
  | [] => ([], out, false)
  | x :: q' => (q', x, true)
  end.

(** [std::ifstream] over the characters of the file: the data and the read
    position.  [getline] fails exactly when nothing is left to read. *)
Record ifstream : Type := mkStream {
  content : str;
  offset : nat
}.

Definition newline : ascii := "010"%char.
Definition carriage_return : ascii := "013"%char.

(** The characters before the first newline and the number of characters
    consumed (the newline included). *)
Fixpoint take_line (s : str) : str * nat :=
  match s with
  | [] => ([], 0)
  | ch :: s' =>
      if Ascii.eqb ch newline then ([], 1)
      else let '(l, k) := take_line s' in (ch :: l, S k)
  end.

Definition getline (stream : ifstream) : option (str * ifstream) :=
  match drop (offset stream) (content stream) with
  | [] => None
  | rest =>
      let '(line, k) := take_line rest in
      Some (line, mkStream (content stream) (offset stream + k))
  end.

(** A file system: the content of each file that can be opened. *)
Definition filesystem : Type := str -> option str.

(** How a call ends: it returns, it throws [std::runtime_error], it has no
    defined behaviour (a null [shared_ptr<Dialect>] is dereferenced), or it
    calls [std::terminate] (a [std::thread] that is still joinable is
    assigned to). *)
Inductive outcome (A : Type) : Type :=
  | Returns (a : A)
  | Throws (what : str)
  | Undefined
  | Terminates.
Arguments Returns {A} a.
Arguments Throws {A} what.
Arguments Undefined {A}.
Arguments Terminates {A}.

(** ** The Reader *)

Record Reader : Type := mkReader {
  filename_ : str;
  stream_ : ifstream;
  headers_ : list str;
  current_row_ : Row;
  rows_ : list Row;
  number_of_rows_processed_ : list N;
  columns_ : N;
  expected_number_of_rows_ : N;
  row_iterator_queue_ : list N;
  row_iterator_index_ : N;
  reading_thread_started_ : bool;
  processing_thread_started_ : bool;
  values_ : list str;
  current_dialect_ : str;
  dialects_ : gmap str Dialect;
  done_index_ : N;
  ready_index_ : N;
  next_index_ : N
}.

Section ReaderUpdates.
Variable r : Reader.

Definition with_file (f : str) (s : ifstream) : Reader :=
  mkReader f s (headers_ r) (current_row_ r) (rows_ r)
    (number_of_rows_processed_ r) (columns_ r) (expected_number_of_rows_ r)
    (row_iterator_queue_ r) (row_iterator_index_ r)
    (reading_thread_started_ r) (processing_thread_started_ r) (values_ r)
    (current_dialect_ r) (dialects_ r) (done_index_ r) (ready_index_ r)
    (next_index_ r).

Definition with_stream (s : ifstream) : Reader :=
  with_file (filename_ r) s.

Definition with_header_setup (h : list str) (row : Row) : Reader :=
  mkReader (filename_ r) (stream_ r) h row (rows_ r)
    (number_of_rows_processed_ r) (N.of_nat (length h))
    (expected_number_of_rows_ r)
    (row_iterator_queue_ r) (row_iterator_index_ r)
    (reading_thread_started_ r) (processing_thread_started_ r) (values_ r)
    (current_dialect_ r) (dialects_ r) (done_index_ r) (ready_index_ r)
    (next_index_ r).

Definition with_current_row (row : Row) : Reader :=
  mkReader (filename_ r) (stream_ r) (headers_ r) row (rows_ r)
    (number_of_rows_processed_ r) (columns_ r) (expected_number_of_rows_ r)
    (row_iterator_queue_ r) (row_iterator_index_ r)
    (reading_thread_started_ r) (processing_thread_started_ r) (values_ r)
    (current_dialect_ r) (dialects_ r) (done_index_ r) (ready_index_ r)
    (next_index_ r).

Definition with_rows (q : list Row) : Reader :=
  mkReader (filename_ r) (stream_ r) (headers_ r) (current_row_ r) q
    (number_of_rows_processed_ r) (columns_ r) (expected_number_of_rows_ r)
    (row_iterator_queue_ r) (row_iterator_index_ r)
    (reading_thread_started_ r) (processing_thread_started_ r) (values_ r)
    (current_dialect_ r) (dialects_ r) (done_index_ r) (ready_index_ r)
    (next_index_ r).

Definition with_number_of_rows_processed (q : list N) : Reader :=
  mkReader (filename_ r) (stream_ r) (headers_ r) (current_row_ r) (rows_ r)
    q (columns_ r) (expected_number_of_rows_ r)
    (row_iterator_queue_ r) (row_iterator_index_ r)
    (reading_thread_started_ r) (processing_thread_started_ r) (values_ r)
    (current_dialect_ r) (dialects_ r) (done_index_ r) (ready_index_ r)
    (next_index_ r).

Definition with_expected_number_of_rows (n : N) : Reader :=
  mkReader (filename_ r) (stream_ r) (headers_ r) (current_row_ r) (rows_ r)
    (number_of_rows_processed_ r) (columns_ r) n
    (row_iterator_queue_ r) (row_iterator_index_ r)
    (reading_thread_started_ r) (processing_thread_started_ r) (values_ r)
    (current_dialect_ r) (dialects_ r) (done_index_ r) (ready_index_ r)
    (next_index_ r).

Definition with_row_iterator_queue (q : list N) : Reader :=
  mkReader (filename_ r) (stream_ r) (headers_ r) (current_row_ r) (rows_ r)
    (number_of_rows_processed_ r) (columns_ r) (expected_number_of_rows_ r)
    q (row_iterator_index_ r)
    (reading_thread_started_ r) (processing_thread_started_ r) (values_ r)
    (current_dialect_ r) (dialects_ r) (done_index_ r) (ready_index_ r)
    (next_index_ r).

Definition with_reading_thread_started (b : bool) : Reader :=
  mkReader (filename_ r) (stream_ r) (headers_ r) (current_row_ r) (rows_ r)
    (number_of_rows_processed_ r) (columns_ r) (expected_number_of_rows_ r)
    (row_iterator_queue_ r) (row_iterator_index_ r)
    b (processing_thread_started_ r) (values_ r)
    (current_dialect_ r) (dialects_ r) (done_index_ r) (ready_index_ r)
    (next_index_ r).

Definition with_processing_thread_started (b : bool) : Reader :=
  mkReader (filename_ r) (stream_ r) (headers_ r) (current_row_ r) (rows_ r)
    (number_of_rows_processed_ r) (columns_ r) (expected_number_of_rows_ r)
    (row_iterator_queue_ r) (row_iterator_index_ r)
    (reading_thread_started_ r) b (values_ r)
    (current_dialect_ r) (dialects_ r) (done_index_ r) (ready_index_ r)
    (next_index_ r).

Definition with_values (q : list str) : Reader :=
  mkReader (filename_ r) (stream_ r) (headers_ r) (current_row_ r) (rows_ r)
    (number_of_rows_processed_ r) (columns_ r) (expected_number_of_rows_ r)
    (row_iterator_queue_ r) (row_iterator_index_ r)
    (reading_thread_started_ r) (processing_thread_started_ r) q
    (current_dialect_ r) (dialects_ r) (done_index_ r) (ready_index_ r)
    (next_index_ r).

Definition with_current_dialect (name : str) : Reader :=
  mkReader (filename_ r) (stream_ r) (headers_ r) (current_row_ r) (rows_ r)
    (number_of_rows_processed_ r) (columns_ r) (expected_number_of_rows_ r)
    (row_iterator_queue_ r) (row_iterator_index_ r)
    (reading_thread_started_ r) (processing_thread_started_ r) (values_ r)
    name (dialects_ r) (done_index_ r) (ready_index_ r)
    (next_index_ r).

Definition with_dialects (m : gmap str Dialect) : Reader :=
  mkReader (filename_ r) (stream_ r) (headers_ r) (current_row_ r) (rows_ r)
    (number_of_rows_processed_ r) (columns_ r) (expected_number_of_rows_ r)
    (row_iterator_queue_ r) (row_iterator_index_ r)
    (reading_thread_started_ r) (processing_thread_started_ r) (values_ r)
    (current_dialect_ r) m (done_index_ r) (ready_index_ r)
    (next_index_ r).

Definition with_done_index (n : N) : Reader :=
  mkReader (filename_ r) (stream_ r) (headers_ r) (current_row_ r) (rows_ r)
    (number_of_rows_processed_ r) (columns_ r) (expected_number_of_rows_ r)
    (row_iterator_queue_ r) (row_iterator_index_ r)
    (reading_thread_started_ r) (processing_thread_started_ r) (values_ r)
    (current_dialect_ r) (dialects_ r) n (ready_index_ r)
    (next_index_ r).

Definition with_ready_index (n : N) : Reader :=
  mkReader (filename_ r) (stream_ r) (headers_ r) (current_row_ r) (rows_ r)
    (number_of_rows_processed_ r) (columns_ r) (expected_number_of_rows_ r)
    (row_iterator_queue_ r) (row_iterator_index_ r)
    (reading_thread_started_ r) (processing_thread_started_ r) (values_ r)
    (current_dialect_ r) (dialects_ r) (done_index_ r) n
    (next_index_ r).

Definition with_next_index (n : N) : Reader :=
  mkReader (filename_ r) (stream_ r) (headers_ r) (current_row_ r) (rows_ r)
    (number_of_rows_processed_ r) (columns_ r) (expected_number_of_rows_ r)
    (row_iterator_queue_ r) (row_iterator_index_ r)
    (reading_thread_started_ r) (processing_thread_started_ r) (values_ r)
    (current_dialect_ r) (dialects_ r) (done_index_ r) (ready_index_ r)
    n.
End ReaderUpdates.

(** *** Construction and the dialect registry *)

(** [Reader()].  [fresh] is what [std::make_shared<Dialect>()] yields: the
    default-constructed Dialect, whose constructor is in dialect.hpp; the
    development is parametric in it. *)
Definition Reader_new (fresh : Dialect) : Reader :=
  let unix_dialect :=
    header true (double_quote true (quote_character double_quote_mark
      (delimiter (lit ",") fresh))) in
  let excel_dialect :=
    header true (double_quote true (quote_character double_quote_mark
      (delimiter (lit ",") fresh))) in
  let excel_tab_dialect :=
    header true (double_quote true (quote_character double_quote_mark
      (delimiter ["009"%char] fresh))) in
  mkReader [] (mkStream [] 0) [] ∅ [] [] 0 0 [] 0 false false []
    (lit "excel")
    (<[lit "excel_tab" := excel_tab_dialect]>
       (<[lit "excel" := excel_dialect]>
          (<[lit "unix" := unix_dialect]> ∅)))
    0 0 0.

(** [configure_dialect]: the returned reference is given as the Dialect it
    refers to. *)
Definition configure_dialect (fresh : Dialect) (dialect_name : str)
    (r : Reader) : Reader * Dialect :=
  match dialects_ r !! dialect_name with
  | Some d => (r, d)
  | None =>
      let dialect_object := fresh in
      (with_current_dialect
         (with_dialects r (<[dialect_name := dialect_object]> (dialects_ r)))
         dialect_name,
       dialect_object)
  end.

Definition use_dialect (dialect_name : str) (r : Reader)
    : Reader * outcome unit :=
  let r' := with_current_dialect r dialect_name in
  match dialects_ r' !! dialect_name with
  | None =>
      (r', Throws (lit "error: Dialect " ++ dialect_name ++ lit " not found"))
  | Some _ => (r', Returns tt)
  end.

(** [list_dialects].  The vector is filled in the iteration order of the hash
    map, which the source does not fix; here it is the order of [gmap], and
    nothing below depends on it. *)
Definition list_dialects (r : Reader) : list str :=
  (map_to_list (dialects_ r)).*1.

(** [get_dialect]: [*(dialects_[dialect_name])].  For a name that is not
    registered, [operator[]] yields a null pointer, which is dereferenced. *)
Definition get_dialect (dialect_name : str) (r : Reader) : outcome Dialect :=
  match dialects_ r !! dialect_name with
  | Some d => Returns d
  | None => Undefined
  end.

(** *** The caller's side: read, done, ready, next_row *)

(** The pre-scan [while (std::getline(stream_, line)) ++expected_number_of_rows_]. *)
Fixpoint prescan (fuel : nat) (stream : ifstream) (count : N)
    : option (ifstream * N) :=
  match fuel with
  | O => None
  | S fuel' =>
      match getline stream with
      | Some (_, stream') => prescan fuel' stream' (size_t_wrap (count + 1))
      | None => Some (stream, count)
      end
  end.

(** [read], up to the start of the reading thread (which is an action of
    the schedule below).  [None]: the pre-scan ran out of fuel.

    The last statement, [reading_thread_ = std::thread(...)], assigns to the
    member [reading_thread_].  That member is joinable from the first
    [read] that reached this statement until the destructor joins it, that
    is, exactly when [reading_thread_started_] was already true on entry;
    assigning to a joinable [std::thread] calls [std::terminate]. *)
Definition read (fs : filesystem) (filename : str) (r : Reader)
    : option (Reader * outcome unit) :=
  match fs filename with
  | None =>
      Some (with_file r filename (mkStream [] 0),
            Throws (lit "error: Failed to open " ++ filename))
  | Some data =>
      let r1 := with_file r filename (mkStream data 0) in
      match prescan (S (length data)) (stream_ r1)
                    (expected_number_of_rows_ r1) with
      | None => None
      | Some (_, n) =>
          match dialects_ r1 !! current_dialect_ r1 with
          | None => Some (with_expected_number_of_rows r1 n, Undefined)
          | Some d =>
              let n' := if header_ d && (0 <? n)%N then (n - 1)%N else n in
              let r2 := with_expected_number_of_rows r1 n' in
              (* clear(); seekg(0) *)
              let r3 := with_stream r2 (mkStream data 0) in
              let r4 := with_reading_thread_started r3 true in
              if reading_thread_started_ r then Some (r4, Terminates)
              else Some (r4, Returns tt)
          end
      end
  end.

Definition done (r : Reader) : Reader * bool :=
  if processing_thread_started_ r then
    let '(q, done_index, _) :=
      try_dequeue (row_iterator_queue_ r) (done_index_ r) in
    let r' := with_row_iterator_queue (with_done_index r done_index)
                (enqueue q done_index) in
    (r', (expected_number_of_rows_ r =? 0)%N
         || (size_t_wrap (done_index + 1) =? expected_number_of_rows_ r)%N)
  else (r, false).

Definition busy (r : Reader) : Reader * bool :=
  let '(r', b) := done r in (r', negb b).

Definition ready (r : Reader) : Reader * bool :=
  let '(qp, rows, _) := try_dequeue (number_of_rows_processed_ r) 0%N in
  let '(qi, ready_index, _) :=
    try_dequeue (row_iterator_queue_ r) (ready_index_ r) in
  let r' := with_row_iterator_queue
              (with_ready_index (with_number_of_rows_processed r qp)
                 ready_index) qi in
  (r', (ready_index <? expected_number_of_rows_ r)%N
       && (ready_index <? rows)%N).

Definition next_row (r : Reader) : Reader * Row :=
  let r1 := with_row_iterator_queue r
              (enqueue (row_iterator_queue_ r) (next_index_ r)) in
  let r2 := with_next_index r1 (size_t_wrap (next_index_ r1 + 1)) in
  let '(q, result, _) := try_dequeue (rows_ r2) (∅ : Row) in
  (with_rows r2 q, result).

Definition cols (r : Reader) : list str := headers_ r.

(** *** The reading thread: read_internal *)

Definition pop_carriage_return (line : str) : str :=
  match last line with
  | Some ch => if Ascii.eqb ch carriage_return then removelast line else line
  | None => line
  end.

(** The loop that sets [current_row_[header]] to the empty string for every
    header, followed by the erasure of the ignored columns. *)
Definition initial_row (headers : list str) (ignored : gset str) (row : Row)
    : Row :=
  foldl (fun m name => delete name m)
        (foldl (fun m header => <[header := []]> m) row headers)
        (elements ignored).

(** Where the reading thread stands. *)
Inductive reading_thread : Type :=
  | reading_not_started
  | reading_at_entry
  | reading_sets_flag (dialect : Dialect)
  | reading_lines (dialect : Dialect) (pending : list str)
  | reading_finished
  | reading_threw (what : str)
  | reading_out_of_fuel.

(** From the entry of [read_internal] to the creation of the processing
    thread. *)
Definition read_internal_entry (r : Reader) : Reader * reading_thread :=
  match dialects_ r !! current_dialect_ r with
  | None =>
      (r, reading_threw
            (lit "error: Dialect " ++ current_dialect_ r ++ lit " not found"))
  | Some dialect =>
      let length_ := offset (stream_ r) in
      let '(first_line, stream1) :=
        match getline (stream_ r) with
        | Some (l, s) => (l, s)
        | None => ([], stream_ r)
        end in
      let first_line := pop_carriage_return first_line in
      match split dialect first_line with
      | None => (r, reading_out_of_fuel)
      | Some first_line_split =>
          let '(headers, stream2) :=
            if header_ dialect then (first_line_split, stream1)
            else
              (match column_names_ dialect with
               | _ :: _ => column_names_ dialect
               | [] => map to_string (seq 0 (length first_line_split))
               end,
               mkStream (content stream1) length_) in
          (with_header_setup (with_stream r stream2) headers
             (initial_row headers (ignore_columns_ dialect) (current_row_ r)),
           reading_sets_flag dialect)
      end
  end.

(** One atomic action of the reading thread: the entry, the assignment of
    [processing_thread_started_], a [getline] with the [split] of its line,
    or the [enqueue] of one value. *)
Definition reading_step (r : Reader) (t : reading_thread)
    : Reader * reading_thread :=
  match t with
  | reading_at_entry => read_internal_entry r
  | reading_sets_flag dialect =>
      (with_processing_thread_started r true, reading_lines dialect [])
  | reading_lines dialect (value :: pending) =>
      (with_values r (enqueue (values_ r) value), reading_lines dialect pending)
  | reading_lines dialect [] =>
      match getline (stream_ r) with
      | None => (r, reading_finished)
      | Some (row, stream') =>
          match split dialect (pop_carriage_return row) with
          | None => (r, reading_out_of_fuel)
          | Some row_split =>
              (with_stream r stream', reading_lines dialect row_split)
          end
      end
  | _ => (r, t)
  end.

(** *** The processing thread: process_values *)

(** The locals of [process_values] that live across iterations. *)
Record process_locals : Type := mkLocals {
  index : N;
  cols_ : N;
  ignore_columns : gset str;
  number_of_rows : N
}.

Inductive processing_thread : Type :=
  | processing_not_started
  | processing_at_entry
  | processing_loop (l : process_locals)
  | processing_returned (l : process_locals)
  | processing_undefined.

Definition process_values_entry (r : Reader) : processing_thread :=
  match dialects_ r !! current_dialect_ r with
  | None => processing_undefined
  | Some dialect =>
      processing_loop
        (mkLocals 0 (N.of_nat (length (headers_ r))) (ignore_columns_ dialect) 0)
  end.

(** One iteration of [while (true)]. *)
Definition process_values_iteration (r : Reader) (l : process_locals)
    : Reader * processing_thread :=
  if (number_of_rows l =? expected_number_of_rows_ r)%N then
    (r, processing_returned l)
  else
    match values_ r with
    | [] => (r, processing_loop l)
    | value :: rest =>
        let r1 := with_values r rest in
        if (cols_ l =? 0)%N then (r1, processing_undefined)
        else
          let i := (index l mod cols_ l)%N in
          match headers_ r1 !! N.to_nat i with
          | None => (r1, processing_undefined)
          | Some column_name =>
              let r2 :=
                if decide (column_name ∈ ignore_columns l) then r1
                else with_current_row r1
                       (<[column_name := value]> (current_row_ r1)) in
              let index' := size_t_wrap (index l + 1) in
              if negb (index' =? 0)%N && (index' mod cols_ l =? 0)%N then
                let n' := size_t_wrap (number_of_rows l + 1) in
                let r3 := with_rows r2 (enqueue (rows_ r2) (current_row_ r2)) in
                let r4 := with_number_of_rows_processed r3
                            (enqueue (number_of_rows_processed_ r3) n') in
                (r4, processing_loop
                       (mkLocals index' (cols_ l) (ignore_columns l) n'))
              else
                (r2, processing_loop
                       (mkLocals index' (cols_ l) (ignore_columns l)
                                 (number_of_rows l)))
          end
    end.

Definition processing_step (r : Reader) (t : processing_thread)
    : Reader * processing_thread :=
  match t with
  | processing_at_entry => (r, process_values_entry r)
  | processing_loop l => process_values_iteration r l
  | _ => (r, t)
  end.

(** *** The caller running rows() *)

Inductive rows_client : Type :=
  | rows_not_called
  | rows_at_done (rows : list Row)
  | rows_at_ready (rows : list Row)
  | rows_at_next_row (rows : list Row)
  | rows_returned (rows : list Row).

(** One atomic call made by the loop of [rows()]. *)
Definition rows_step (r : Reader) (c : rows_client) : Reader * rows_client :=
  match c with
  | rows_at_done rows =>
      let '(r', b) := done r in
      (r', if b then rows_returned rows else rows_at_ready rows)
  | rows_at_ready rows =>
      let '(r', b) := ready r in
      (r', if b then rows_at_next_row rows else rows_at_done rows)
  | rows_at_next_row rows =>
      let '(r', row) := next_row r in
      (r', rows_at_done (rows ++ [row]))
  | _ => (r, c)
  end.

(** *** The three threads together *)

Record system : Type := mkSystem {
  reader : Reader;
  reading : reading_thread;
  processing : processing_thread;
  client : rows_client
}.

(** Atomic actions: a step of either worker, a call of the polling
    interface by the caller, a step of the caller's [rows()].  A step of
    the processing thread is its entry or one whole iteration of its loop,
    so the states of the system are those in which that thread stands
    between two iterations.  The states inside an iteration are not states
    of this model; among them is the one between [rows_.try_enqueue] and
    [number_of_rows_processed_.enqueue], in which the row queue is one row
    ahead of the published counts. *)
Inductive action : Type :=
  | act_reading
  | act_processing
  | act_done
  | act_ready
  | act_next_row
  | act_call_rows
  | act_rows.

Definition exec (a : action) (s : system) : system :=
  match a with
  | act_reading =>
      let '(r, t) := reading_step (reader s) (reading s) in
      (* the entry of read_internal ends by creating the processing thread *)
      let p := match reading s, t with
               | reading_at_entry, reading_sets_flag _ => processing_at_entry
               | _, _ => processing s
               end in
      mkSystem r t p (client s)
  | act_processing =>
      let '(r, p) := processing_step (reader s) (processing s) in
      mkSystem r (reading s) p (client s)
  | act_done =>
      mkSystem (done (reader s)).1 (reading s) (processing s) (client s)
  | act_ready =>
      mkSystem (ready (reader s)).1 (reading s) (processing s) (client s)
  | act_next_row =>
      mkSystem (next_row (reader s)).1 (reading s) (processing s) (client s)
  | act_call_rows =>
      match client s with
      | rows_not_called =>
          mkSystem (reader s) (reading s) (processing s) (rows_at_done [])
      | _ => s
      end
  | act_rows =>
      let '(r, c) := rows_step (reader s) (client s) in
      mkSystem r (reading s) (processing s) c
  end.

Definition run (schedule : list action) (s : system) : system :=
  foldl (fun s a => exec a s) s schedule.

(** The system right after a successful [read]: the reading thread has been
    created and nothing else has happened. *)
Definition started (r : Reader) : system :=
  mkSystem r reading_at_entry processing_not_started rows_not_called.

(** ** Observations on the pipeline *)

(** The processed-row counter [number_of_rows] of the processing thread,
    while that local exists. *)
Definition processed_count (p : processing_thread) : option N :=
  match p with
  | processing_loop l | processing_returned l => Some (number_of_rows l)
  | _ => None
  end.

(** The header names without the ignored names. *)
Definition produced_keys (r : Reader) (dialect : Dialect) : gset str :=
  list_to_set (headers_ r) ∖ ignore_columns_ dialect.

(** What holds of the processed-row counter in every state of a read whose
    expected number of rows is [E]. *)
Definition counter_inv (E : N) (s : system) : Prop :=
  expected_number_of_rows_ (reader s) = E
  /\ (forall n, processed_count (processing s) = Some n -> (n <= E)%N)
  /\ Forall (fun n => (n <= E)%N) (number_of_rows_processed_ (reader s)).

(** A queue of counts whose values grow strictly from its front to its
    back. *)
Definition strictly_increasing (q : list N) : Prop :=
  forall i j x y, i < j -> q !! i = Some x -> q !! j = Some y -> (x < y)%N.

(** What holds of the published counts in every state of a read: they grow
    strictly from the front of the queue to its back; none is published
    before the loop of [process_values] runs, and from then on none exceeds
    the counter [number_of_rows]; and the processing thread does not exist
    before the reading thread has made its first step. *)
Definition published_inv (s : system) : Prop :=
  strictly_increasing (number_of_rows_processed_ (reader s))
  /\ match processing s with
     | processing_not_started | processing_at_entry =>
         number_of_rows_processed_ (reader s) = []
     | processing_loop l | processing_returned l =>
         Forall (fun n => (n <= number_of_rows l)%N)
                (number_of_rows_processed_ (reader s))
     | processing_undefined => True
     end
  /\ (reading s = reading_at_entry -> processing s = processing_not_started).

(** What holds of the rows in every state of a read that started with the
    registry [D0] and the active dialect [c0]: before the processing thread
    exists no row has been produced; from then on the row buffer and every
    row in the row queue have the header names without the ignored names
    as their keys. *)
Definition keys_inv (D0 : gmap str Dialect) (c0 : str) (s : system) : Prop :=
  dialects_ (reader s) = D0
  /\ current_dialect_ (reader s) = c0
  /\ (processing s = processing_not_started ->
      rows_ (reader s) = []
      /\ (reading s = reading_at_entry -> current_row_ (reader s) = ∅))
  /\ (processing s <> processing_not_started ->
      reading s <> reading_at_entry
      /\ exists dialect,
           D0 !! c0 = Some dialect
           /\ dom (current_row_ (reader s)) = produced_keys (reader s) dialect
           /\ Forall (fun row : Row => dom row = produced_keys (reader s) dialect)
                     (rows_ (reader s))
           /\ (forall l, processing s = processing_loop l ->
                 ignore_columns l = ignore_columns_ dialect)).

(** A file with the header line a,b and two data lines, a file system that
    holds it under the name two.csv, and the Reader after reading it. *)
Definition two_row_file : str :=
  lit "a,b" ++ [newline] ++ lit "1,2" ++ [newline] ++ lit "3,4" ++ [newline].

Definition two_row_fs : filesystem :=
  fun name => if decide (name = lit "two.csv") then Some two_row_file else None.

Definition after_read (fs : filesystem) (filename : str) (r : Reader)
    : Reader :=
  match read fs filename r with
  | Some (r', Returns _) => r'
  | _ => r
  end.

(** Modelled from the spec: the chaining setter [ignore_columns] of
    dialect.hpp, which adds names to the ignored columns. *)
Definition set_ignore_columns (names : gset str) (d : Dialect) : Dialect :=
  mkDialect (delimiter_ d) (quote_character_ d) (double_quote_ d) (header_ d)
            (trim_characters_ d) (skip_initial_space_ d) (column_names_ d)
            (ignore_columns_ d ∪ names).

(** [configure_dialect(name)] followed by setters chained on the reference it
    returns: the registered Dialect itself is changed. *)
Definition configured (fresh : Dialect) (dialect_name : str)
    (setters : Dialect -> Dialect) (r : Reader) : Reader :=
  let '(r', d) := configure_dialect fresh dialect_name r in
  with_dialects r' (<[dialect_name := setters d]> (dialects_ r')).

(** The Reader after [configure_dialect] of a new dialect named mine whose
    column b is ignored. *)
Definition ignoring_reader : Reader :=
  configured comma_dialect (lit "mine") (set_ignore_columns {[lit "b"]})
    (Reader_new comma_dialect).

(** The caller's [rows()] has claimed the first [S j] of the rows [rows] of a
    pipeline that has finished: the index cell holds [j], the next index is
    [S j], and the rest of the rows and of the published counts wait in
    their queues. *)
Definition rows_claimed (rows : list Row) (j : nat) (s : system) : Prop :=
  processing_thread_started_ (reader s) = true
  /\ expected_number_of_rows_ (reader s) = N.of_nat (length rows)
  /\ row_iterator_queue_ (reader s) = [N.of_nat j]
  /\ next_index_ (reader s) = N.of_nat (S j)
  /\ rows_ (reader s) = drop (S j) rows
  /\ number_of_rows_processed_ (reader s)
     = map N.of_nat (seq (S (S j)) (length rows - S j))
  /\ client s = rows_at_done (take (S j) rows).

(** What the polling interface reads and writes: the started flag, the
    expected number of rows, the index cell with the three index members'
    two that outlive a call, the row queue, the published counts, and where
    the caller's [rows()] stands. *)
Definition poll_view (s : system)
    : bool * N * list N * N * N * list Row * list N * rows_client :=
  (processing_thread_started_ (reader s),
   expected_number_of_rows_ (reader s),
   row_iterator_queue_ (reader s),
   done_index_ (reader s),
   next_index_ (reader s),
   rows_ (reader s),
   number_of_rows_processed_ (reader s),
   client s).

(** The assignment [current_row_[column_name] = value] that [process_values]
    makes unless the column is ignored, and the row buffer after a whole
    line of values has gone through it. *)
Definition assign (ignore : gset str) (row : Row) (column : str * str) : Row :=
  if decide (column.1 ∈ ignore) then row else <[column.1 := column.2]> row.

Definition assemble (ignore : gset str) (row : Row) (headers values : list str)
    : Row :=
  foldl (assign ignore) row (zip headers values).

(** What the processing thread reads and writes. *)
Definition assembly_view (s : system)
    : list str * N * list str * Row * list Row * list N * processing_thread :=
  (headers_ (reader s),
   expected_number_of_rows_ (reader s),
   values_ (reader s),
   current_row_ (reader s),
   rows_ (reader s),
   number_of_rows_processed_ (reader s),
   processing s).

(** A system whose processing thread stands on a row boundary with the
    values of two lines queued under the headers a and b. *)
Definition assembling_system : system :=
  mkSystem
    (with_values
       (with_header_setup
          (with_expected_number_of_rows (Reader_new comma_dialect) 2)
          [lit "a"; lit "b"] {[lit "a" := []; lit "b" := []]})
       [lit "1"; lit "2"; lit "3"; lit "4"])
    reading_finished (processing_loop (mkLocals 0 2 ∅ 0)) rows_not_called.

(** What the reading thread reads and writes after its entry. *)
Definition reading_view (s : system) : ifstream * list str * reading_thread :=
  (stream_ (reader s), values_ (reader s), reading s).

(** The actions of the two worker threads. *)
Definition is_worker (a : action) : bool :=
  match a with
  | act_reading | act_processing => true
  | _ => false
  end.

(** The content of a file whose lines are [lines], each ended by a newline. *)
Definition file_of_lines (lines : list str) : str :=
  concat (map (fun line => line ++ [newline]) lines).

(** A file with the header line a and the single data line 1, and a file
    system that holds it under the name one.csv. *)
Definition one_row_file : str := lit "a" ++ [newline] ++ lit "1" ++ [newline].

Definition one_row_fs : filesystem :=
  fun name => if decide (name = lit "one.csv") then Some one_row_file else None.

(** ** Reference definitions for the tokenizer *)

(** The line divided at every occurrence of the character [c]. *)
Fixpoint divide_at (c : ascii) (line : str) : list str :=
  match line with
  | [] => [[]]
  | ch :: line' =>
      if Ascii.eqb ch c then [] :: divide_at c line'
      else
        match divide_at c line' with
        | field :: fields => (ch :: field) :: fields
        | [] => [[ch]]
        end
  end.

(** The fields without the last one when that one is empty. *)
Fixpoint drop_empty_last (fields : list str) : list str :=
  match fields with
  | [] => []
  | [field] => match field with [] => [] | _ :: _ => [field] end
  | field :: fields' => field :: drop_empty_last fields'
  end.

(** [sub] put in front of the first of the fields. *)
Definition prepend_to_first (sub : str) (fields : list str) : list str :=
  match fields with
  | field :: fields' => (sub ++ field) :: fields'
  | [] => [sub]
  end.

(** The comma dialect with the two-character delimiter of two colons. *)
Definition double_colon_dialect : Dialect :=
  mkDialect (lit "::") double_quote_mark true true [] false [] ∅.

(** A scan outside quotes whose sub-field and fields are free of the
    character [c]. *)
Definition delimiter_free (c : ascii) (st : scan) : Prop :=
  quotes_encountered st = 0
  /\ (c ∉ sub_result st)
  /\ Forall (fun field => c ∉ field) (result st).

(** The states the outer loop of [split] passes through at its head. *)
Inductive scanning (dialect : Dialect) (input_string : str) : scan -> Prop :=
  | scanning_init : scanning dialect input_string split_init
  | scanning_next st :
      scanning dialect input_string st ->
      i st < length input_string ->
      scanning dialect input_string (split_body dialect input_string st).

(** The lines of the quoting examples: a,b between quotation marks, and
    a, two quotation marks, b between quotation marks. *)
Definition quoted_a_comma_b : str :=
  double_quote_mark :: lit "a,b" ++ [double_quote_mark].

Definition quoted_a_quote_quote_b : str :=
  double_quote_mark
    :: (lit "a" ++ [double_quote_mark; double_quote_mark] ++ lit "b")
    ++ [double_quote_mark].

(** The comma dialect with skip_initial_space on. *)
Definition skipping_dialect : Dialect :=
  mkDialect (lit ",") double_quote_mark true true [] true [] ∅.

(** The comma dialect that trims spaces. *)
Definition trimming_dialect : Dialect :=
  mkDialect (lit ",") double_quote_mark true true [" "%char] false [] ∅.




(** What [process_values] neither reads nor writes, of the members that the
    polling interface uses, with the two other threads. *)
Definition beside_processing (s : system)
    : bool * list N * N * N * reading_thread * rows_client :=
  (processing_thread_started_ (reader s), row_iterator_queue_ (reader s),
   done_index_ (reader s), next_index_ (reader s), reading s, client s).



(** ** The two worker threads under any interleaving *)

(** The lines that a stream still holds, with the values [rest] that the
    reading thread will make of them. *)
Definition lines_ahead (d : Dialect) (stream : ifstream) (rest : list str)
    : Prop :=
  exists pre lines fss,
    stream = mkStream (pre ++ file_of_lines lines) (length pre)
    /\ Forall (fun line => newline ∉ line) lines
    /\ Forall2 (fun line fields =>
                  split d (pop_carriage_return line) = Some fields) lines fss
    /\ rest = concat fss.

(** Where the reading thread stands when it has the values [todo] left to
    enqueue: before the assignment of [processing_thread_started_], in its
    loop with the fields of the current line pending, or at its end. *)
Definition reading_at (d : Dialect) (stream : ifstream) (flag : bool)
    (t : reading_thread) (todo : list str) : Prop :=
  match t with
  | reading_sets_flag d' => d' = d /\ flag = false /\ lines_ahead d stream todo
  | reading_lines d' pending =>
      d' = d /\ flag = true
      /\ exists rest, lines_ahead d stream rest /\ todo = pending ++ rest
  | reading_finished => flag = true /\ todo = []
  | _ => False
  end.

(** Where the loop of [process_values] stands when it has taken the values
    [consumed] off the queue: [k] whole rows of [vss] and the first values
    [partial] of the next one, with the rows enqueued and the counts
    published for the whole rows, and the values of [partial] assigned in
    a row buffer that had the keys of [row0]. *)
Definition assembling (ign : gset str) (H : list str) (row0 : Row)
    (vss : list (list str)) (row : Row) (rows : list Row) (counts : list N)
    (l : process_locals) (consumed : list str) : Prop :=
  exists k partial rb,
    consumed = concat (take k vss) ++ partial
    /\ length partial < length H
    /\ k <= length vss
    /\ index l = N.of_nat (k * length H + length partial)
    /\ cols_ l = N.of_nat (length H)
    /\ ignore_columns l = ign
    /\ number_of_rows l = N.of_nat k
    /\ rows = map (assemble ign row0 H) (take k vss)
    /\ counts = map N.of_nat (seq 1 k)
    /\ row = foldl (assign ign) rb (zip H partial)
    /\ dom rb = dom row0.

Definition processing_at (ign : gset str) (H : list str) (row0 : Row)
    (vss : list (list str)) (E : N) (row : Row) (rows : list Row)
    (counts : list N) (p : processing_thread) (consumed : list str) : Prop :=
  match p with
  | processing_at_entry =>
      consumed = [] /\ row = row0 /\ rows = [] /\ counts = []
  | processing_loop l => assembling ign H row0 vss row rows counts l consumed
  | processing_returned l =>
      assembling ign H row0 vss row rows counts l consumed
      /\ number_of_rows l = E
  | _ => False
  end.

(** The two threads at work on the values [concat vss] of the data lines:
    some are consumed, some are in the value queue, the others are still
    to be enqueued. *)
Definition pipelining (d : Dialect) (H : list str) (row0 : Row)
    (vss : list (list str)) (s : system) : Prop :=
  headers_ (reader s) = H
  /\ expected_number_of_rows_ (reader s) = N.of_nat (length vss)
  /\ dialects_ (reader s) !! current_dialect_ (reader s) = Some d
  /\ exists consumed todo,
       concat vss = consumed ++ values_ (reader s) ++ todo
       /\ reading_at d (stream_ (reader s))
            (processing_thread_started_ (reader s)) (reading s) todo
       /\ processing_at (ignore_columns_ d) H row0 vss
            (expected_number_of_rows_ (reader s)) (current_row_ (reader s))
            (rows_ (reader s)) (number_of_rows_processed_ (reader s))
            (processing s) consumed.


(** * Properties *)

(** ** The tokenizer terminates *)

Section SplitLoop.
Variable dialect : Dialect.
Variable input_string : str.

Lemma delimiter_loop_i rest st :
  i st <= i (delimiter_loop dialect input_string rest st).1.
Proof.
  revert st; induction rest as [|dj rest IH]; intros st; [simpl; lia|].
  cbn [delimiter_loop].
  destruct (negb _); [simpl; lia|].
  destruct rest as [|dj' rest].
  - repeat case_match; simpl; lia.
  - case_match; [simpl; lia|].
    etransitivity; [|apply IH]. simpl; lia.
Qed.

Lemma split_body_i st : i st < i (split_body dialect input_string st).
Proof.
  unfold split_body.
  pose proof (delimiter_loop_i (delimiter_ dialect) st) as H.
  destruct (delimiter_loop _ _ _ _) as [st1 b]; simpl in *. lia.
Qed.

Lemma split_loop_total fuel st :
  length input_string - i st < fuel ->
  is_Some (split_loop dialect input_string fuel st).
Proof.
  revert st; induction fuel as [|fuel IH]; intros st Hf; [lia|].
  simpl. destruct (Nat.ltb_spec (i st) (length input_string)); [|eauto].
  apply IH. pose proof (split_body_i st). lia.
Qed.

Lemma split_loop_fuel f f' st :
  length input_string - i st < f ->
  length input_string - i st < f' ->
  split_loop dialect input_string f st = split_loop dialect input_string f' st.
Proof.
  revert f' st; induction f as [|f IH]; intros f' st Hf Hf'; [lia|].
  destruct f' as [|f']; [lia|]. simpl.
  destruct (Nat.ltb_spec (i st) (length input_string)); [|done].
  pose proof (split_body_i st). apply IH; lia.
Qed.

(** [split] returns for every dialect and every line. *)
Lemma split_terminates : is_Some (split dialect input_string).
Proof.
  unfold split. apply fmap_is_Some, split_loop_total. simpl. lia.
Qed.

(** A state at the head of the loop determines the rest of the scan. *)
Lemma scanning_split st :
  scanning dialect input_string st ->
  split dialect input_string
  = split_finish dialect
      <$> split_loop dialect input_string (S (length input_string - i st)) st.
Proof.
  induction 1 as [|st Hs IH Hlt].
  - unfold split. simpl. by rewrite Nat.sub_0_r.
  - rewrite IH. f_equal.
    pose proof (split_body_i st).
    remember (S (length input_string - i (split_body dialect input_string st)))
      as f' eqn:Hf'.
    simpl. destruct (Nat.ltb_spec (i st) (length input_string)); [|lia].
    apply split_loop_fuel; lia.
Qed.

End SplitLoop.

(** ** Trimming *)

Lemma is_trim_char_false dialect ch :
  ch ∉ trim_characters_ dialect -> is_trim_char dialect ch = false.
Proof.
  intros Hn. unfold is_trim_char. apply not_true_is_false. intros He.
  apply existsb_exists in He as (x & Hin & Heq).
  apply Ascii.eqb_eq in Heq. subst x. by apply Hn, list_elem_of_In.
Qed.

Lemma erase_leading_stop dialect ch s :
  is_trim_char dialect ch = false ->
  erase_leading dialect (ch :: s) = ch :: s.
Proof. intros H. simpl. by rewrite H. Qed.

(** A string that starts and ends with a character outside the trim set is
    left as it is. *)
Lemma trim_enclosed dialect ch body :
  ch ∉ trim_characters_ dialect ->
  trim dialect (ch :: body ++ [ch]) = ch :: body ++ [ch].
Proof.
  intros Hn. apply is_trim_char_false in Hn.
  unfold trim, ltrim, rtrim. destruct (trim_characters_ dialect); [done|].
  replace (rev (ch :: body ++ [ch])) with (ch :: rev body ++ [ch])
    by (simpl; rewrite rev_app_distr; done).
  rewrite erase_leading_stop by done.
  replace (rev (ch :: rev body ++ [ch])) with (ch :: body ++ [ch])
    by (simpl; rewrite rev_app_distr, rev_involutive; done).
  by apply erase_leading_stop.
Qed.

Lemma erase_leading_spec dialect s :
  exists pre,
    s = pre ++ erase_leading dialect s
    /\ Forall (fun ch => is_trim_char dialect ch = true) pre
    /\ (forall ch, head (erase_leading dialect s) = Some ch ->
          is_trim_char dialect ch = false).
Proof.
  induction s as [|ch s (pre & Hs & Hpre & Hhd)]; simpl.
  - exists []. split_and!; done.
  - destruct (is_trim_char dialect ch) eqn:Hch.
    + exists (ch :: pre). split_and!; [by rewrite Hs at 1|by constructor|done].
    + exists []. split_and!; [done|done|]. simpl. by intros ? [= <-].
Qed.

(** What [trim] computes: it removes a prefix and a suffix made of trim
    characters, and what is left neither starts nor ends with one. *)
Lemma trim_spec dialect s :
  exists pre post,
    s = pre ++ trim dialect s ++ post
    /\ Forall (fun ch => is_trim_char dialect ch = true) pre
    /\ Forall (fun ch => is_trim_char dialect ch = true) post
    /\ (forall ch, head (trim dialect s) = Some ch ->
          is_trim_char dialect ch = false)
    /\ (forall ch, last (trim dialect s) = Some ch ->
          is_trim_char dialect ch = false).
Proof.
  unfold trim. destruct (trim_characters_ dialect) as [|t ts] eqn:Ht.
  - exists [], []. rewrite app_nil_r.
    split_and!; try done; intros ch _; unfold is_trim_char; by rewrite Ht.
  - unfold ltrim, rtrim.
    destruct (erase_leading_spec dialect (rev s)) as (post' & Hr & Hpost & Hlast).
    set (e := erase_leading dialect (rev s)) in *.
    destruct (erase_leading_spec dialect (rev e)) as (pre & Hl & Hpre & Hhead).
    set (m := erase_leading dialect (rev e)) in *.
    exists pre, (rev post'). split_and!; try done.
    + rewrite app_assoc, <- Hl, <- rev_app_distr, <- Hr. by rewrite rev_involutive.
    + by apply Forall_rev.
    + intros ch Hch. apply Hlast.
      assert (last (rev e) = Some ch) as He.
      { rewrite Hl. destruct m as [|c m'] eqn:Hm; [done|].
        rewrite last_app, Hch. done. }
      destruct e as [|c e']; [done|].
      simpl in He. rewrite last_snoc in He. done.
Qed.

Lemma not_elem_of_by_eqb (ch : ascii) (s : str) :
  existsb (Ascii.eqb ch) s = false -> ch ∉ s.
Proof.
  intros He Hin. apply not_true_iff_false in He. apply He.
  apply existsb_exists. exists ch. split; [by apply list_elem_of_In|].
  apply Ascii.eqb_refl.
Qed.

(** ** Quoted fields *)

(** C2, as stated, fails: under the comma dialect with the quotation mark
    as quote character and double_quote enabled, the quoted line a,b is
    returned as one field with its quotation marks, not as a,b, and the
    second line as one field with its quotation marks and the doubled one,
    not as a, one quotation mark, b. *)
Lemma split_quoted_strips_quotes_counterexample :
  delimiter_ comma_dialect = lit ","
  /\ quote_character_ comma_dialect = double_quote_mark
  /\ double_quote_ comma_dialect = true
  /\ split comma_dialect quoted_a_comma_b <> Some [lit "a,b"]
  /\ split comma_dialect quoted_a_quote_quote_b
     <> Some [lit "a" ++ [double_quote_mark] ++ lit "b"].
Proof. repeat split; vm_compute; discriminate. Qed.

(** C2, amended: under a dialect with comma delimiter, the quotation mark
    as quote character and double_quote enabled, whose trim characters do
    not include the quotation mark, [split] returns the quoted line a,b as a
    single field that is the line itself, quotation marks kept, and the
    second line as a single field that is the line itself, quotation marks
    and doubled quotation mark kept. *)
Theorem split_quoted_field_verbatim dialect :
  delimiter_ dialect = lit "," ->
  quote_character_ dialect = double_quote_mark ->
  double_quote_ dialect = true ->
  double_quote_mark ∉ trim_characters_ dialect ->
  split dialect quoted_a_comma_b = Some [quoted_a_comma_b]
  /\ split dialect quoted_a_quote_quote_b = Some [quoted_a_quote_quote_b].
Proof.
  intros Hd Hq Hdq Ht.
  pose proof (trim_enclosed dialect _ (lit "a,b") Ht) as T1.
  pose proof (trim_enclosed dialect _
                (lit "a" ++ [double_quote_mark; double_quote_mark] ++ lit "b")
                Ht) as T2.
  destruct dialect as [dl qc dq hd tc sk cn ig]; simpl in Hd, Hq, Hdq; subst.
  unfold split, split_finish. split.
  - replace (split_loop _ _ _ _)
      with (Some (mkScan 5 quoted_a_comma_b 2 [])) by (vm_compute; reflexivity).
    simpl. f_equal. f_equal. exact T1.
  - replace (split_loop _ _ _ _)
      with (Some (mkScan 6 quoted_a_quote_quote_b 3 []))
      by (vm_compute; reflexivity).
    simpl. f_equal. f_equal. exact T2.
Qed.

Lemma split_quoted_field_verbatim_witness :
  split comma_dialect quoted_a_comma_b = Some [quoted_a_comma_b]
  /\ split comma_dialect quoted_a_quote_quote_b = Some [quoted_a_quote_quote_b].
Proof.
  apply (split_quoted_field_verbatim comma_dialect); try reflexivity.
  apply not_elem_of_by_eqb. reflexivity.
Defined.

(** ** Field boundaries *)

Lemma drop_char_at (s : str) n ch rest :
  drop n s = ch :: rest ->
  char_at s n = ch /\ n < length s /\ drop (S n) s = rest.
Proof.
  intros H.
  assert (s !! n = Some ch) as Hl.
  { pose proof (lookup_drop s n 0) as E.
    rewrite H, Nat.add_0_r in E. done. }
  split; [|split].
  - unfold char_at. by rewrite nth_lookup, Hl.
  - by apply lookup_lt_Some in Hl.
  - by rewrite (drop_S _ _ _ Hl) in H; inversion H.
Qed.

Lemma char_at_drop (s : str) n :
  n < length s -> drop n s = char_at s n :: drop (S n) s.
Proof.
  intros H. apply lookup_lt_is_Some in H as [ch Hl].
  rewrite (drop_S _ _ _ Hl). unfold char_at. by rewrite nth_lookup, Hl.
Qed.

Section Boundaries.
Variable dialect : Dialect.
Variable input_string : str.

(** The inner loop reports a delimiter only where the whole delimiter stands
    in the input and the quote counter is even; it then appends the trimmed
    sub-field. *)
Lemma delimiter_detected_sound rest st st' :
  i st < length input_string ->
  delimiter_loop dialect input_string rest st = (st', true) ->
  Nat.even (quotes_encountered st) = true
  /\ take (length rest) (drop (i st) input_string) = rest
  /\ rest <> []
  /\ result st' = result st ++ [trim dialect (sub_result st)].
Proof.
  revert st; induction rest as [|dj rest IH]; intros st Hi; [done|].
  cbn [delimiter_loop]. destruct (Ascii.eqb_spec (char_at input_string (i st)) dj)
    as [Hc|]; [|done]. cbn [negb].
  rewrite (char_at_drop _ _ Hi), Hc.
  destruct rest as [|dj' rest].
  - destruct (Nat.even _) eqn:He; [|done]. intros [= <-]. simpl. done.
  - destruct (Nat.eqb_spec (S (i st)) (length input_string)); [done|].
    intros H. apply IH in H as (He & Ht & _ & Hr); [|simpl; lia].
    simpl in *. rewrite Ht. done.
Qed.

(** Without a detected delimiter the inner loop adds no field. *)
Lemma delimiter_undetected_result rest st st' :
  delimiter_loop dialect input_string rest st = (st', false) ->
  result st' = result st.
Proof.
  revert st; induction rest as [|dj rest IH]; intros st; [by intros [= <-]|].
  cbn [delimiter_loop]. destruct (negb _); [by intros [= <-]|].
  destruct rest as [|dj' rest].
  - destruct (Nat.even _); [done|]. by intros [= <-].
  - destruct (_ =? _); [by intros [= <-]|].
    intros H. by apply IH in H.
Qed.

(** An iteration of the scan either leaves the fields as they are, or the
    whole delimiter stands at the current position, the quote counter is
    even, and the trimmed sub-field is appended. *)
Lemma split_body_boundary st :
  i st < length input_string ->
  result (split_body dialect input_string st) = result st
  \/ (Nat.even (quotes_encountered st) = true
      /\ take (length (delimiter_ dialect)) (drop (i st) input_string)
         = delimiter_ dialect
      /\ delimiter_ dialect <> []
      /\ result (split_body dialect input_string st)
         = result st ++ [trim dialect (sub_result st)]).
Proof.
  intros Hi. unfold split_body.
  destruct (delimiter_loop _ _ _ _) as [st1 [|]] eqn:Hd; simpl.
  - right. by apply delimiter_detected_sound in Hd.
  - left. by apply delimiter_undetected_result in Hd.
Qed.

(** When exactly the delimiter is left and the quote counter is even, the
    inner loop detects it and the sub-field starts afresh. *)
Lemma delimiter_loop_at_end rest st :
  rest <> [] ->
  drop (i st) input_string = rest ->
  Nat.even (quotes_encountered st) = true ->
  delimiter_loop dialect input_string rest st
  = (mkScan (i st + length rest - 1) [] 0
            (result st ++ [trim dialect (sub_result st)]), true).
Proof.
  revert st; induction rest as [|dj rest IH]; intros st Hne Hd He; [done|].
  apply drop_char_at in Hd as (Hc & Hi & Hd).
  cbn [delimiter_loop]. rewrite Hc, Ascii.eqb_refl. cbn [negb].
  destruct rest as [|dj' rest].
  - rewrite He.
    assert (length input_string = S (i st)) as Hl.
    { apply (f_equal length) in Hd. rewrite length_drop in Hd. simpl in Hd. lia. }
    rewrite Hl, Nat.ltb_irrefl. simpl. repeat f_equal. lia.
  - assert (S (i st) < length input_string) as Hl.
    { apply (f_equal length) in Hd. rewrite length_drop in Hd. simpl in Hd. lia. }
    destruct (Nat.eqb_spec (S (i st)) (length input_string)); [lia|].
    rewrite IH; [|done|done|done].
    cbn [i sub_result quotes_encountered result]. f_equal. f_equal.
    cbn [length]. lia.
Qed.

End Boundaries.

(** C3: with the delimiter of two colons, the line a:b is returned as the
    single field ab: the lone colon causes no split, but it is not kept in
    the field either. *)
Example split_lone_colon_is_dropped :
  split double_colon_dialect (lit "a:b") = Some [lit "ab"].
Proof. vm_compute. reflexivity. Qed.

(** ** The end of the scan *)

(** C4: at the end of a scan (the loop is left in state [st]) [split]
    appends the trimmed sub-field only when it is not empty; and when the
    scan stands, outside quotes, before a delimiter that ends the line, the
    result ends with the field before that delimiter: the empty field after
    it is dropped. *)
Theorem split_drops_trailing_empty_field dialect input_string st :
  scanning dialect input_string st ->
  (length input_string <= i st ->
   split dialect input_string
   = Some (match sub_result st with
           | [] => result st
           | _ :: _ => result st ++ [trim dialect (sub_result st)]
           end))
  /\ (delimiter_ dialect <> [] ->
      drop (i st) input_string = delimiter_ dialect ->
      Nat.even (quotes_encountered st) = true ->
      split dialect input_string
      = Some (result st ++ [trim dialect (sub_result st)])).
Proof.
  intros Hs. rewrite (scanning_split _ _ _ Hs). split.
  - intros Hi. cbn [split_loop].
    destruct (Nat.ltb_spec (i st) (length input_string)); [lia|]. done.
  - intros Hne Hd He.
    assert (i st + length (delimiter_ dialect) = length input_string
            /\ 0 < length (delimiter_ dialect)) as [Hl Hpos].
    { apply (f_equal length) in Hd. rewrite length_drop in Hd.
      destruct (delimiter_ dialect); [done|]. simpl in *. lia. }
    cbn [split_loop].
    destruct (Nat.ltb_spec (i st) (length input_string)); [|lia].
    unfold split_body.
    rewrite (delimiter_loop_at_end _ _ _ _ Hne Hd He).
    cbn [i sub_result quotes_encountered result].
    destruct (length input_string - i st) as [|k] eqn:Hk; [lia|].
    cbn [split_loop i].
    destruct (Nat.ltb_spec (S (i st + length (delimiter_ dialect) - 1))
                           (length input_string)); [lia|].
    done.
Qed.

Lemma split_drops_trailing_empty_field_witness :
  split comma_dialect (lit "a,") = Some [lit "a"].
Proof.
  assert (scanning comma_dialect (lit "a,") (mkScan 1 (lit "a") 0 [])) as Hs.
  { change (mkScan 1 (lit "a") 0 [])
      with (split_body comma_dialect (lit "a,") split_init).
    apply scanning_next; [apply scanning_init | simpl; lia]. }
  apply (proj2 (split_drops_trailing_empty_field
                  comma_dialect (lit "a,") (mkScan 1 (lit "a") 0 []) Hs)).
  - simpl. discriminate.
  - reflexivity.
  - reflexivity.
Defined.

(** ** Lines without quotes, single-character delimiter *)

Lemma divide_at_cons c line :
  exists field fields, divide_at c line = field :: fields.
Proof.
  destruct line as [|ch line]; simpl; [eauto|].
  destruct (Ascii.eqb ch c); [eauto|].
  destruct (divide_at c line); eauto.
Qed.

Lemma drop_empty_last_cons field fields :
  fields <> [] ->
  drop_empty_last (field :: fields) = field :: drop_empty_last fields.
Proof. destruct fields; done. Qed.

Section Unquoted.
Variable dialect : Dialect.
Variable c : ascii.
Variable line : str.
Hypothesis single : delimiter_ dialect = [c].
Hypothesis no_skip : skip_initial_space_ dialect = false.
Hypothesis unquoted : quote_character_ dialect ∉ line.

Lemma unquoted_char n : n < length line ->
  Ascii.eqb (char_at line n) (quote_character_ dialect) = false.
Proof.
  intros Hn. apply Ascii.eqb_neq. intros He. apply unquoted.
  apply list_elem_of_lookup. exists n.
  apply lookup_lt_is_Some in Hn as [ch Hl].
  unfold char_at in He. rewrite nth_lookup, Hl in He. simpl in He. by subst.
Qed.

Lemma split_loop_unquoted fuel st :
  quotes_encountered st = 0 ->
  length line - i st < fuel ->
  split_finish dialect <$> split_loop dialect line fuel st
  = Some (result st
          ++ map (trim dialect)
               (drop_empty_last
                  (prepend_to_first (sub_result st)
                     (divide_at c (drop (i st) line))))).
Proof.
  revert st; induction fuel as [|fuel IH]; intros st Hq Hf; [lia|].
  cbn [split_loop].
  destruct (Nat.ltb_spec (i st) (length line)) as [Hi|Hi].
  - rewrite (char_at_drop _ _ Hi). cbn [divide_at].
    pose proof (unquoted_char _ Hi) as Hnq.
    destruct (divide_at_cons c (drop (S (i st)) line)) as (f & fs & Hdiv).
    unfold split_body. rewrite single. cbn [delimiter_loop].
    destruct (Ascii.eqb_spec (char_at line (i st)) c) as [Hc|Hc]; cbn [negb].
    + rewrite Hq, no_skip, andb_false_r. cbn [Nat.even andb].
      cbn [i sub_result quotes_encountered result].
      rewrite Hnq. cbn [andb].
      rewrite IH; [|done|simpl; lia].
      cbn [i sub_result quotes_encountered result].
      rewrite Hdiv. cbn [prepend_to_first app].
      rewrite (drop_empty_last_cons (sub_result st ++ []) (f :: fs)) by done.
      rewrite app_nil_r. cbn [map]. by rewrite <- app_assoc.
    + cbn [i sub_result quotes_encountered result].
      rewrite Hnq. cbn [andb].
      rewrite IH; [|done|simpl; lia].
      cbn [i sub_result quotes_encountered result].
      rewrite Hdiv. cbn [prepend_to_first]. by rewrite <- app_assoc.
  - rewrite drop_ge by lia. cbn [divide_at prepend_to_first fmap option_fmap
      option_map]. rewrite app_nil_r. unfold split_finish.
    destruct (sub_result st); simpl; [by rewrite app_nil_r|done].
Qed.

End Unquoted.

(** C5, as stated, fails: the line a, (one field and a trailing comma) has
    no quote and the comma dialect a one-character delimiter, yet [split]
    returns one field while dividing at the comma gives two. *)
Lemma split_divides_at_delimiter_counterexample :
  delimiter_ comma_dialect = [","%char]
  /\ (quote_character_ comma_dialect ∉ lit "a,")
  /\ split comma_dialect (lit "a,")
     <> Some (map (trim comma_dialect) (divide_at ","%char (lit "a,"))).
Proof.
  split; [reflexivity|]. split.
  - apply not_elem_of_by_eqb. reflexivity.
  - vm_compute. discriminate.
Qed.

(** C5, amended: for a line without the quote character, under a dialect
    whose delimiter is a single character and whose skip_initial_space is
    off, [split] returns the line divided at every occurrence of the
    delimiter, each field trimmed with the dialect's trim characters,
    without the last field when that field is empty. *)
Theorem split_divides_at_delimiter dialect c line :
  delimiter_ dialect = [c] ->
  skip_initial_space_ dialect = false ->
  quote_character_ dialect ∉ line ->
  split dialect line
  = Some (map (trim dialect) (drop_empty_last (divide_at c line))).
Proof.
  intros Hd Hs Hq. unfold split.
  rewrite (split_loop_unquoted dialect c line Hd Hs Hq); [|done|simpl; lia].
  cbn [split_init i sub_result result app]. rewrite drop_0.
  destruct (divide_at_cons c line) as (f & fs & ->). done.
Qed.

(** With skip_initial_space on, the space after a delimiter is left out of
    the next field even when the dialect trims nothing. *)
Example split_skips_initial_space :
  split skipping_dialect (lit "a, b") = Some [lit "a"; lit "b"]
  /\ map (trim skipping_dialect) (divide_at ","%char (lit "a, b"))
     = [lit "a"; lit " b"].
Proof. split; vm_compute; reflexivity. Qed.

Lemma split_divides_at_delimiter_witness :
  split trimming_dialect (lit " a , b,") = Some [lit "a"; lit "b"].
Proof.
  apply (split_divides_at_delimiter trimming_dialect ","%char (lit " a , b,")).
  - reflexivity.
  - reflexivity.
  - apply not_elem_of_by_eqb. reflexivity.
Defined.

(** ** A line that ends in its one-character delimiter *)

Lemma divide_at_snoc c line :
  divide_at c (line ++ [c]) = divide_at c line ++ [[]].
Proof.
  induction line as [|ch line IH]; simpl.
  - by rewrite Ascii.eqb_refl.
  - destruct (Ascii.eqb ch c); [by rewrite IH|].
    rewrite IH. destruct (divide_at_cons c line) as (f & fs & ->). done.
Qed.

Lemma drop_empty_last_snoc fields :
  drop_empty_last (fields ++ [[]]) = fields.
Proof.
  induction fields as [|f fields IH]; [done|].
  cbn [app]. rewrite drop_empty_last_cons by (by destruct fields).
  by rewrite IH.
Qed.

(** Without quotes and with skip_initial_space off, a line followed by the
    delimiter is split into the fields of the line alone: the empty field
    after the final delimiter does not appear. *)
Lemma split_line_ending_in_delimiter dialect c line :
  delimiter_ dialect = [c] ->
  skip_initial_space_ dialect = false ->
  quote_character_ dialect ∉ line ++ [c] ->
  split dialect (line ++ [c])
  = Some (map (trim dialect) (divide_at c line)).
Proof.
  intros Hd Hs Hq. unfold split.
  rewrite (split_loop_unquoted dialect c (line ++ [c]) Hd Hs Hq);
    [|done|simpl; lia].
  cbn [split_init i sub_result result app]. rewrite drop_0, divide_at_snoc.
  destruct (divide_at_cons c line) as (f & fs & Hdiv). rewrite Hdiv.
  cbn [app prepend_to_first].
  change (f :: fs ++ [[]]) with ((f :: fs) ++ [[]]).
  by rewrite drop_empty_last_snoc.
Qed.

(** ** The dialect registry *)

(** C9: [use_dialect] with a name that is not registered makes that name the
    active dialect and then throws the not-found error; the registry is as it
    was, and the Reader is left with the unregistered name as its active
    dialect. *)
Theorem use_dialect_unregistered dialect_name r :
  dialects_ r !! dialect_name = None ->
  use_dialect dialect_name r
  = (with_current_dialect r dialect_name,
     Throws (lit "error: Dialect " ++ dialect_name ++ lit " not found"))
  /\ current_dialect_ (use_dialect dialect_name r).1 = dialect_name
  /\ dialects_ (use_dialect dialect_name r).1 = dialects_ r.
Proof.
  intros Hn. unfold use_dialect. cbn [with_current_dialect dialects_].
  rewrite Hn. done.
Qed.

Lemma use_dialect_unregistered_witness :
  current_dialect_ (Reader_new comma_dialect) = lit "excel"
  /\ current_dialect_
       (use_dialect (lit "mine") (Reader_new comma_dialect)).1 = lit "mine"
  /\ (use_dialect (lit "mine") (Reader_new comma_dialect)).2
     = Throws (lit "error: Dialect mine not found").
Proof.
  split; [reflexivity|].
  destruct (use_dialect_unregistered (lit "mine") (Reader_new comma_dialect))
    as (Hu & Hc & _).
  - vm_compute. reflexivity.
  - split; [exact Hc|]. rewrite Hu. reflexivity.
Defined.

(** A registered name also passes [use_dialect]. *)
Lemma use_dialect_registered dialect_name r :
  is_Some (dialects_ r !! dialect_name) ->
  use_dialect dialect_name r
  = (with_current_dialect r dialect_name, Returns tt).
Proof. intros [d Hd]. unfold use_dialect. simpl. by rewrite Hd. Qed.

(** C10: [configure_dialect] with a registered name returns the registered
    dialect and leaves the Reader, its active dialect included, as it was;
    with a name that is not registered it registers a fresh Dialect under
    the name, makes the name the active dialect and returns the fresh
    Dialect.  The names unix, excel and excel_tab are registered by the
    constructor, so configuring them leaves excel active. *)
Theorem configure_dialect_activates_only_new fresh dialect_name r :
  (forall d, dialects_ r !! dialect_name = Some d ->
     configure_dialect fresh dialect_name r = (r, d))
  /\ (dialects_ r !! dialect_name = None ->
      (configure_dialect fresh dialect_name r).2 = fresh
      /\ current_dialect_ (configure_dialect fresh dialect_name r).1
         = dialect_name
      /\ dialects_ (configure_dialect fresh dialect_name r).1
         = <[dialect_name := fresh]> (dialects_ r))
  /\ (forall name, name ∈ [lit "unix"; lit "excel"; lit "excel_tab"] ->
      is_Some (dialects_ (Reader_new fresh) !! name)
      /\ current_dialect_ (configure_dialect fresh name (Reader_new fresh)).1
         = lit "excel").
Proof.
  split; [|split].
  - intros d Hd. unfold configure_dialect. by rewrite Hd.
  - intros Hn. unfold configure_dialect. by rewrite Hn.
  - intros name Hin.
    assert (is_Some (dialects_ (Reader_new fresh) !! name)) as Hs.
    { repeat (apply elem_of_cons in Hin as [->|Hin]); [| | |by inversion Hin];
        vm_compute; eauto. }
    split; [done|]. destruct Hs as [d Hd].
    unfold configure_dialect. rewrite Hd. reflexivity.
Qed.

Lemma configure_dialect_activates_only_new_witness :
  current_dialect_
    (configure_dialect comma_dialect (lit "unix") (Reader_new comma_dialect)).1
  = lit "excel"
  /\ current_dialect_
       (configure_dialect comma_dialect (lit "mine")
          (Reader_new comma_dialect)).1
     = lit "mine".
Proof.
  destruct (configure_dialect_activates_only_new
              comma_dialect (lit "mine") (Reader_new comma_dialect))
    as (_ & Hnew & Hbuiltin).
  split.
  - apply Hbuiltin. apply list_elem_of_here.
  - apply Hnew. vm_compute. reflexivity.
Defined.

(** ** next_row *)

(** C7, as stated, fails: on a Reader whose row queue is empty [next_row]
    returns at once, and what it returns (the empty row) is not a row taken
    off the row queue. *)
Lemma next_row_blocking_counterexample :
  rows_ (Reader_new comma_dialect) = []
  /\ (next_row (Reader_new comma_dialect)).2 = ∅
  /\ ~ (exists q, rows_ (Reader_new comma_dialect)
                  = (next_row (Reader_new comma_dialect)).2 :: q).
Proof.
  split; [reflexivity|]. split; [reflexivity|].
  intros [q Hq]. discriminate Hq.
Qed.

(** C7, amended: [next_row] enqueues the value of [next_index_] on the index
    cell's queue, advances [next_index_] by one (as a size_t) and makes one
    try-dequeue on the row queue that does not wait: it returns the next
    completed row when there is one and the empty row at once when the row
    queue is empty. *)
Theorem next_row_does_not_wait r :
  next_index_ (next_row r).1 = size_t_wrap (next_index_ r + 1)
  /\ row_iterator_queue_ (next_row r).1
     = row_iterator_queue_ r ++ [next_index_ r]
  /\ match rows_ r with
     | [] => (next_row r).2 = ∅ /\ rows_ (next_row r).1 = []
     | row :: q => (next_row r).2 = row /\ rows_ (next_row r).1 = q
     end.
Proof.
  unfold next_row. cbn [with_next_index with_row_iterator_queue rows_].
  destruct (rows_ r) as [|row q]; simpl; done.
Qed.

(** ** What each action leaves alone *)

Lemma read_internal_entry_frame r :
  let r' := (read_internal_entry r).1 in
  expected_number_of_rows_ r' = expected_number_of_rows_ r
  /\ number_of_rows_processed_ r' = number_of_rows_processed_ r
  /\ rows_ r' = rows_ r
  /\ values_ r' = values_ r
  /\ dialects_ r' = dialects_ r
  /\ current_dialect_ r' = current_dialect_ r
  /\ row_iterator_queue_ r' = row_iterator_queue_ r
  /\ done_index_ r' = done_index_ r
  /\ processing_thread_started_ r' = processing_thread_started_ r.
Proof.
  unfold read_internal_entry. repeat case_match; simpl; done.
Qed.

Lemma reading_step_frame r t :
  let r' := (reading_step r t).1 in
  expected_number_of_rows_ r' = expected_number_of_rows_ r
  /\ number_of_rows_processed_ r' = number_of_rows_processed_ r
  /\ rows_ r' = rows_ r
  /\ dialects_ r' = dialects_ r
  /\ current_dialect_ r' = current_dialect_ r
  /\ row_iterator_queue_ r' = row_iterator_queue_ r
  /\ done_index_ r' = done_index_ r.
Proof.
  destruct t as [| |d|d [|v p]| | |]; cbn [reading_step]; try done.
  - pose proof (read_internal_entry_frame r) as H. cbv zeta in H. tauto.
  - repeat case_match; simpl; done.
Qed.

Lemma reading_step_not_at_entry r t :
  t <> reading_at_entry -> (reading_step r t).2 <> reading_at_entry.
Proof.
  destruct t as [| |d|d [|v p]| | |]; cbn [reading_step]; try done.
  repeat case_match; simpl; done.
Qed.

Lemma done_frame r :
  let r' := (done r).1 in
  expected_number_of_rows_ r' = expected_number_of_rows_ r
  /\ number_of_rows_processed_ r' = number_of_rows_processed_ r
  /\ rows_ r' = rows_ r
  /\ headers_ r' = headers_ r
  /\ current_row_ r' = current_row_ r
  /\ dialects_ r' = dialects_ r
  /\ current_dialect_ r' = current_dialect_ r.
Proof.
  unfold done, try_dequeue. repeat case_match; simplify_eq; simpl; done.
Qed.

Lemma ready_frame r :
  let r' := (ready r).1 in
  expected_number_of_rows_ r' = expected_number_of_rows_ r
  /\ number_of_rows_processed_ r' = tail (number_of_rows_processed_ r)
  /\ rows_ r' = rows_ r
  /\ headers_ r' = headers_ r
  /\ current_row_ r' = current_row_ r
  /\ dialects_ r' = dialects_ r
  /\ current_dialect_ r' = current_dialect_ r.
Proof.
  unfold ready, try_dequeue. repeat case_match; simplify_eq; simpl; done.
Qed.

Lemma next_row_frame r :
  let r' := (next_row r).1 in
  expected_number_of_rows_ r' = expected_number_of_rows_ r
  /\ number_of_rows_processed_ r' = number_of_rows_processed_ r
  /\ rows_ r' = tail (rows_ r)
  /\ headers_ r' = headers_ r
  /\ current_row_ r' = current_row_ r
  /\ dialects_ r' = dialects_ r
  /\ current_dialect_ r' = current_dialect_ r.
Proof.
  unfold next_row, try_dequeue.
  cbn [with_next_index with_row_iterator_queue rows_].
  destruct (rows_ r); simpl; done.
Qed.

Lemma rows_step_frame r c :
  let r' := (rows_step r c).1 in
  expected_number_of_rows_ r' = expected_number_of_rows_ r
  /\ (number_of_rows_processed_ r' = number_of_rows_processed_ r
      \/ number_of_rows_processed_ r' = tail (number_of_rows_processed_ r))
  /\ (rows_ r' = rows_ r \/ rows_ r' = tail (rows_ r))
  /\ headers_ r' = headers_ r
  /\ current_row_ r' = current_row_ r
  /\ dialects_ r' = dialects_ r
  /\ current_dialect_ r' = current_dialect_ r.
Proof.
  destruct c; cbn [rows_step]; try (cbv zeta; simpl; tauto).
  - pose proof (done_frame r) as H. cbv zeta in H.
    destruct (done r) as [r' b]. simpl in *. tauto.
  - pose proof (ready_frame r) as H. cbv zeta in H.
    destruct (ready r) as [r' b]. simpl in *. tauto.
  - pose proof (next_row_frame r) as H. cbv zeta in H.
    destruct (next_row r) as [r' row]. simpl in *. tauto.
Qed.

(** ** The processed-row counter *)

Lemma size_t_wrap_le x : (size_t_wrap x <= x)%N.
Proof. unfold size_t_wrap. apply N.Div0.mod_le. Qed.

Lemma size_t_wrap_small x : (x < 2 ^ 64)%N -> size_t_wrap x = x.
Proof. unfold size_t_wrap. apply N.mod_small. Qed.

(** What an iteration of [process_values] does to the counter and to the
    queue on which it is published. *)
Lemma process_values_iteration_count r l :
  let r' := (process_values_iteration r l).1 in
  let p := (process_values_iteration r l).2 in
  expected_number_of_rows_ r' = expected_number_of_rows_ r
  /\ (number_of_rows_processed_ r' = number_of_rows_processed_ r
      \/ (number_of_rows l <> expected_number_of_rows_ r
          /\ number_of_rows_processed_ r'
             = number_of_rows_processed_ r
               ++ [size_t_wrap (number_of_rows l + 1)]))
  /\ (p = processing_undefined
      \/ (number_of_rows l = expected_number_of_rows_ r
          /\ p = processing_returned l /\ r' = r)
      \/ (number_of_rows l <> expected_number_of_rows_ r
          /\ exists l', p = processing_loop l'
             /\ (number_of_rows l' = number_of_rows l
                 \/ number_of_rows l' = size_t_wrap (number_of_rows l + 1)))).
Proof.
  unfold process_values_iteration.
  destruct (N.eqb_spec (number_of_rows l) (expected_number_of_rows_ r))
    as [He|He]; [simpl; tauto|].
  destruct (values_ r) as [|value rest]; [simpl; eauto 10|].
  destruct (cols_ l =? 0)%N; [simpl; tauto|].
  cbn [headers_ with_values].
  destruct (headers_ r !! _) as [column_name|]; [|simpl; tauto].
  destruct (decide _); destruct (_ && _); simpl; unfold enqueue;
    (split; [done|]); (split; [tauto|]); right; right; eauto.
Qed.

Lemma counter_inv_exec E a s : counter_inv E s -> counter_inv E (exec a s).
Proof.
  intros (HE & Hc & Hq). destruct a; cbn [exec].
  - pose proof (reading_step_frame (reader s) (reading s)) as H.
    cbv zeta in H. destruct (reading_step _ _) as [r t].
    simpl in H. destruct H as (H1 & H2 & _).
    split; [|split]; cbn [reader processing].
    + congruence.
    + intros n. repeat case_match; first [apply Hc | done].
    + by rewrite H2.
  - destruct (processing s) as [| |l|l|] eqn:Hp; cbn [processing_step];
      try (split; [|split]; cbn [reader processing]; (done || by rewrite ?Hp)).
    + split; [|split]; cbn [reader processing]; try done.
      unfold process_values_entry. case_match; simpl; [|done].
      intros n [= <-]. lia.
    + pose proof (process_values_iteration_count (reader s) l) as H.
      cbv zeta in H. destruct (process_values_iteration _ _) as [r p].
      simpl in H. destruct H as (H1 & H2 & H).
      assert (number_of_rows l <= E)%N as Hl by (apply Hc; done).
      split; [|split]; cbn [reader processing]; [congruence| |].
      * destruct H as [->|[(_ & -> & _)|(Hne & l' & -> & [Hn|Hn])]];
          simpl; intros n; intros [= <-]; rewrite ?Hn; try done.
        etransitivity; [apply size_t_wrap_le|]. lia.
      * destruct H2 as [->|[Hne ->]]; [done|].
        apply Forall_app. split; [done|]. apply Forall_singleton.
        etransitivity; [apply size_t_wrap_le|]. lia.
  - pose proof (done_frame (reader s)) as H. cbv zeta in H.
    destruct H as (H1 & H2 & _).
    split; [|split]; cbn [reader processing]; [congruence|done|by rewrite H2].
  - pose proof (ready_frame (reader s)) as H. cbv zeta in H.
    destruct H as (H1 & H2 & _).
    split; [|split]; cbn [reader processing]; [congruence|done|].
    rewrite H2. destruct (number_of_rows_processed_ (reader s)); [done|].
    by apply Forall_cons in Hq as [_ ?].
  - pose proof (next_row_frame (reader s)) as H. cbv zeta in H.
    destruct H as (H1 & H2 & _).
    split; [|split]; cbn [reader processing]; [congruence|done|by rewrite H2].
  - destruct (client s); done.
  - pose proof (rows_step_frame (reader s) (client s)) as H. cbv zeta in H.
    destruct (rows_step _ _) as [r c]. simpl in H.
    destruct H as (H1 & H2 & _).
    split; [|split]; cbn [reader processing]; [congruence|done|].
    destruct H2 as [->| ->]; [done|].
    destruct (number_of_rows_processed_ (reader s)); [done|].
    by apply Forall_cons in Hq as [_ ?].
Qed.

Lemma counter_inv_run E schedule s :
  counter_inv E s -> counter_inv E (run schedule s).
Proof.
  revert s; induction schedule as [|a schedule IH]; intros s Hs; [done|].
  simpl. apply IH. by apply counter_inv_exec.
Qed.

Lemma counter_inv_started r :
  number_of_rows_processed_ r = [] ->
  counter_inv (expected_number_of_rows_ r) (started r).
Proof. intros Hq. split; [done|]. split; [done|]. simpl. by rewrite Hq. Qed.

Lemma processed_count_exec_mono E a s n n' :
  (E < 2 ^ 64)%N ->
  counter_inv E s ->
  processed_count (processing s) = Some n ->
  processed_count (processing (exec a s)) = Some n' ->
  (n <= n')%N.
Proof.
  intros HE (He & Hc & _) Hn. pose proof (Hc _ Hn) as Hle.
  destruct a; cbn [exec].
  - destruct (reading_step _ _) as [r t]. cbn [processing].
    repeat case_match; try done; rewrite Hn; intros [= <-]; lia.
  - destruct (processing s) as [| |l|l|] eqn:Hp; cbn [processing_step];
      try done; simpl in Hn; injection Hn as <-.
    + pose proof (process_values_iteration_count (reader s) l) as H.
      cbv zeta in H. destruct (process_values_iteration _ _) as [r p].
      simpl in H. destruct H as (_ & _ & H). cbn [processing].
      destruct H as [->|[(_ & -> & _)|(Hne & l' & -> & Hn')]];
        simpl; try done; intros [= <-]; [lia|].
      destruct Hn' as [-> | ->]; [lia|].
      rewrite size_t_wrap_small; lia.
    + simpl. intros [= <-]. lia.
  - simpl. rewrite Hn. intros [= <-]. lia.
  - simpl. rewrite Hn. intros [= <-]. lia.
  - simpl. rewrite Hn. intros [= <-]. lia.
  - destruct (client s); simpl; rewrite Hn; intros [= <-]; lia.
  - destruct (rows_step _ _). simpl. rewrite Hn. intros [= <-]. lia.
Qed.

(** *** The published counts *)

Lemma strictly_increasing_tail q :
  strictly_increasing q -> strictly_increasing (tail q).
Proof.
  destruct q as [|n q]; [done|]. intros Hq i j x y Hij Hi Hj.
  apply (Hq (S i) (S j)); [lia|done|done].
Qed.

Lemma strictly_increasing_snoc q n :
  strictly_increasing q ->
  Forall (fun x => (x < n)%N) q ->
  strictly_increasing (q ++ [n]).
Proof.
  intros Hq Hlt i j x y Hij Hi Hj.
  destruct (decide (j < length q)) as [Hjq|Hjq].
  - rewrite lookup_app_l in Hi, Hj by lia. by apply (Hq i j).
  - assert (i < length q) as Hiq.
    { apply lookup_lt_Some in Hj. rewrite length_app in Hj. simpl in Hj.
      lia. }
    rewrite lookup_app_l in Hi by done.
    rewrite lookup_app_r in Hj by lia.
    destruct (j - length q) as [|k]; [|by destruct k].
    injection Hj as <-.
    by apply (Forall_lookup_1 (fun x => (x < n)%N) q i x).
Qed.

(** An iteration of [process_values] either publishes nothing and leaves
    the counter as it is, or increments the counter and publishes its new
    value. *)
Lemma process_values_iteration_publish r l :
  let r' := (process_values_iteration r l).1 in
  let p := (process_values_iteration r l).2 in
  (number_of_rows_processed_ r' = number_of_rows_processed_ r
   /\ (p = processing_undefined
       \/ p = processing_returned l
       \/ exists l', p = processing_loop l'
                     /\ number_of_rows l' = number_of_rows l))
  \/ (number_of_rows l <> expected_number_of_rows_ r
      /\ number_of_rows_processed_ r'
         = number_of_rows_processed_ r
           ++ [size_t_wrap (number_of_rows l + 1)]
      /\ exists l', p = processing_loop l'
                    /\ number_of_rows l'
                       = size_t_wrap (number_of_rows l + 1)).
Proof.
  unfold process_values_iteration.
  destruct (N.eqb_spec (number_of_rows l) (expected_number_of_rows_ r))
    as [He|He]; [simpl; tauto|].
  destruct (values_ r) as [|value rest]; [simpl; eauto 10|].
  destruct (cols_ l =? 0)%N; [simpl; tauto|].
  cbn [headers_ with_values].
  destruct (headers_ r !! _) as [column_name|]; [|simpl; tauto].
  destruct (decide _); destruct (_ && _); simpl; unfold enqueue;
    first [ right; split; [done|]; split; [done|]; eexists; split; done
          | left; split; [done|]; right; right; eexists; split; done ].
Qed.

(** What a step does to the queue of published counts: nothing, or it
    takes the first count off (the caller's [ready]), or it appends the
    value that the counter has after the step. *)
Lemma published_exec a s :
  number_of_rows_processed_ (reader (exec a s))
  = number_of_rows_processed_ (reader s)
  \/ number_of_rows_processed_ (reader (exec a s))
     = tail (number_of_rows_processed_ (reader s))
  \/ exists n',
       number_of_rows_processed_ (reader (exec a s))
       = number_of_rows_processed_ (reader s) ++ [n']
       /\ processed_count (processing (exec a s)) = Some n'.
Proof.
  destruct a; cbn [exec].
  - pose proof (reading_step_frame (reader s) (reading s)) as H.
    cbv zeta in H. destruct (reading_step _ _) as [r t].
    simpl in H. destruct H as (_ & H2 & _). by left.
  - destruct (processing s) as [| |l|l|] eqn:Hp; cbn [processing_step];
      try by left.
    pose proof (process_values_iteration_publish (reader s) l) as H.
    cbv zeta in H. destruct (process_values_iteration _ _) as [r p].
    cbn [fst snd reader processing] in *.
    destruct H as [[H _]|(_ & H & l' & -> & Hn')]; [by left|].
    right. right. eexists. split; [exact H|]. simpl. by rewrite Hn'.
  - pose proof (done_frame (reader s)) as H. cbv zeta in H.
    destruct H as (_ & H2 & _). by left.
  - pose proof (ready_frame (reader s)) as H. cbv zeta in H.
    destruct H as (_ & H2 & _). right. by left.
  - pose proof (next_row_frame (reader s)) as H. cbv zeta in H.
    destruct H as (_ & H2 & _). by left.
  - left. by destruct (client s).
  - pose proof (rows_step_frame (reader s) (client s)) as H. cbv zeta in H.
    destruct (rows_step _ _) as [r c]. simpl in H.
    destruct H as (_ & [H2|H2] & _); [by left|right; by left].
Qed.

Lemma published_inv_exec E a s :
  (E < 2 ^ 64)%N ->
  counter_inv E s -> published_inv s -> published_inv (exec a s).
Proof.
  intros HE (He & Hc & _) (Hinc & Hle & Hentry).
  assert (forall r' rd' c',
            number_of_rows_processed_ r'
            = number_of_rows_processed_ (reader s)
            \/ number_of_rows_processed_ r'
               = tail (number_of_rows_processed_ (reader s)) ->
            rd' = reading s ->
            published_inv (mkSystem r' rd' (processing s) c')) as Hpoll.
  { intros r' rd' c' Hq ->. unfold published_inv.
    cbn [reader reading processing].
    split; [|split; [|done]].
    - destruct Hq as [-> | ->]; [done|by apply strictly_increasing_tail].
    - destruct Hq as [-> | ->]; [done|].
      destruct (processing s); try done;
        destruct (number_of_rows_processed_ (reader s)); try done;
        by apply Forall_cons in Hle as [_ ?]. }
  destruct a; cbn [exec].
  - (* the reading thread *)
    pose proof (reading_step_frame (reader s) (reading s)) as H.
    cbv zeta in H. destruct H as (_ & H2 & _).
    pose proof (reading_step_not_at_entry (reader s) (reading s)) as Hne.
    destruct (reading s) eqn:Hrd.
    2: { (* the entry *)
         specialize (Hentry eq_refl). rewrite Hentry in Hle.
         cbn [reading_step] in *.
         assert ((read_internal_entry (reader s)).2 <> reading_at_entry)
           as Hphase
           by (unfold read_internal_entry; repeat case_match; done).
         destruct (read_internal_entry (reader s)) as [r t].
         cbn [fst snd] in *. unfold published_inv.
         cbn [reader reading processing]. rewrite H2, Hle, Hentry.
         split; [by intros i j x y _ Hi|]. split; [by destruct t|done]. }
    all: specialize (Hne ltac:(done));
      destruct (reading_step _ _) as [r t]; cbn [fst snd] in *;
      unfold published_inv; cbn [reader reading processing];
      rewrite H2; split; [done|]; split; done.
  - (* the processing thread *)
    assert (reading s <> reading_at_entry \/
            processing s = processing_not_started) as Hrd
      by (destruct (reading s); auto; right; by apply Hentry).
    destruct (processing s) as [| |l|l|] eqn:Hp; cbn [processing_step];
      unfold published_inv; cbn [reader reading processing];
      try (split; [done|]; split; [done|]; by rewrite ?Hp).
    + (* its entry *)
      rewrite Hle. split; [done|]. split; [|by destruct Hrd].
      unfold process_values_entry. by case_match.
    + (* an iteration *)
      pose proof (process_values_iteration_publish (reader s) l) as H.
      cbv zeta in H. destruct (process_values_iteration _ _) as [r p].
      cbn [fst snd] in H. cbn [reader reading processing].
      assert (number_of_rows l <= E)%N as Hl by (apply Hc; done).
      destruct H as [[-> H]|(Hn & -> & l' & -> & Hn')].
      * split; [done|]. split; [|by destruct Hrd].
        destruct H as [->|[->|(l' & -> & ->)]]; done.
      * rewrite size_t_wrap_small in Hn' |- * by lia.
        split; [|split; [|by destruct Hrd]].
        -- apply strictly_increasing_snoc; [done|].
           eapply Forall_impl; [exact Hle|]. intros x Hx. simpl in Hx. lia.
        -- rewrite Hn'. apply Forall_app. split.
           ++ eapply Forall_impl; [exact Hle|]. intros x Hx. simpl in Hx. lia.
           ++ by apply Forall_singleton.
  - apply Hpoll; [|done]. pose proof (done_frame (reader s)) as H.
    cbv zeta in H. destruct H as (_ & H2 & _). by left.
  - apply Hpoll; [|done]. pose proof (ready_frame (reader s)) as H.
    cbv zeta in H. destruct H as (_ & H2 & _). by right.
  - apply Hpoll; [|done]. pose proof (next_row_frame (reader s)) as H.
    cbv zeta in H. destruct H as (_ & H2 & _). by left.
  - destruct (client s); first [by apply Hpoll; [left|]
                               | by destruct s ].
  - pose proof (rows_step_frame (reader s) (client s)) as H. cbv zeta in H.
    destruct (rows_step _ _) as [r c]. simpl in H.
    destruct H as (_ & H2 & _). by apply Hpoll.
Qed.

Lemma published_inv_run E schedule s :
  (E < 2 ^ 64)%N ->
  counter_inv E s -> published_inv s -> published_inv (run schedule s).
Proof.
  intros HE. revert s.
  induction schedule as [|a schedule IH]; intros s Hc Hs; [done|].
  simpl. apply IH; [by apply counter_inv_exec|].
  by apply (published_inv_exec E).
Qed.

Lemma published_inv_started r :
  number_of_rows_processed_ r = [] -> published_inv (started r).
Proof.
  intros Hq. unfold published_inv. cbn [reader reading processing started].
  rewrite Hq. split; [|done]. by intros i j x y _ Hi.
Qed.

(** C8: in every state that a read reaches, whatever the schedule, the
    processed-row counter is at most [expected_number_of_rows_], as is every
    value published on [number_of_rows_processed_]; no action makes the
    counter smaller; and once the counter equals
    [expected_number_of_rows_] the next step of the processing thread
    leaves the loop without publishing, after which the thread changes
    nothing.  The published values themselves never go down: in the queue
    they grow strictly from front to back and none exceeds the counter,
    and a step either leaves the queue as it is, takes its first value off
    (the caller's [ready]), or appends the value that the counter has
    after that step. *)
Theorem processed_rows_counter_monotone_bounded r schedule a :
  (expected_number_of_rows_ r < 2 ^ 64)%N ->
  number_of_rows_processed_ r = [] ->
  let s := run schedule (started r) in
  expected_number_of_rows_ (reader s) = expected_number_of_rows_ r
  /\ (forall n, processed_count (processing s) = Some n ->
        (n <= expected_number_of_rows_ r)%N)
  /\ Forall (fun n => (n <= expected_number_of_rows_ r)%N)
       (number_of_rows_processed_ (reader s))
  /\ (forall n n',
        processed_count (processing s) = Some n ->
        processed_count (processing (exec a s)) = Some n' ->
        (n <= n')%N)
  /\ (forall l,
        processing s = processing_loop l ->
        number_of_rows l = expected_number_of_rows_ r ->
        exec act_processing s
        = mkSystem (reader s) (reading s) (processing_returned l) (client s))
  /\ (forall l,
        processing s = processing_returned l -> exec act_processing s = s)
  /\ strictly_increasing (number_of_rows_processed_ (reader s))
  /\ (forall n, processed_count (processing s) = Some n ->
        Forall (fun x => (x <= n)%N) (number_of_rows_processed_ (reader s)))
  /\ (number_of_rows_processed_ (reader (exec a s))
      = number_of_rows_processed_ (reader s)
      \/ number_of_rows_processed_ (reader (exec a s))
         = tail (number_of_rows_processed_ (reader s))
      \/ exists n',
           number_of_rows_processed_ (reader (exec a s))
           = number_of_rows_processed_ (reader s) ++ [n']
           /\ processed_count (processing (exec a s)) = Some n').
Proof.
  intros HE Hq s.
  assert (counter_inv (expected_number_of_rows_ r) s) as Hinv
    by (apply counter_inv_run, counter_inv_started; done).
  assert (published_inv s) as (Hinc & Hle & _).
  { apply (published_inv_run (expected_number_of_rows_ r)); [done| |].
    - by apply counter_inv_started.
    - by apply published_inv_started. }
  pose proof Hinv as (He & Hc & Hf).
  split; [done|]. split; [done|]. split; [done|].
  split; [|split; [|split; [|split; [done|split]]]].
  - intros n n'.
    by apply (processed_count_exec_mono (expected_number_of_rows_ r)).
  - intros l Hl Hn. cbn [exec]. rewrite Hl. cbn [processing_step].
    unfold process_values_iteration. rewrite He, Hn, N.eqb_refl. done.
  - intros l Hl. cbn [exec]. rewrite Hl. cbn [processing_step].
    destruct s; simpl in *. by rewrite Hl.
  - intros n Hn. destruct (processing s); try done;
      simpl in Hn; injection Hn as <-; done.
  - apply published_exec.
Qed.

Lemma processed_rows_counter_monotone_bounded_witness :
  let r := after_read two_row_fs (lit "two.csv") (Reader_new comma_dialect) in
  let s := run (repeat act_reading 9 ++ repeat act_processing 6) (started r) in
  expected_number_of_rows_ r = 2%N
  /\ number_of_rows_processed_ (reader s) = [1%N; 2%N]
  /\ Forall (fun n => (n <= expected_number_of_rows_ r)%N)
       (number_of_rows_processed_ (reader s))
  /\ strictly_increasing (number_of_rows_processed_ (reader s)).
Proof.
  intros r s. split; [vm_compute; reflexivity|].
  split; [vm_compute; reflexivity|].
  assert (expected_number_of_rows_ r < 2 ^ 64)%N as HE
    by (vm_compute; reflexivity).
  assert (number_of_rows_processed_ r = []) as Hq
    by (vm_compute; reflexivity).
  pose proof (processed_rows_counter_monotone_bounded
                r (repeat act_reading 9 ++ repeat act_processing 6)
                act_processing HE Hq) as H.
  cbv zeta in H. destruct H as (_ & _ & Hbound & _ & _ & _ & Hinc & _).
  split; [exact Hbound|exact Hinc].
Defined.

(** ** The keys of the produced rows *)

Lemma dom_insert_headers (headers : list str) (row : Row) :
  dom (foldl (fun m header => <[header := []]> m) row headers)
  = dom row ∪ list_to_set headers.
Proof.
  revert row; induction headers as [|h headers IH]; intros row; simpl.
  - set_solver.
  - rewrite IH, dom_insert_L. set_solver.
Qed.

Lemma dom_erase_names (names : list str) (row : Row) :
  dom (foldl (fun m name => delete name m) row names)
  = dom row ∖ list_to_set names.
Proof.
  revert row; induction names as [|n names IH]; intros row; simpl.
  - set_solver.
  - rewrite IH, dom_delete_L. set_solver.
Qed.

Lemma dom_initial_row headers ignored :
  dom (initial_row headers ignored ∅) = list_to_set headers ∖ ignored.
Proof.
  unfold initial_row.
  rewrite dom_erase_names, dom_insert_headers, list_to_set_elements_L.
  set_solver.
Qed.

Lemma read_internal_entry_phase r :
  match (read_internal_entry r).2 with
  | reading_sets_flag _ | reading_threw _ | reading_out_of_fuel => True
  | _ => False
  end.
Proof. unfold read_internal_entry. repeat case_match; simpl; done. Qed.

(** The entry of [read_internal], when it gets as far as creating the
    processing thread, leaves the row buffer with exactly the produced
    keys. *)
Lemma read_internal_entry_keys r dialect :
  current_row_ r = ∅ ->
  (read_internal_entry r).2 = reading_sets_flag dialect ->
  dialects_ r !! current_dialect_ r = Some dialect
  /\ dom (current_row_ (read_internal_entry r).1)
     = produced_keys (read_internal_entry r).1 dialect.
Proof.
  intros Hrow. unfold read_internal_entry.
  destruct (dialects_ r !! current_dialect_ r) as [d|]; [|done].
  destruct (match getline (stream_ r) with
            | Some (l, s) => (l, s) | None => ([], stream_ r) end)
    as [first_line stream1].
  destruct (split d _) as [first_line_split|]; [|done].
  destruct (if header_ d then _ else _) as [headers stream2].
  simpl. intros [= <-]. split; [done|].
  unfold produced_keys. simpl. rewrite Hrow. apply dom_initial_row.
Qed.

(** An iteration of [process_values] keeps the keys of the row buffer, and
    the row it enqueues is the buffer. *)
Lemma process_values_iteration_keys r l keys :
  dom (current_row_ r) = keys ->
  list_to_set (headers_ r) ∖ ignore_columns l = keys ->
  Forall (fun row : Row => dom row = keys) (rows_ r) ->
  let r' := (process_values_iteration r l).1 in
  let p := (process_values_iteration r l).2 in
  headers_ r' = headers_ r
  /\ dialects_ r' = dialects_ r
  /\ current_dialect_ r' = current_dialect_ r
  /\ dom (current_row_ r') = keys
  /\ Forall (fun row : Row => dom row = keys) (rows_ r')
  /\ p <> processing_not_started
  /\ (forall l', p = processing_loop l' -> ignore_columns l' = ignore_columns l).
Proof.
  intros Hdom Hkeys Hrows. unfold process_values_iteration.
  destruct (_ =? _)%N; [simpl; done|].
  destruct (values_ r) as [|value rest]; [simpl; split_and!; try done;
    by intros l' [= <-]|].
  destruct (cols_ l =? 0)%N; [simpl; done|].
  cbn [headers_ with_values].
  destruct (headers_ r !! _) as [column_name|] eqn:Hcol; [|simpl; done].
  assert (column_name ∈ headers_ r) as Hin
    by (apply list_elem_of_lookup; eauto).
  assert (column_name ∉ ignore_columns l ->
          dom (<[column_name := value]> (current_row_ r)) = keys) as Hins.
  { intros Hn. rewrite dom_insert_L, Hdom, <- Hkeys. set_solver. }
  destruct (decide (column_name ∈ ignore_columns l)) as [Hig|Hig];
    destruct (_ && _); simpl; unfold enqueue;
    (split_and!; try done; try by intros l' [= <-]);
    try (by apply Hins);
    (apply Forall_app; split; [done|]; apply Forall_singleton);
    first [done | by apply Hins].
Qed.

Lemma reading_step_frame_rows r t :
  t <> reading_at_entry ->
  headers_ (reading_step r t).1 = headers_ r
  /\ current_row_ (reading_step r t).1 = current_row_ r.
Proof.
  destruct t as [| |d|d [|v p]| | |]; cbn [reading_step]; try done.
  repeat case_match; simpl; done.
Qed.

Lemma exec_reading_other s :
  reading s <> reading_at_entry ->
  exec act_reading s
  = mkSystem (reading_step (reader s) (reading s)).1
             (reading_step (reader s) (reading s)).2
             (processing s) (client s).
Proof.
  intros Hne. cbn [exec]. destruct (reading_step _ _) as [r t]. simpl.
  destruct (reading s); done.
Qed.

Lemma exec_reading_entry s :
  reading s = reading_at_entry ->
  exec act_reading s
  = mkSystem (read_internal_entry (reader s)).1
             (read_internal_entry (reader s)).2
             (match (read_internal_entry (reader s)).2 with
              | reading_sets_flag _ => processing_at_entry
              | _ => processing s
              end)
             (client s).
Proof.
  intros He. cbn [exec]. rewrite He. cbn [reading_step].
  destruct (read_internal_entry _) as [r t]. done.
Qed.

(** Actions that leave the headers, the row buffer and the processing
    thread alone, and at most take a row off the row queue, keep the
    invariant. *)
Lemma keys_inv_frame D0 c0 s s' :
  keys_inv D0 c0 s ->
  dialects_ (reader s') = dialects_ (reader s) ->
  current_dialect_ (reader s') = current_dialect_ (reader s) ->
  headers_ (reader s') = headers_ (reader s) ->
  current_row_ (reader s') = current_row_ (reader s) ->
  (rows_ (reader s') = rows_ (reader s)
   \/ rows_ (reader s') = tail (rows_ (reader s))) ->
  processing s' = processing s ->
  (reading s' = reading_at_entry -> reading s = reading_at_entry) ->
  keys_inv D0 c0 s'.
Proof.
  intros (HD & Hc & HA & HB) H1 H2 H3 H4 H5 H6 H7.
  split; [congruence|]. split; [congruence|]. rewrite H6. split.
  - intros Hp. destruct (HA Hp) as [Hrows Hrow]. split.
    + destruct H5 as [-> | ->]; by rewrite Hrows.
    + intros He. rewrite H4. auto.
  - intros Hp. destruct (HB Hp) as (Hne & dialect & Hd & Hdom & Hrows & Hl).
    split; [auto|]. exists dialect. unfold produced_keys in *.
    rewrite H3, H4. split_and!; try done.
    destruct H5 as [-> | ->]; [done|].
    destruct (rows_ (reader s)); [done|]. by apply Forall_cons in Hrows as [_ ?].
Qed.

Lemma keys_inv_exec D0 c0 a s : keys_inv D0 c0 s -> keys_inv D0 c0 (exec a s).
Proof.
  intros Hinv. destruct a.
  - (* the reading thread *)
    destruct (reading s) eqn:Hr.
    2: { (* the entry of read_internal *)
      rewrite (exec_reading_entry _ Hr).
      destruct Hinv as (HD & Hc & HA & HB).
      destruct (processing s) eqn:Hp; try (exfalso; by apply HB).
      destruct (HA eq_refl) as [Hrows Hrow]. specialize (Hrow Hr).
      pose proof (read_internal_entry_keys (reader s)) as HK.
      pose proof (read_internal_entry_frame (reader s)) as HF.
      cbv zeta in HF. destruct HF as (_ & _ & HF3 & _ & HF4 & HF5 & _).
      split; [by rewrite <- HD|]. split; [by rewrite <- Hc|].
      cbn [reader reading processing].
      pose proof (read_internal_entry_phase (reader s)) as HP.
      destruct ((read_internal_entry (reader s)).2) as [| |dialect| | | |]
        eqn:Ht; try done.
      - split; [done|]. intros _. split; [done|].
        destruct (HK dialect Hrow eq_refl) as [Hd Hdom].
        exists dialect. rewrite <- HD, <- Hc. split_and!; try done.
        rewrite HF3, Hrows. constructor.
      - split; [|done]. intros _. split; [congruence|done].
      - split; [|done]. intros _. split; [congruence|done]. }
    all: rewrite exec_reading_other by (rewrite Hr; done).
    all: pose proof (reading_step_frame (reader s) (reading s)) as HF.
    all: pose proof (reading_step_frame_rows (reader s) (reading s)) as HG.
    all: pose proof (reading_step_not_at_entry (reader s) (reading s)) as HE.
    all: cbv zeta in HF; destruct HF as (_ & _ & HF3 & HF4 & HF5 & _).
    all: destruct HG as [HG1 HG2]; [by rewrite Hr|].
    all: apply (keys_inv_frame D0 c0 s); simpl; try done; try (by left).
    all: try (intros He'; exfalso; apply HE; [by rewrite Hr|done]).
  - (* the processing thread *)
    destruct Hinv as (HD & Hc & HA & HB). cbn [exec].
    destruct (processing s) as [| |l|l|] eqn:Hp; cbn [processing_step].
    + split_and!; cbn [reader reading processing]; done.
    + destruct (HB ltac:(done)) as (Hne & dialect & Hd & Hdom & Hrows & _).
      unfold process_values_entry. rewrite HD, Hc, Hd.
      split_and!; cbn [reader reading processing]; try done.
      intros _. split; [done|]. exists dialect. split_and!; try done.
      by intros l [= <-].
    + destruct (HB ltac:(done)) as (Hne & dialect & Hd & Hdom & Hrows & Hl).
      specialize (Hl l eq_refl).
      pose proof (process_values_iteration_keys (reader s) l
                    (produced_keys (reader s) dialect) Hdom) as HK.
      cbv zeta in HK. unfold produced_keys in HK at 1. rewrite Hl in HK.
      specialize (HK eq_refl Hrows).
      destruct (process_values_iteration _ _) as [r p]. simpl in HK.
      destruct HK as (K1 & K2 & K3 & K4 & K5 & K6 & K7).
      split_and!; cbn [reader reading processing]; try congruence.
      intros _. split; [done|]. exists dialect. unfold produced_keys in *.
      rewrite K1. split_and!; try done.
    + split_and!; cbn [reader reading processing]; done.
    + split_and!; cbn [reader reading processing]; done.
  - pose proof (done_frame (reader s)) as HF. cbv zeta in HF.
    apply (keys_inv_frame D0 c0 s); simpl; try tauto.
  - pose proof (ready_frame (reader s)) as HF. cbv zeta in HF.
    apply (keys_inv_frame D0 c0 s); simpl; try tauto.
  - pose proof (next_row_frame (reader s)) as HF. cbv zeta in HF.
    apply (keys_inv_frame D0 c0 s); simpl; try tauto.
  - cbn [exec]. destruct (client s); done.
  - pose proof (rows_step_frame (reader s) (client s)) as HF. cbv zeta in HF.
    cbn [exec]. destruct (rows_step _ _) as [r c]. simpl in HF.
    apply (keys_inv_frame D0 c0 s); simpl; try tauto.
Qed.

Lemma keys_inv_run D0 c0 schedule s :
  keys_inv D0 c0 s -> keys_inv D0 c0 (run schedule s).
Proof.
  revert s; induction schedule as [|a schedule IH]; intros s Hs; [done|].
  simpl. apply IH. by apply keys_inv_exec.
Qed.

Lemma keys_inv_started r :
  rows_ r = [] -> current_row_ r = ∅ ->
  keys_inv (dialects_ r) (current_dialect_ r) (started r).
Proof. intros Hq Hrow. split_and!; simpl; done. Qed.

(** A value that falls on an ignored column is dequeued and counted by
    [index], and the row buffer stays as it is. *)
Lemma ignored_column_consumes_slot r l value rest column_name :
  number_of_rows l <> expected_number_of_rows_ r ->
  values_ r = value :: rest ->
  cols_ l <> 0%N ->
  headers_ r !! N.to_nat (index l mod cols_ l) = Some column_name ->
  column_name ∈ ignore_columns l ->
  exists r' l',
    process_values_iteration r l = (r', processing_loop l')
    /\ index l' = size_t_wrap (index l + 1)
    /\ values_ r' = rest
    /\ current_row_ r' = current_row_ r.
Proof.
  intros Hn Hv Hc Hh Hi. unfold process_values_iteration.
  destruct (N.eqb_spec (number_of_rows l) (expected_number_of_rows_ r));
    [done|].
  rewrite Hv. destruct (N.eqb_spec (cols_ l) 0); [done|].
  cbn [headers_ with_values]. rewrite Hh.
  destruct (decide _); [|done].
  destruct (_ && _); eexists _, _; split_and!; done.
Qed.

(** C6: whatever the schedule of a read that starts with an empty row queue
    and an empty row buffer, every row in the row queue has exactly the
    header names without the ignored names as its keys, so an ignored name
    is the key of no produced row; and a value that falls on an ignored
    column still advances the field index by one while the row buffer stays
    as it is. *)
Theorem produced_rows_omit_ignored_columns r schedule :
  rows_ r = [] ->
  current_row_ r = ∅ ->
  let s := run schedule (started r) in
  (forall row : Row, row ∈ rows_ (reader s) ->
     exists dialect,
       dialects_ r !! current_dialect_ r = Some dialect
       /\ dom row = list_to_set (headers_ (reader s)) ∖ ignore_columns_ dialect
       /\ forall name, name ∈ ignore_columns_ dialect -> row !! name = None)
  /\ (forall l value rest column_name,
        processing s = processing_loop l ->
        number_of_rows l <> expected_number_of_rows_ (reader s) ->
        values_ (reader s) = value :: rest ->
        cols_ l <> 0%N ->
        headers_ (reader s) !! N.to_nat (index l mod cols_ l)
        = Some column_name ->
        column_name ∈ ignore_columns l ->
        exists r' l',
          exec act_processing s
          = mkSystem r' (reading s) (processing_loop l') (client s)
          /\ index l' = size_t_wrap (index l + 1)
          /\ current_row_ r' = current_row_ (reader s)).
Proof.
  intros Hq Hrow s.
  assert (keys_inv (dialects_ r) (current_dialect_ r) s) as Hinv
    by (apply keys_inv_run, keys_inv_started; done).
  destruct Hinv as (HD & Hc & HA & HB). split.
  - intros row Hin.
    assert (processing s <> processing_not_started) as Hp.
    { intros Hp. destruct (HA Hp) as [Hrows _]. rewrite Hrows in Hin.
      by inversion Hin. }
    destruct (HB Hp) as (_ & dialect & Hd & _ & Hrows & _).
    exists dialect. split; [done|].
    rewrite Forall_forall in Hrows. specialize (Hrows row Hin).
    split; [done|]. intros name Hname. apply not_elem_of_dom.
    rewrite Hrows. unfold produced_keys. set_solver.
  - intros l value rest column_name Hp Hn Hv Hcols Hh Hi.
    destruct (ignored_column_consumes_slot _ _ _ _ _ Hn Hv Hcols Hh Hi)
      as (r' & l' & Hit & Hidx & _ & Hcur).
    exists r', l'. cbn [exec]. rewrite Hp. cbn [processing_step].
    rewrite Hit. done.
Qed.

Lemma produced_rows_omit_ignored_columns_witness :
  let r := after_read two_row_fs (lit "two.csv") ignoring_reader in
  let s := run (repeat act_reading 9 ++ repeat act_processing 6) (started r) in
  rows_ (reader s) = [ {[lit "a" := lit "1"]}; {[lit "a" := lit "3"]} ]
  /\ forall row : Row, row ∈ rows_ (reader s) ->
       exists dialect,
         dialects_ r !! current_dialect_ r = Some dialect
         /\ dom row
            = list_to_set (headers_ (reader s)) ∖ ignore_columns_ dialect
         /\ forall name, name ∈ ignore_columns_ dialect -> row !! name = None.
Proof.
  intros r s. split; [vm_compute; reflexivity|].
  apply (produced_rows_omit_ignored_columns
           r (repeat act_reading 9 ++ repeat act_processing 6)).
  - vm_compute. reflexivity.
  - vm_compute. reflexivity.
Defined.

(** On the file with two data lines [rows()] returns both rows, in order. *)
Example rows_returns_both_data_lines :
  let r := after_read two_row_fs (lit "two.csv") (Reader_new comma_dialect) in
  client (run (repeat act_reading 9 ++ repeat act_processing 6
               ++ act_call_rows :: repeat act_rows 7) (started r))
  = rows_returned [ {[lit "a" := lit "1"; lit "b" := lit "2"]};
                    {[lit "a" := lit "3"; lit "b" := lit "4"]} ].
Proof. vm_compute. reflexivity. Qed.

(** ** The pre-scan of read *)

Lemma take_line_app line rest :
  newline ∉ line -> take_line (line ++ newline :: rest) = (line, S (length line)).
Proof.
  induction line as [|ch line IH]; intros Hn; simpl.
  - reflexivity.
  - destruct (Ascii.eqb_spec ch newline) as [->|_]; [set_solver|].
    rewrite IH by set_solver. reflexivity.
Qed.

Lemma getline_line pre line rest :
  newline ∉ line ->
  getline (mkStream (pre ++ line ++ newline :: rest) (length pre))
  = Some (line, mkStream (pre ++ line ++ newline :: rest)
                         (length pre + S (length line))).
Proof.
  intros Hn. unfold getline. cbn [offset content].
  rewrite drop_app_length.
  destruct (line ++ newline :: rest) eqn:He; [by destruct line|].
  rewrite <- He, take_line_app by done. reflexivity.
Qed.

Lemma getline_end data : getline (mkStream data (length data)) = None.
Proof. unfold getline. cbn [offset content]. by rewrite drop_all. Qed.

(** The pre-scan counts one per line and stops at the end of the file. *)
Lemma prescan_file_of_lines lines :
  Forall (fun line => newline ∉ line) lines ->
  forall pre count fuel,
    length lines < fuel ->
    (count + N.of_nat (length lines) < 2 ^ 64)%N ->
    prescan fuel (mkStream (pre ++ file_of_lines lines) (length pre)) count
    = Some (mkStream (pre ++ file_of_lines lines)
                     (length (pre ++ file_of_lines lines)),
            (count + N.of_nat (length lines))%N).
Proof.
  induction 1 as [|line lines Hn _ IH]; intros pre count fuel Hf Hc;
    (destruct fuel as [|fuel]; [simpl in Hf; lia|]); cbn [prescan].
  - unfold file_of_lines. simpl. rewrite app_nil_r, getline_end.
    by rewrite N.add_0_r.
  - unfold file_of_lines. cbn [map concat]. fold (file_of_lines lines).
    rewrite <- (app_assoc line [newline]). cbn [app].
    rewrite getline_line by done.
    replace (pre ++ line ++ newline :: file_of_lines lines)
      with ((pre ++ line ++ [newline]) ++ file_of_lines lines)
      by (by rewrite <- !app_assoc).
    replace (length pre + S (length line))
      with (length (pre ++ line ++ [newline]))
      by (rewrite !length_app; simpl; lia).
    cbn [length] in Hf, Hc.
    rewrite size_t_wrap_small by lia.
    rewrite IH; [|lia|lia].
    replace (count + 1 + N.of_nat (length lines))%N
      with (count + N.of_nat (length (line :: lines)))%N
      by (cbn [length]; lia).
    reflexivity.
Qed.

(** The first half of C1: for a file made of a header line and [N] data
    lines, [read] on a fresh Reader returns with
    [expected_number_of_rows_ = N]. *)
Lemma read_counts_data_lines fresh (fs : filesystem) filename header_line
    data_lines :
  fs filename = Some (file_of_lines (header_line :: data_lines)) ->
  Forall (fun line => newline ∉ line) (header_line :: data_lines) ->
  (N.of_nat (S (length data_lines)) < 2 ^ 64)%N ->
  exists r,
    read fs filename (Reader_new fresh) = Some (r, Returns tt)
    /\ expected_number_of_rows_ r = N.of_nat (length data_lines)
    /\ reading_thread_started_ r = true.
Proof.
  intros Hfs Hlines Hsize. unfold read. rewrite Hfs.
  cbn [stream_ with_file expected_number_of_rows_ Reader_new].
  pose proof (prescan_file_of_lines _ Hlines [] 0%N
                (S (length (file_of_lines (header_line :: data_lines)))))
    as Hp.
  cbn [app length] in Hp. rewrite Hp; [|clear Hp|lia].
  2: { unfold file_of_lines. simpl. rewrite !length_app.
       enough (length data_lines
               <= length (concat (map (fun l => l ++ [newline]) data_lines)))
         by (simpl; lia).
       clear. induction data_lines as [|l ls IH]; simpl; [lia|].
       rewrite !length_app. simpl. lia. }
  cbn [dialects_ current_dialect_ with_file].
  replace (_ !! lit "excel")
    with (Some (header true (double_quote true (quote_character
            double_quote_mark (delimiter (lit ",") fresh)))))
    by (vm_compute; reflexivity).
  cbn [header header_ andb]. eexists. split; [|split].
  - replace (0 <? 0 + N.of_nat (S (length data_lines)))%N with true
      by (symmetry; apply N.ltb_lt; lia).
    reflexivity.
  - simpl. lia.
  - reflexivity.
Qed.

(** ** rows() on a file with one data line *)

Lemma run_app l1 l2 s : run (l1 ++ l2) s = run l2 (run l1 s).
Proof. unfold run. apply foldl_app. Qed.

Lemma processing_step_frame r t :
  let r' := (processing_step r t).1 in
  expected_number_of_rows_ r' = expected_number_of_rows_ r
  /\ row_iterator_queue_ r' = row_iterator_queue_ r
  /\ done_index_ r' = done_index_ r
  /\ processing_thread_started_ r' = processing_thread_started_ r.
Proof.
  destruct t; cbn [processing_step]; try done.
  unfold process_values_iteration. repeat case_match; simpl; done.
Qed.

(** The workers touch neither the index cell nor the caller's state. *)
Lemma exec_worker_frame a s :
  is_worker a = true ->
  expected_number_of_rows_ (reader (exec a s))
  = expected_number_of_rows_ (reader s)
  /\ row_iterator_queue_ (reader (exec a s)) = row_iterator_queue_ (reader s)
  /\ done_index_ (reader (exec a s)) = done_index_ (reader s)
  /\ client (exec a s) = client s.
Proof.
  destruct a; try done; intros _; cbn [exec].
  - pose proof (reading_step_frame (reader s) (reading s)) as H.
    cbv zeta in H. destruct (reading_step _ _) as [r t]. simpl in *. tauto.
  - pose proof (processing_step_frame (reader s) (processing s)) as H.
    cbv zeta in H. destruct (processing_step _ _) as [r t]. simpl in *. tauto.
Qed.

Lemma run_workers_frame workers s :
  forallb is_worker workers = true ->
  expected_number_of_rows_ (reader (run workers s))
  = expected_number_of_rows_ (reader s)
  /\ row_iterator_queue_ (reader (run workers s))
     = row_iterator_queue_ (reader s)
  /\ done_index_ (reader (run workers s)) = done_index_ (reader s)
  /\ client (run workers s) = client s.
Proof.
  revert s; induction workers as [|a workers IH]; intros s Hw; [done|].
  simpl in Hw. apply andb_prop in Hw as [Ha Hw]. simpl.
  destruct (IH (exec a s) Hw) as (-> & -> & -> & ->).
  by apply exec_worker_frame.
Qed.

(** With one row expected and the index cell untouched, the first [done()]
    of [rows()] after the processing thread has started is true, and
    [rows()] returns without a row. *)
Lemma rows_returns_at_once r :
  processing_thread_started_ r = true ->
  row_iterator_queue_ r = [] ->
  done_index_ r = 0%N ->
  expected_number_of_rows_ r = 1%N ->
  (rows_step r (rows_at_done [])).2 = rows_returned [].
Proof.
  intros Hs Hq Hd He. cbn [rows_step]. unfold done.
  rewrite Hs, Hq, Hd, He. reflexivity.
Qed.

(** C1: for the file with the header line a and the one data line 1, [read]
    sets [expected_number_of_rows_] to 1; yet whatever the workers have done
    by then, a caller who enters [rows()] once [processing_thread_started_]
    is set gets back no row at all. *)
Theorem rows_misses_single_data_line fresh :
  exists r,
    read one_row_fs (lit "one.csv") (Reader_new fresh) = Some (r, Returns tt)
    /\ expected_number_of_rows_ r = 1%N
    /\ forall workers,
         forallb is_worker workers = true ->
         processing_thread_started_ (reader (run workers (started r))) = true ->
         client (run (workers ++ [act_call_rows; act_rows]) (started r))
         = rows_returned [].
Proof.
  exists (after_read one_row_fs (lit "one.csv") (Reader_new fresh)).
  split; [vm_compute; reflexivity|]. split; [vm_compute; reflexivity|].
  intros workers Hw Hstarted. rewrite run_app.
  set (r := after_read _ _ _) in *.
  destruct (run_workers_frame workers (started r) Hw) as (He & Hq & Hd & Hc).
  set (s := run workers (started r)) in *.
  cbn [run foldl exec]. rewrite Hc. cbn [started client reader].
  pose proof (rows_returns_at_once (reader s) Hstarted) as H.
  destruct (rows_step (reader s) (rows_at_done [])) as [r' c]. simpl in *.
  apply H.
  - rewrite Hq. vm_compute. reflexivity.
  - rewrite Hd. vm_compute. reflexivity.
  - rewrite He. vm_compute. reflexivity.
Qed.

Lemma rows_misses_single_data_line_witness :
  let r := after_read one_row_fs (lit "one.csv") (Reader_new comma_dialect) in
  let workers := repeat act_reading 5 ++ repeat act_processing 3 in
  expected_number_of_rows_ r = 1%N
  /\ rows_ (reader (run workers (started r))) = [ {[lit "a" := lit "1"]} ]
  /\ client (run (workers ++ [act_call_rows; act_rows]) (started r))
     = rows_returned [].
Proof.
  intros r workers.
  destruct (rows_misses_single_data_line comma_dialect)
    as (r' & Hread & Hexp & Hrows).
  assert (r' = r) as ->.
  { unfold r, after_read. rewrite Hread. reflexivity. }
  split; [exact Hexp|]. split; [vm_compute; reflexivity|].
  apply Hrows; vm_compute; reflexivity.
Defined.

(** * Further properties of the tokenizer *)

Section ScanBounds.
Variable dialect : Dialect.
Variable input_string : str.

Lemma delimiter_loop_i_le rest st :
  i st < length input_string ->
  i (delimiter_loop dialect input_string rest st).1 <= length input_string.
Proof.
  revert st; induction rest as [|dj rest IH]; intros st Hi; [simpl; lia|].
  cbn [delimiter_loop]. destruct (negb _); [simpl; lia|].
  destruct rest as [|dj' rest].
  - destruct (Nat.even _); [|simpl; lia].
    destruct (Nat.ltb_spec (S (i st)) (length input_string));
      cbn [andb]; [|simpl; lia].
    destruct (_ && _); simpl; lia.
  - destruct (Nat.eqb_spec (S (i st)) (length input_string)); [simpl; lia|].
    apply IH. simpl. lia.
Qed.

(** [split] returns for every dialect and every line, and no iteration of
    the scan moves the index beyond the null character that ends the string:
    after the inner loop the index is at most [size()], so every
    [input_string[i]] is a defined read. *)
Theorem split_stays_in_bounds :
  is_Some (split dialect input_string)
  /\ forall st,
       i st < length input_string ->
       i (delimiter_loop dialect input_string (delimiter_ dialect) st).1
       <= length input_string
       /\ i st < i (split_body dialect input_string st)
          <= S (length input_string).
Proof.
  split.
  - unfold split. apply fmap_is_Some, split_loop_total. simpl. lia.
  - intros st Hi. split; [by apply delimiter_loop_i_le|].
    split; [apply split_body_i|].
    unfold split_body.
    pose proof (delimiter_loop_i_le (delimiter_ dialect) st Hi) as H.
    destruct (delimiter_loop _ _ _ _) as [st1 b]. simpl in *. lia.
Qed.

Lemma split_body_nonempty st :
  i st < length input_string ->
  result (split_body dialect input_string st) <> []
  \/ sub_result (split_body dialect input_string st) <> [].
Proof.
  intros Hi. unfold split_body.
  destruct (delimiter_loop _ _ _ _) as [st1 [|]] eqn:Hd; simpl.
  - left. apply delimiter_detected_sound in Hd as (_ & _ & _ & ->); [|done].
    by destruct (result st).
  - right. by destruct (sub_result st1).
Qed.

Lemma split_loop_nonempty fuel st st' :
  result st <> [] \/ sub_result st <> [] ->
  split_loop dialect input_string fuel st = Some st' ->
  result st' <> [] \/ sub_result st' <> [].
Proof.
  revert st; induction fuel as [|fuel IH]; intros st Hne; [done|].
  cbn [split_loop].
  destruct (Nat.ltb_spec (i st) (length input_string)) as [Hi|Hi].
  - apply IH. by apply split_body_nonempty.
  - by intros [= <-].
Qed.

Lemma split_loop_scans_nonempty fuel st st' :
  i st < length input_string ->
  split_loop dialect input_string fuel st = Some st' ->
  result st' <> [] \/ sub_result st' <> [].
Proof.
  intros Hi. destruct fuel as [|fuel]; [done|]. cbn [split_loop].
  destruct (Nat.ltb_spec (i st) (length input_string)); [|lia].
  apply split_loop_nonempty. by apply split_body_nonempty.
Qed.

End ScanBounds.

(** [split] returns no field exactly for the empty line: every line with at
    least one character yields at least one field. *)
Theorem split_no_field_iff_empty_line dialect line :
  split dialect line = Some [] <-> line = [].
Proof.
  split; [|by intros ->].
  intros Hs. destruct line as [|ch line]; [done|]. exfalso.
  unfold split in Hs.
  destruct (split_loop _ _ _ _) as [st'|] eqn:Hl; [|by simpl in Hs].
  apply split_loop_scans_nonempty in Hl; [|simpl; lia].
  simpl in Hs. injection Hs as Hs. unfold split_finish in Hs.
  destruct (sub_result st'); [tauto|].
  by destruct (result st').
Qed.

Lemma split_loop_empty_delimiter dialect line :
  delimiter_ dialect = [] ->
  forall fuel st,
    length line - i st < fuel ->
    exists st',
      split_loop dialect line fuel st = Some st'
      /\ result st' = result st
      /\ sub_result st' = sub_result st ++ drop (i st) line.
Proof.
  intros Hd. induction fuel as [|fuel IH]; intros st Hf; [lia|].
  cbn [split_loop].
  destruct (Nat.ltb_spec (i st) (length line)) as [Hi|Hi].
  - destruct (IH (split_body dialect line st)) as (st' & Hl & Hr & Hs).
    { pose proof (split_body_i dialect line st). lia. }
    exists st'. split; [done|]. revert Hr Hs.
    unfold split_body. rewrite Hd. cbn [delimiter_loop].
    cbn [i sub_result quotes_encountered result]. intros -> ->.
    split; [done|]. by rewrite (char_at_drop _ _ Hi), <- app_assoc.
  - exists st. rewrite drop_ge by lia. by rewrite app_nil_r.
Qed.

(** With an empty delimiter nothing splits: a line with at least one
    character is returned as a single field, the trimmed line. *)
Theorem split_empty_delimiter dialect line :
  delimiter_ dialect = [] ->
  line <> [] ->
  split dialect line = Some [trim dialect line].
Proof.
  intros Hd Hne. unfold split.
  destruct (split_loop_empty_delimiter dialect line Hd
              (S (length line)) split_init) as (st' & -> & Hr & Hs);
    [simpl; lia|].
  simpl in Hr, Hs. rewrite drop_0 in Hs. simpl. unfold split_finish.
  rewrite Hr, Hs. by destruct line.
Qed.

Lemma split_empty_delimiter_witness :
  split (delimiter [] comma_dialect) (lit "a,b") = Some [lit "a,b"].
Proof.
  apply (split_empty_delimiter (delimiter [] comma_dialect) (lit "a,b")).
  - reflexivity.
  - discriminate.
Defined.

(** ** Trimming again *)

Lemma erase_leading_fixed dialect s :
  (forall ch, head s = Some ch -> is_trim_char dialect ch = false) ->
  erase_leading dialect s = s.
Proof.
  destruct s as [|ch s]; [done|]. intros H. simpl. by rewrite (H ch).
Qed.

Lemma head_rev {A} (l : list A) : head (rev l) = last l.
Proof.
  induction l as [|x l _] using rev_ind; [done|].
  by rewrite rev_app_distr, last_snoc.
Qed.

Lemma trim_fixed dialect s :
  (forall ch, head s = Some ch -> is_trim_char dialect ch = false) ->
  (forall ch, last s = Some ch -> is_trim_char dialect ch = false) ->
  trim dialect s = s.
Proof.
  intros Hh Hl. unfold trim, ltrim, rtrim.
  destruct (trim_characters_ dialect); [done|].
  rewrite (erase_leading_fixed dialect (rev s)).
  - rewrite rev_involutive. by apply erase_leading_fixed.
  - intros ch. rewrite head_rev. apply Hl.
Qed.

(** [trim] strips both ends and nothing else: the string is a run of trim
    characters, then the trimmed string, then a run of trim characters; the
    trimmed string neither starts nor ends with a trim character; and so
    trimming twice is trimming once. *)
Theorem trim_strips_both_ends dialect s :
  (exists pre post,
     s = pre ++ trim dialect s ++ post
     /\ Forall (fun ch => is_trim_char dialect ch = true) pre
     /\ Forall (fun ch => is_trim_char dialect ch = true) post)
  /\ (forall ch, head (trim dialect s) = Some ch ->
        is_trim_char dialect ch = false)
  /\ (forall ch, last (trim dialect s) = Some ch ->
        is_trim_char dialect ch = false)
  /\ trim dialect (trim dialect s) = trim dialect s.
Proof.
  destruct (trim_spec dialect s) as (pre & post & Hs & Hpre & Hpost & Hh & Hl).
  split_and!; [|done|done|].
  - by exists pre, post.
  - by apply trim_fixed.
Qed.

(** A trimmed string holds only characters of the string. *)
Lemma trim_subseteq dialect s ch : ch ∈ trim dialect s -> ch ∈ s.
Proof.
  destruct (trim_spec dialect s) as (pre & post & Hs & _).
  intros Hin. rewrite Hs. set_solver.
Qed.

(** ** Fields without the delimiter *)

Section DelimiterFree.
Variable dialect : Dialect.
Variable c : ascii.
Variable line : str.
Hypothesis single : delimiter_ dialect = [c].
Hypothesis unquoted : quote_character_ dialect ∉ line.

Lemma split_body_delimiter_free st :
  i st < length line ->
  delimiter_free c st ->
  delimiter_free c (split_body dialect line st).
Proof.
  intros Hi (Hq & Hsub & Hres).
  pose proof (unquoted_char dialect line unquoted) as Hnq.
  unfold split_body. rewrite single. cbn [delimiter_loop].
  destruct (Ascii.eqb_spec (char_at line (i st)) c) as [Hc|Hc]; cbn [negb].
  - rewrite Hq. cbn [Nat.even].
    destruct (Nat.ltb_spec (S (i st)) (length line)) as [Hlt|Hlt]; cbn [andb].
    + destruct (_ && _); cbn [i sub_result quotes_encountered result];
        rewrite Hnq by lia; cbn [andb]; (split_and!; [done|set_solver|]);
        (apply Forall_app; split; [done|]); apply Forall_singleton;
        intros Hin; by apply trim_subseteq in Hin.
    + cbn [i sub_result quotes_encountered result].
      rewrite Hnq by lia. cbn [andb]. split_and!; [done|set_solver|].
      apply Forall_app; split; [done|]. apply Forall_singleton.
      intros Hin. by apply trim_subseteq in Hin.
  - cbn [i sub_result quotes_encountered result].
    rewrite Hnq by lia. cbn [andb]. split_and!; [done| |done].
    set_solver.
Qed.

Lemma split_loop_delimiter_free fuel st st' :
  delimiter_free c st ->
  split_loop dialect line fuel st = Some st' ->
  delimiter_free c st'.
Proof.
  revert st; induction fuel as [|fuel IH]; intros st Hfree; [done|].
  cbn [split_loop].
  destruct (Nat.ltb_spec (i st) (length line)) as [Hi|Hi].
  - apply IH. by apply split_body_delimiter_free.
  - by intros [= <-].
Qed.

End DelimiterFree.

(** For a line without the quote character and a one-character delimiter,
    with skip_initial_space on or off, no field that [split] returns
    contains the delimiter character. *)
Theorem split_fields_exclude_delimiter dialect c line fields :
  delimiter_ dialect = [c] ->
  quote_character_ dialect ∉ line ->
  split dialect line = Some fields ->
  Forall (fun field => c ∉ field) fields.
Proof.
  intros Hd Hq. unfold split.
  destruct (split_loop _ _ _ _) as [st'|] eqn:Hl; [|done].
  intros [= <-].
  apply (split_loop_delimiter_free dialect c line Hd Hq) in Hl
    as (_ & Hsub & Hres).
  - unfold split_finish. destruct (sub_result st') eqn:Hs; [done|].
    apply Forall_app; split; [done|]. apply Forall_singleton.
    intros Hin. by apply trim_subseteq in Hin.
  - split_and!; simpl; [done|set_solver|done].
Qed.

Lemma split_fields_exclude_delimiter_witness :
  Forall (fun field => ","%char ∉ field) [lit "a"; lit "b"; lit "c"].
Proof.
  apply (split_fields_exclude_delimiter skipping_dialect ","%char
           (lit "a, b,c")).
  - reflexivity.
  - apply not_elem_of_by_eqb. reflexivity.
  - vm_compute. reflexivity.
Defined.

(** ** A field between quotes *)

Lemma split_loop_exit dialect line fuel st :
  length line <= i st ->
  split_loop dialect line (S fuel) st = Some st.
Proof.
  intros Hi. cbn [split_loop].
  destruct (Nat.ltb_spec (i st) (length line)); [lia|done].
Qed.

Lemma take_S_char_at (s : str) k :
  k < length s -> take (S k) s = take k s ++ [char_at s k].
Proof.
  intros Hk. apply lookup_lt_is_Some in Hk as [ch Hl].
  rewrite (take_S_r _ _ _ Hl). unfold char_at. by rewrite nth_lookup, Hl.
Qed.

Section QuotedField.
Variable dialect : Dialect.
Variable c : ascii.
Variable body : str.
Variable line : str.
Hypothesis single : delimiter_ dialect = [c].
Hypothesis distinct : c <> quote_character_ dialect.
Hypothesis inner : quote_character_ dialect ∉ body.
Hypothesis quoted :
  line = quote_character_ dialect :: body ++ [quote_character_ dialect].

Lemma quoted_length : length line = S (S (length body)).
Proof. rewrite quoted. simpl. rewrite length_app. simpl. lia. Qed.

Lemma quoted_closing :
  char_at line (S (length body)) = quote_character_ dialect.
Proof.
  rewrite quoted. unfold char_at. cbn [nth].
  rewrite nth_lookup, lookup_app_r, Nat.sub_diag by lia. done.
Qed.

Lemma quoted_inner k :
  1 <= k <= length body ->
  Ascii.eqb (char_at line k) (quote_character_ dialect) = false.
Proof.
  intros Hk. apply Ascii.eqb_neq. intros He. apply inner.
  destruct k as [|k]; [lia|].
  rewrite quoted in He. unfold char_at in He. cbn [nth] in He.
  rewrite nth_lookup, lookup_app_l in He by lia.
  destruct (body !! k) as [ch|] eqn:Hl.
  - simpl in He. subst. by apply list_elem_of_lookup_2 in Hl.
  - apply lookup_ge_None in Hl. lia.
Qed.

Lemma quoted_loop fuel k :
  1 <= k <= S (length body) ->
  length line - k < fuel ->
  exists st',
    split_loop dialect line fuel (mkScan k (take k line) 1 []) = Some st'
    /\ result st' = []
    /\ sub_result st' = line.
Proof.
  pose proof quoted_length as Hlen.
  revert k; induction fuel as [|fuel IH]; intros k Hk Hf; [lia|].
  cbn [split_loop i].
  destruct (Nat.ltb_spec k (length line)) as [_|]; [|lia].
  unfold split_body. rewrite single. cbn [delimiter_loop i].
  destruct (Ascii.eqb_spec (char_at line k) c) as [Hc|Hc]; cbn [negb].
  - (* a delimiter inside the quotes *)
    assert (k <> S (length body)) as Hk'.
    { intros ->. rewrite quoted_closing in Hc. by apply distinct. }
    cbn [quotes_encountered Nat.even Nat.odd negb i sub_result result].
    rewrite <- take_S_char_at, <- take_S_char_at by lia.
    destruct (decide (S k = S (length body))) as [Hlast|Hlast].
    + rewrite Hlast, quoted_closing, Ascii.eqb_refl.
      replace (S (S (length body))) with (length line) by lia.
      rewrite firstn_all.
      replace (char_at line (length line - 2)) with c
        by (rewrite <- Hc; f_equal; lia).
      replace (Ascii.eqb c (quote_character_ dialect)) with false
        by (symmetry; by apply Ascii.eqb_neq).
      rewrite !andb_false_r.
      destruct fuel as [|fuel]; [lia|].
      rewrite split_loop_exit by (simpl; lia). eauto.
    + rewrite quoted_inner by lia. cbn [andb].
      apply IH; lia.
  - cbn [i sub_result quotes_encountered result].
    rewrite <- take_S_char_at by lia.
    destruct (decide (k = S (length body))) as [Hlast|Hlast].
    + subst k. rewrite quoted_closing, Ascii.eqb_refl.
      replace (S (S (length body))) with (length line) by lia.
      rewrite firstn_all.
      destruct fuel as [|fuel]; [lia|].
      rewrite split_loop_exit by (simpl; lia). eauto.
    + rewrite quoted_inner by lia. cbn [andb].
      apply IH; lia.
Qed.

End QuotedField.

(** A field between quotes is returned whole: for a one-character delimiter
    other than the quote character and a line made of a quote, a body
    without quotes and a closing quote, [split] returns the single field that
    is the trimmed line, however many delimiters the body holds. *)
Theorem split_quoted_field_whole dialect c body :
  delimiter_ dialect = [c] ->
  c <> quote_character_ dialect ->
  quote_character_ dialect ∉ body ->
  let line := quote_character_ dialect :: body ++ [quote_character_ dialect] in
  split dialect line = Some [trim dialect line].
Proof.
  intros Hd Hcq Hb line. unfold split.
  assert (length line = S (S (length body))) as Hlen
    by (by apply (quoted_length dialect body line)).
  cbn [split_loop split_init i].
  destruct (Nat.ltb_spec 0 (length line)) as [_|]; [|lia].
  unfold split_body at 1. rewrite Hd. cbn [delimiter_loop split_init i].
  replace (char_at line 0) with (quote_character_ dialect) by done.
  replace (Ascii.eqb (quote_character_ dialect) c) with false
    by (symmetry; apply Ascii.eqb_neq; congruence).
  cbn [negb sub_result quotes_encountered result i app length].
  rewrite Ascii.eqb_refl. cbn [andb Nat.leb]. rewrite andb_false_r.
  destruct (quoted_loop dialect c body line Hd Hcq Hb eq_refl
              (length line) 1) as (st' & Hl & Hr & Hs); [lia|lia|].
  unfold split_init. cbn [i sub_result quotes_encountered result andb app].
  change [char_at line 0] with (take 1 line).
  rewrite Hl. simpl. unfold split_finish. rewrite Hr, Hs. done.
Qed.

Lemma split_quoted_field_whole_witness :
  split comma_dialect (double_quote_mark :: lit "a,b,,c" ++ [double_quote_mark])
  = Some [double_quote_mark :: lit "a,b,,c" ++ [double_quote_mark]].
Proof.
  apply (split_quoted_field_whole comma_dialect ","%char (lit "a,b,,c")).
  - reflexivity.
  - discriminate.
  - apply not_elem_of_by_eqb. reflexivity.
Defined.

(** * Further properties of the dialect registry *)

(** After [configure_dialect] of a name, [use_dialect] of that name returns
    normally and the name is the active dialect, whether the name was
    registered before or not. *)
Theorem use_dialect_after_configure fresh dialect_name r :
  let r' := (configure_dialect fresh dialect_name r).1 in
  use_dialect dialect_name r' = (with_current_dialect r' dialect_name, Returns tt)
  /\ is_Some (dialects_ r' !! dialect_name).
Proof.
  intros r'.
  assert (is_Some (dialects_ r' !! dialect_name)) as Hs.
  { unfold r', configure_dialect.
    destruct (dialects_ r !! dialect_name) as [d|] eqn:Hd; simpl.
    - by rewrite Hd.
    - by rewrite lookup_insert_eq. }
  split; [|done]. destruct Hs as [d Hd].
  unfold use_dialect. cbn [with_current_dialect dialects_]. by rewrite Hd.
Qed.

(** [configure_dialect] never removes or replaces a registered dialect, and
    calling it a second time with the same name changes nothing and returns
    the same dialect. *)
Theorem configure_dialect_keeps_registry fresh dialect_name r :
  (forall name d,
     dialects_ r !! name = Some d ->
     dialects_ (configure_dialect fresh dialect_name r).1 !! name = Some d)
  /\ configure_dialect fresh dialect_name
       (configure_dialect fresh dialect_name r).1
     = configure_dialect fresh dialect_name r.
Proof.
  unfold configure_dialect.
  destruct (dialects_ r !! dialect_name) as [d0|] eqn:Hd; simpl.
  - split; [done|]. by rewrite Hd.
  - split.
    + intros name d Hn. rewrite lookup_insert_ne; [done|]. congruence.
    + by rewrite lookup_insert_eq.
Qed.

(** [list_dialects] lists every registered name once and nothing else; a
    new Reader lists the three built-in names, and [configure_dialect] of a
    name that is not registered adds that one name. *)
Theorem list_dialects_registered fresh dialect_name r :
  NoDup (list_dialects r)
  /\ (forall name, name ∈ list_dialects r <-> is_Some (dialects_ r !! name))
  /\ list_dialects (Reader_new fresh)
     ≡ₚ [lit "unix"; lit "excel"; lit "excel_tab"]
  /\ (dialects_ r !! dialect_name = None ->
      list_dialects (configure_dialect fresh dialect_name r).1
      ≡ₚ dialect_name :: list_dialects r).
Proof.
  unfold list_dialects. split_and!.
  - apply NoDup_fst_map_to_list.
  - intros name. rewrite list_elem_of_fmap. split.
    + intros ([n d] & -> & Hin). apply elem_of_map_to_list in Hin. eauto.
    + intros [d Hd]. exists (name, d). split; [done|].
      by apply elem_of_map_to_list.
  - cbn [Reader_new dialects_].
    rewrite !map_to_list_insert, map_to_list_empty; [| |vm_compute; reflexivity..].
    + simpl. apply NoDup_Permutation; [| |set_solver].
      * repeat (constructor; [set_solver|]). constructor.
      * repeat (constructor; [set_solver|]). constructor.
    + done.
  - intros Hn. unfold configure_dialect. rewrite Hn. cbn [fst dialects_
      with_current_dialect with_dialects].
    by rewrite map_to_list_insert.
Qed.

(** [get_dialect] returns what [configure_dialect] returned for the name;
    for a name that is not registered its behaviour is undefined. *)
Theorem get_dialect_after_configure fresh dialect_name r :
  get_dialect dialect_name (configure_dialect fresh dialect_name r).1
  = Returns (configure_dialect fresh dialect_name r).2
  /\ (dialects_ r !! dialect_name = None ->
      get_dialect dialect_name r = Undefined).
Proof.
  unfold get_dialect, configure_dialect. split.
  - destruct (dialects_ r !! dialect_name) as [d|] eqn:Hd; simpl.
    + by rewrite Hd.
    + by rewrite lookup_insert_eq.
  - by intros ->.
Qed.

(** * Further properties of read *)

Lemma take_line_consumes ch s : 1 <= (take_line (ch :: s)).2 <= S (length s).
Proof.
  revert ch; induction s as [|ch' s IH]; intros ch; simpl.
  - destruct (Ascii.eqb ch newline); simpl; lia.
  - destruct (Ascii.eqb ch newline); [simpl; lia|].
    specialize (IH ch'). simpl in IH.
    destruct (Ascii.eqb ch' newline); simpl in *; [lia|].
    destruct (take_line s) as [l k]. simpl in *. lia.
Qed.

(** A successful [getline] moves the read position forward and not beyond
    the end of the file. *)
Lemma getline_advances stream line stream' :
  getline stream = Some (line, stream') ->
  content stream' = content stream
  /\ offset stream < offset stream' <= length (content stream).
Proof.
  unfold getline.
  destruct (drop (offset stream) (content stream)) as [|ch rest] eqn:Hd;
    [done|].
  pose proof (take_line_consumes ch rest) as Hk.
  destruct (take_line (ch :: rest)) as [l k]. simpl in Hk.
  intros [= <- <-]. cbn [content offset]. split; [done|].
  apply (f_equal length) in Hd. rewrite length_drop in Hd. simpl in Hd. lia.
Qed.

Lemma prescan_total fuel stream count :
  length (content stream) - offset stream < fuel ->
  is_Some (prescan fuel stream count).
Proof.
  revert stream count; induction fuel as [|fuel IH]; intros stream count Hf;
    [lia|].
  cbn [prescan]. destruct (getline stream) as [[line stream']|] eqn:Hg;
    [|eauto].
  apply getline_advances in Hg as [Hc Ho]. apply IH. rewrite Hc. lia.
Qed.

(** How [read] ends.  The pre-scan loop ends on every content, since every
    successful [getline] moves the stream forward, and the call then ends
    in exactly one of four ways: it throws when the file cannot be opened;
    it dereferences a null dialect when the active dialect is not
    registered; it calls [std::terminate] when this Reader has started a
    reading thread before; otherwise it returns. *)
Theorem read_ends_in_one_of_four_ways fs filename r :
  exists r',
    read fs filename r
    = Some (r',
            match fs filename with
            | None => Throws (lit "error: Failed to open " ++ filename)
            | Some _ =>
                match dialects_ r !! current_dialect_ r with
                | None => Undefined
                | Some _ =>
                    if reading_thread_started_ r then Terminates
                    else Returns tt
                end
            end).
Proof.
  unfold read. destruct (fs filename) as [data|]; [|eauto].
  cbn [stream_ with_file expected_number_of_rows_].
  destruct (prescan_total (S (length data)) (mkStream data 0)
              (expected_number_of_rows_ r)) as [[s n] ->]; [simpl; lia|].
  cbn [dialects_ current_dialect_ with_file].
  destruct (dialects_ r !! current_dialect_ r); [|eauto].
  cbv zeta. destruct (reading_thread_started_ r); eauto.
Qed.

(** When the active dialect is not registered, as after a [use_dialect]
    that threw, [read] of a file that can be opened dereferences a null
    dialect. *)
Theorem read_after_failed_use_dialect fs filename data dialect_name r :
  dialects_ r !! dialect_name = None ->
  fs filename = Some data ->
  exists r',
    read fs filename (use_dialect dialect_name r).1 = Some (r', Undefined).
Proof.
  intros Hn Hfs. unfold read. rewrite Hfs.
  cbn [stream_ with_file expected_number_of_rows_].
  destruct (prescan_total (S (length data)) (mkStream data 0)
              (expected_number_of_rows_ (use_dialect dialect_name r).1))
    as [[s n] ->]; [simpl; lia|].
  assert (dialects_ (use_dialect dialect_name r).1 = dialects_ r
          /\ current_dialect_ (use_dialect dialect_name r).1 = dialect_name)
    as [HD Hc].
  { unfold use_dialect. simpl. by destruct (dialects_ r !! dialect_name). }
  cbn [dialects_ current_dialect_ with_file]. rewrite HD, Hc, Hn. eauto.
Qed.

Lemma read_after_failed_use_dialect_witness :
  exists r',
    read one_row_fs (lit "one.csv")
         (use_dialect (lit "mine") (Reader_new comma_dialect)).1
    = Some (r', Undefined).
Proof.
  apply (read_after_failed_use_dialect one_row_fs (lit "one.csv")
           one_row_file (lit "mine") (Reader_new comma_dialect)).
  - vm_compute. reflexivity.
  - reflexivity.
Defined.

(** A [read] that fails to open its file does not disturb a later [read]:
    the later call does what it would have done on the Reader as it was. *)
Theorem read_after_failed_open fs missing filename r :
  fs missing = None ->
  exists r',
    read fs missing r = Some (r', Throws (lit "error: Failed to open " ++ missing))
    /\ expected_number_of_rows_ r' = expected_number_of_rows_ r
    /\ reading_thread_started_ r' = reading_thread_started_ r
    /\ read fs filename r' = read fs filename r.
Proof.
  intros Hm. unfold read at 1. rewrite Hm. eexists. split; [done|].
  split; [done|]. split; [done|].
  unfold read. destruct (fs filename) as [data|]; done.
Qed.

Lemma read_after_failed_open_witness :
  exists r',
    read one_row_fs (lit "none.csv") (Reader_new comma_dialect)
    = Some (r', Throws (lit "error: Failed to open none.csv"))
    /\ read one_row_fs (lit "one.csv") r'
       = read one_row_fs (lit "one.csv") (Reader_new comma_dialect).
Proof.
  destruct (read_after_failed_open one_row_fs (lit "none.csv") (lit "one.csv")
              (Reader_new comma_dialect)) as (r' & H1 & _ & _ & H2).
  - reflexivity.
  - exists r'. split; [exact H1|exact H2].
Defined.

Lemma take_line_no_newline s :
  newline ∉ s -> take_line s = (s, length s).
Proof.
  induction s as [|ch s IH]; intros Hn; [done|]. simpl.
  destruct (Ascii.eqb_spec ch newline) as [->|_]; [set_solver|].
  rewrite IH by set_solver. done.
Qed.

(** The pre-scan over terminated lines followed by a last line without
    newline: the last line counts when it is not empty. *)
Lemma prescan_lines_and_tail lines tail :
  Forall (fun line => newline ∉ line) lines ->
  newline ∉ tail ->
  forall pre count fuel,
    S (length lines) < fuel ->
    let total := N.of_nat (length lines
                           + match tail with [] => 0 | _ :: _ => 1 end) in
    (count + total < 2 ^ 64)%N ->
    exists stream,
      prescan fuel (mkStream (pre ++ file_of_lines lines ++ tail) (length pre))
              count
      = Some (stream, (count + total)%N).
Proof.
  intros Hlines Htail. induction Hlines as [|line lines Hn _ IH];
    intros pre count fuel Hf total Hc;
    (destruct fuel as [|fuel]; [simpl in Hf; lia|]); cbn [prescan].
  - unfold file_of_lines. cbn [map concat app].
    destruct tail as [|ch tail'] eqn:Ht.
    + rewrite app_nil_r, getline_end. subst total. simpl.
      rewrite N.add_0_r. eauto.
    + unfold getline. cbn [offset content]. rewrite drop_app_length.
      rewrite <- Ht in *. rewrite take_line_no_newline by done.
      destruct fuel as [|fuel]; [simpl in Hf; lia|]. cbn [prescan].
      replace (length pre + length tail) with (length (pre ++ tail))
        by (by rewrite length_app).
      rewrite getline_end. subst total. simpl in *.
      rewrite size_t_wrap_small by lia. eauto.
  - unfold file_of_lines. cbn [map concat]. fold (file_of_lines lines).
    rewrite <- (app_assoc line [newline]), <- app_assoc. cbn [app].
    rewrite getline_line by done.
    replace (pre ++ line ++ newline :: file_of_lines lines ++ tail)
      with ((pre ++ line ++ [newline]) ++ file_of_lines lines ++ tail)
      by (by rewrite <- !app_assoc).
    replace (length pre + S (length line))
      with (length (pre ++ line ++ [newline]))
      by (rewrite !length_app; simpl; lia).
    subst total. cbn [length] in Hf, Hc.
    rewrite size_t_wrap_small by lia.
    destruct (IH (pre ++ line ++ [newline]) (count + 1)%N fuel)
      as [stream Hs]; [lia|cbv zeta; lia|].
    exists stream. rewrite Hs. f_equal. f_equal. cbn [length]. lia.
Qed.

Lemma prescan_fuel_mono fuel fuel' stream count res :
  prescan fuel stream count = Some res ->
  fuel <= fuel' ->
  prescan fuel' stream count = Some res.
Proof.
  revert fuel' stream count; induction fuel as [|fuel IH];
    intros fuel' stream count Hp Hle; [done|].
  destruct fuel' as [|fuel']; [lia|]. cbn [prescan] in *.
  destruct (getline stream) as [[line stream']|]; [|done].
  apply IH; [done|lia].
Qed.

(** What [read] leaves in [expected_number_of_rows_] on a Reader that has
    not started a reading thread before: the value it found there (zero
    after construction) plus the number of lines of the file (a last line
    without newline counts when it is not empty), less one when the active
    dialect has a header and that sum is not zero.  The call returns with
    the stream rewound and the reading thread started. *)
Theorem read_expected_number_of_rows (fs : filesystem) filename r d lines tail :
  reading_thread_started_ r = false ->
  fs filename = Some (file_of_lines lines ++ tail) ->
  Forall (fun line => newline ∉ line) lines ->
  newline ∉ tail ->
  dialects_ r !! current_dialect_ r = Some d ->
  let total := N.of_nat (length lines
                         + match tail with [] => 0 | _ :: _ => 1 end) in
  (expected_number_of_rows_ r + total < 2 ^ 64)%N ->
  exists r',
    read fs filename r = Some (r', Returns tt)
    /\ expected_number_of_rows_ r'
       = (expected_number_of_rows_ r + total
          - if header_ d then 1 else 0)%N
    /\ stream_ r' = mkStream (file_of_lines lines ++ tail) 0
    /\ reading_thread_started_ r' = true.
Proof.
  intros Hflag Hfs Hlines Htail Hd total Hsize. unfold read.
  rewrite Hfs, Hflag.
  cbn [stream_ with_file expected_number_of_rows_].
  set (data := file_of_lines lines ++ tail).
  destruct (prescan_total (S (length data)) (mkStream data 0)
              (expected_number_of_rows_ r)) as [[s n] Hp]; [simpl; lia|].
  destruct (prescan_lines_and_tail lines tail Hlines Htail []
              (expected_number_of_rows_ r)
              (S (length data) + S (S (length lines))))
    as [s' Hp']; [lia|done|].
  cbn [app length] in Hp'. fold data in Hp'.
  apply (prescan_fuel_mono _ (S (length data) + S (S (length lines)))) in Hp
    as Hp''; [|lia].
  rewrite Hp' in Hp''. injection Hp'' as <- <-. rewrite Hp.
  cbn [dialects_ current_dialect_ with_file]. rewrite Hd.
  eexists. split; [done|]. split; [|done].
  cbn [expected_number_of_rows_ with_reading_thread_started with_stream
       with_file with_expected_number_of_rows].
  fold total. destruct (header_ d); cbn [andb].
  - destruct (N.ltb_spec 0 (expected_number_of_rows_ r + total)); lia.
  - lia.
Qed.

Lemma read_expected_number_of_rows_witness :
  exists r',
    read (fun _ => Some (lit "a" ++ [newline] ++ lit "1")) (lit "f")
         (Reader_new comma_dialect)
    = Some (r', Returns tt)
    /\ expected_number_of_rows_ r' = 1%N.
Proof.
  destruct (read_expected_number_of_rows
              (fun _ => Some (lit "a" ++ [newline] ++ lit "1")) (lit "f")
              (Reader_new comma_dialect) comma_dialect [lit "a"] (lit "1"))
    as (r' & Hr & He & _).
  - reflexivity.
  - reflexivity.
  - constructor; [|constructor]. apply not_elem_of_by_eqb. reflexivity.
  - apply not_elem_of_by_eqb. reflexivity.
  - vm_compute. reflexivity.
  - vm_compute. reflexivity.
  - exists r'. split; [exact Hr|]. rewrite He. vm_compute. reflexivity.
Defined.

(** A Reader reads once.  After a [read] that returned, a second [read] of
    a file that can be opened calls [std::terminate]: the first call left
    [reading_thread_] joinable, and the second assigns to it. *)
Theorem read_twice_terminates (fs fs' : filesystem) filename filename' data
    r r1 :
  read fs filename r = Some (r1, Returns tt) ->
  fs' filename' = Some data ->
  exists r2, read fs' filename' r1 = Some (r2, Terminates).
Proof.
  intros Hfirst Hfs'.
  assert (reading_thread_started_ r1 = true
          /\ is_Some (dialects_ r1 !! current_dialect_ r1)) as [Hflag [d Hd]].
  { unfold read in Hfirst. destruct (fs filename) as [data0|]; [|done].
    destruct (prescan _ _ _) as [[s n]|]; [|done].
    cbn [dialects_ current_dialect_ with_file] in Hfirst.
    destruct (dialects_ r !! current_dialect_ r) as [d|] eqn:Hd; [|done].
    cbv zeta in Hfirst. destruct (reading_thread_started_ r); [done|].
    injection Hfirst as <-. split; [done|]. exists d. exact Hd. }
  unfold read. rewrite Hfs'.
  cbn [stream_ with_file expected_number_of_rows_].
  destruct (prescan_total (S (length data)) (mkStream data 0)
              (expected_number_of_rows_ r1)) as [[s n] ->]; [simpl; lia|].
  cbn [dialects_ current_dialect_ with_file]. rewrite Hd, Hflag. eauto.
Qed.

Lemma read_twice_terminates_witness :
  exists r2,
    read one_row_fs (lit "one.csv")
         (after_read one_row_fs (lit "one.csv") (Reader_new comma_dialect))
    = Some (r2, Terminates).
Proof.
  apply (read_twice_terminates one_row_fs one_row_fs (lit "one.csv")
           (lit "one.csv") one_row_file (Reader_new comma_dialect)).
  - vm_compute. reflexivity.
  - reflexivity.
Defined.

(** * Further properties of the polling interface *)

(** [ready] is false while no processed-row count is published, and each
    call takes one published count off the queue whatever it answers: with
    at most one count published, a second call in a row answers false. *)
Theorem ready_consumes_published_count r :
  (number_of_rows_processed_ r = [] -> (ready r).2 = false)
  /\ number_of_rows_processed_ (ready r).1
     = tail (number_of_rows_processed_ r)
  /\ (length (number_of_rows_processed_ r) <= 1 ->
      (ready (ready r).1).2 = false).
Proof.
  assert (forall r', number_of_rows_processed_ r' = [] -> (ready r').2 = false)
    as Hempty.
  { intros r' Hq. unfold ready. rewrite Hq. cbn [try_dequeue].
    destruct (try_dequeue _ _) as [[qi ready_index] b]. simpl.
    destruct (ready_index <? expected_number_of_rows_ r')%N; simpl; [|done].
    apply N.ltb_ge. lia. }
  pose proof (ready_frame r) as HF. cbv zeta in HF.
  destruct HF as (_ & Htail & _).
  split; [apply Hempty|]. split; [done|].
  intros Hlen. apply Hempty. rewrite Htail.
  destruct (number_of_rows_processed_ r) as [|n [|m q]]; simpl in *; [done..|lia].
Qed.

(** [done] reads the index cell without emptying it: while the cell holds at
    most one index, a second [done] finds the Reader exactly as the first
    left it and gives the same answer. *)
Theorem done_is_idempotent r :
  length (row_iterator_queue_ r) <= 1 ->
  done (done r).1 = done r.
Proof.
  intros Hlen.
  assert (done r
          = if processing_thread_started_ r
            then
              let d := match row_iterator_queue_ r with
                       | x :: _ => x
                       | [] => done_index_ r
                       end in
              (with_row_iterator_queue (with_done_index r d)
                 (tail (row_iterator_queue_ r) ++ [d]),
               (expected_number_of_rows_ r =? 0)%N
               || (size_t_wrap (d + 1) =? expected_number_of_rows_ r)%N)
            else (r, false)) as Hdone.
  { unfold done, try_dequeue, enqueue.
    by destruct (processing_thread_started_ r), (row_iterator_queue_ r). }
  rewrite Hdone.
  destruct (processing_thread_started_ r) eqn:Hs; cbn [fst].
  - unfold done. cbn [processing_thread_started_ with_row_iterator_queue
      with_done_index row_iterator_queue_ done_index_ expected_number_of_rows_].
    rewrite Hs.
    destruct (row_iterator_queue_ r) as [|x [|y q]]; simpl in Hlen; [| |lia];
      reflexivity.
  - unfold done. by rewrite Hs.
Qed.

Lemma done_is_idempotent_witness :
  done (done (with_processing_thread_started (Reader_new comma_dialect) true)).1
  = done (with_processing_thread_started (Reader_new comma_dialect) true).
Proof.
  apply (done_is_idempotent
           (with_processing_thread_started (Reader_new comma_dialect) true)).
  simpl. lia.
Defined.

(** ** rows() on a pipeline that has finished *)

(** The three calls of one round of [rows()], on the view. *)
Lemma rows_step_done s E q d k rs ps acc :
  poll_view s = (true, E, q, d, k, rs, ps, rows_at_done acc) ->
  let x := match q with x :: _ => x | [] => d end in
  poll_view (exec act_rows s)
  = (true, E, tail q ++ [x], x, k, rs, ps,
     if (E =? 0)%N || (size_t_wrap (x + 1) =? E)%N
     then rows_returned acc else rows_at_ready acc).
Proof.
  destruct s as [r rd p c]. unfold poll_view. cbn [reader client].
  intros [= Hs HE Hq Hd Hk Hrs Hps ->]. cbn [exec rows_step reader client].
  unfold done, try_dequeue, enqueue. rewrite Hs, Hq, Hd, HE.
  destruct q; simpl; congruence.
Qed.

Lemma rows_step_ready s f E x q d k rs ps acc :
  poll_view s = (f, E, x :: q, d, k, rs, ps, rows_at_ready acc) ->
  poll_view (exec act_rows s)
  = (f, E, q, d, k, rs, tail ps,
     if (x <? E)%N && (x <? hd 0%N ps)%N
     then rows_at_next_row acc else rows_at_done acc).
Proof.
  destruct s as [r rd p c]. unfold poll_view. cbn [reader client].
  intros [= Hs HE Hq Hd Hk Hrs Hps ->]. cbn [exec rows_step reader client].
  unfold ready, try_dequeue. rewrite Hq, Hps, HE.
  destruct ps; simpl; congruence.
Qed.

Lemma rows_step_next_row s f E q d k rs ps acc :
  poll_view s = (f, E, q, d, k, rs, ps, rows_at_next_row acc) ->
  poll_view (exec act_rows s)
  = (f, E, q ++ [k], d, size_t_wrap (k + 1), tail rs, ps,
     rows_at_done (acc ++ [hd ∅ rs])).
Proof.
  destruct s as [r rd p c]. unfold poll_view. cbn [reader client].
  intros [= Hs HE Hq Hd Hk Hrs Hps ->]. cbn [exec rows_step reader client].
  unfold next_row, try_dequeue, enqueue.
  cbn [rows_ with_next_index with_row_iterator_queue next_index_]. rewrite Hrs.
  destruct rs; simpl; congruence.
Qed.

Lemma rows_claimed_view rows j s :
  rows_claimed rows j s <->
  poll_view s
  = (true, N.of_nat (length rows), [N.of_nat j], done_index_ (reader s),
     N.of_nat (S j), drop (S j) rows,
     map N.of_nat (seq (S (S j)) (length rows - S j)),
     rows_at_done (take (S j) rows)).
Proof.
  unfold rows_claimed, poll_view. split.
  - intros (-> & -> & -> & -> & -> & -> & ->). done.
  - intros [= -> -> -> -> -> -> ->]. done.
Qed.

Lemma rows_claimed_of_view rows j s d k :
  poll_view s
  = (true, N.of_nat (length rows), [N.of_nat j], d, k, drop (S j) rows,
     map N.of_nat (seq (S (S j)) (length rows - S j)),
     rows_at_done (take (S j) rows)) ->
  k = N.of_nat (S j) ->
  rows_claimed rows j s.
Proof.
  unfold rows_claimed, poll_view.
  intros [= H1 H2 H3 _ H5 H6 H7 H8] ->. split_and!; done.
Qed.

Lemma rows_claim_next rows j s :
  S j < length rows ->
  (N.of_nat (length rows) < 2 ^ 64)%N ->
  rows_claimed rows j s ->
  rows_claimed rows (S j) (run (repeat act_rows 3) s).
Proof.
  intros Hj Hsize Hcl. apply rows_claimed_view in Hcl.
  destruct (lookup_lt_is_Some_2 rows (S j) Hj) as [row Hrow].
  cbn [repeat run foldl].
  apply rows_step_done in Hcl. cbv zeta in Hcl. cbn [tail app] in Hcl.
  replace (N.of_nat (length rows) =? 0)%N with false in Hcl
    by (symmetry; apply N.eqb_neq; lia).
  replace (size_t_wrap (N.of_nat j + 1) =? N.of_nat (length rows))%N
    with false in Hcl
    by (symmetry; apply N.eqb_neq; rewrite size_t_wrap_small; lia).
  cbn [orb] in Hcl.
  apply rows_step_ready in Hcl.
  replace (length rows - S j) with (S (length rows - S (S j))) in Hcl by lia.
  cbn [seq map hd tail] in Hcl.
  replace (N.of_nat j <? N.of_nat (length rows))%N with true in Hcl
    by (symmetry; apply N.ltb_lt; lia).
  replace (N.of_nat j <? N.of_nat (S (S j)))%N with true in Hcl
    by (symmetry; apply N.ltb_lt; lia).
  cbn [andb] in Hcl.
  apply rows_step_next_row in Hcl.
  rewrite (drop_S _ _ _ Hrow) in Hcl. cbn [hd tail app] in Hcl.
  rewrite <- (take_S_r _ _ _ Hrow) in Hcl.
  rewrite size_t_wrap_small in Hcl by lia.
  apply (rows_claimed_of_view _ _ _ _ _ Hcl). lia.
Qed.

Lemma rows_claim_first rows s :
  2 <= length rows ->
  (N.of_nat (length rows) < 2 ^ 64)%N ->
  poll_view s
  = (true, N.of_nat (length rows), [], 0%N, 0%N, rows,
     map N.of_nat (seq 1 (length rows)), rows_at_done []) ->
  rows_claimed rows 0 (run (repeat act_rows 3) s).
Proof.
  intros Hlen Hsize Hcl.
  cbn [repeat run foldl].
  apply rows_step_done in Hcl. cbv zeta in Hcl. cbn [tail app] in Hcl.
  replace (N.of_nat (length rows) =? 0)%N with false in Hcl
    by (symmetry; apply N.eqb_neq; lia).
  replace (size_t_wrap (0 + 1) =? N.of_nat (length rows))%N
    with false in Hcl
    by (symmetry; apply N.eqb_neq; rewrite size_t_wrap_small; lia).
  cbn [orb] in Hcl.
  apply rows_step_ready in Hcl.
  assert (seq 1 (length rows) = 1 :: seq 2 (length rows - 1)) as Hseq.
  { destruct (length rows) as [|n]; [lia|]. simpl. by rewrite Nat.sub_0_r. }
  rewrite Hseq in Hcl. cbn [map hd tail] in Hcl.
  replace (0 <? N.of_nat (length rows))%N with true in Hcl
    by (symmetry; apply N.ltb_lt; lia).
  replace (0 <? N.of_nat 1)%N with true in Hcl by done.
  cbn [andb] in Hcl.
  apply rows_step_next_row in Hcl.
  apply (rows_claimed_of_view _ _ _ 0%N (size_t_wrap (0 + 1))); [|done].
  rewrite Hcl. destruct rows as [|row rows']; [simpl in Hlen; lia|].
  reflexivity.
Qed.

Lemma rows_claim_last rows j s :
  S j = length rows ->
  (N.of_nat (length rows) < 2 ^ 64)%N ->
  rows_claimed rows j s ->
  client (exec act_rows s) = rows_returned rows.
Proof.
  intros Hj Hsize Hcl. apply rows_claimed_view in Hcl.
  apply rows_step_done in Hcl. cbv zeta in Hcl.
  replace (size_t_wrap (N.of_nat j + 1) =? N.of_nat (length rows))%N
    with true in Hcl
    by (symmetry; apply N.eqb_eq; rewrite size_t_wrap_small; lia).
  rewrite orb_true_r, Hj, firstn_all in Hcl.
  unfold poll_view in Hcl. by injection Hcl.
Qed.

Lemma run_repeat_add a n m s :
  run (repeat a (n + m)) s = run (repeat a m) (run (repeat a n) s).
Proof. by rewrite repeat_app, run_app. Qed.

Lemma rows_claim_many rows s j :
  2 <= length rows ->
  (N.of_nat (length rows) < 2 ^ 64)%N ->
  poll_view s
  = (true, N.of_nat (length rows), [], 0%N, 0%N, rows,
     map N.of_nat (seq 1 (length rows)), rows_at_done []) ->
  S j <= length rows ->
  rows_claimed rows j (run (repeat act_rows (3 * S j)) s).
Proof.
  intros Hlen Hsize Hv.
  induction j as [|j IH]; intros Hj.
  - by apply rows_claim_first.
  - replace (3 * S (S j)) with (3 * S j + 3) by lia.
    rewrite run_repeat_add. apply rows_claim_next; [lia|done|].
    apply IH. lia.
Qed.

(** Once the pipeline has finished with at least two rows, [rows()] returns
    all of them in order: from a Reader whose row queue holds the N >= 2
    assembled rows, whose published counts are 1..N and whose index cell is
    untouched, the loop of [rows()] returns exactly these rows after its
    3N+1 calls of [done], [ready] and [next_row]. *)
Theorem rows_drains_finished_pipeline rows s :
  2 <= length rows ->
  (N.of_nat (length rows) < 2 ^ 64)%N ->
  poll_view s
  = (true, N.of_nat (length rows), [], 0%N, 0%N, rows,
     map N.of_nat (seq 1 (length rows)), rows_at_done []) ->
  client (run (repeat act_rows (3 * length rows + 1)) s) = rows_returned rows.
Proof.
  intros Hlen Hsize Hv.
  rewrite run_repeat_add. cbn [repeat run foldl].
  destruct (length rows) as [|j] eqn:Hl; [lia|].
  apply (rows_claim_last rows j); [done|by rewrite Hl|].
  rewrite <- Hl in Hlen, Hsize, Hv. apply rows_claim_many; try done. lia.
Qed.

Lemma rows_drains_finished_pipeline_witness :
  let r := after_read two_row_fs (lit "two.csv") (Reader_new comma_dialect) in
  let s := run (repeat act_reading 9 ++ repeat act_processing 6
                ++ [act_call_rows]) (started r) in
  client (run (repeat act_rows 7) s)
  = rows_returned [ {[lit "a" := lit "1"; lit "b" := lit "2"]};
                    {[lit "a" := lit "3"; lit "b" := lit "4"]} ].
Proof.
  intros r s.
  apply (rows_drains_finished_pipeline
           [ {[lit "a" := lit "1"; lit "b" := lit "2"]};
             {[lit "a" := lit "3"; lit "b" := lit "4"]} ] s).
  - simpl. lia.
  - vm_compute. reflexivity.
  - vm_compute. reflexivity.
Defined.

(** * Further properties of the assembly *)

Lemma mod_add_small base j c :
  (base mod c = 0)%N -> (j < c)%N -> ((base + j) mod c = j)%N.
Proof.
  intros Hb Hj. rewrite N.Div0.add_mod, Hb, N.add_0_l, N.Div0.mod_mod.
  by apply N.mod_small.
Qed.

Lemma mod_add_whole base c :
  (base mod c = 0)%N -> ((base + c) mod c = 0)%N.
Proof.
  intros Hb.
  by rewrite N.Div0.add_mod, Hb, N.Div0.mod_same, N.add_0_l, N.Div0.mod_0_l.
Qed.

(** One iteration of [process_values] that finds a value, on the view. *)
Lemma process_step_value s H E v vs row rs ps l column_name :
  assembly_view s = (H, E, v :: vs, row, rs, ps, processing_loop l) ->
  number_of_rows l <> E ->
  cols_ l <> 0%N ->
  H !! N.to_nat (index l mod cols_ l) = Some column_name ->
  let row' := assign (ignore_columns l) row (column_name, v) in
  let index' := size_t_wrap (index l + 1) in
  let n' := size_t_wrap (number_of_rows l + 1) in
  assembly_view (exec act_processing s)
  = if negb (index' =? 0)%N && (index' mod cols_ l =? 0)%N
    then (H, E, vs, row', rs ++ [row'], ps ++ [n'],
          processing_loop (mkLocals index' (cols_ l) (ignore_columns l) n'))
    else (H, E, vs, row', rs, ps,
          processing_loop
            (mkLocals index' (cols_ l) (ignore_columns l) (number_of_rows l))).
Proof.
  destruct s as [r rd p c]. unfold assembly_view. cbn [reader processing].
  intros [= HH HE Hv Hrow Hrs Hps ->] Hn Hc Hcol.
  cbn [exec processing_step reader processing].
  unfold process_values_iteration.
  destruct (N.eqb_spec (number_of_rows l) (expected_number_of_rows_ r));
    [congruence|].
  rewrite Hv. destruct (N.eqb_spec (cols_ l) 0); [done|].
  cbn [headers_ with_values]. rewrite HH, Hcol.
  unfold assign, enqueue. cbn [fst snd].
  destruct (decide (column_name ∈ ignore_columns l));
    destruct (negb _ && _); simpl; congruence.
Qed.

Lemma process_row_tail hs : forall done_h vs s H E rest row rs ps l base,
  assembly_view s = (H, E, vs ++ rest, row, rs, ps, processing_loop l) ->
  H = done_h ++ hs ->
  hs <> [] ->
  length vs = length hs ->
  cols_ l = N.of_nat (length H) ->
  (base mod cols_ l = 0)%N ->
  index l = (base + N.of_nat (length done_h))%N ->
  (base + cols_ l < 2 ^ 64)%N ->
  number_of_rows l <> E ->
  let row' := foldl (assign (ignore_columns l)) row (zip hs vs) in
  let n' := size_t_wrap (number_of_rows l + 1) in
  assembly_view (run (repeat act_processing (length hs)) s)
  = (H, E, rest, row', rs ++ [row'], ps ++ [n'],
     processing_loop
       (mkLocals (base + cols_ l) (cols_ l) (ignore_columns l) n')).
Proof.
  induction hs as [|h hs IH];
    intros done_h vs s H E rest row rs ps l base Hv HH Hne Hlen Hc Hb Hi Hsz Hn;
    [done|].
  destruct vs as [|v vs]; [done|]. simpl in Hlen. injection Hlen as Hlen.
  assert (length H = length done_h + S (length hs)) as HlenH
    by (rewrite HH, length_app; done).
  assert (index l mod cols_ l = N.of_nat (length done_h))%N as Hmod.
  { rewrite Hi. apply mod_add_small; [done|]. lia. }
  assert (H !! N.to_nat (index l mod cols_ l) = Some h) as Hcol.
  { rewrite Hmod, Nat2N.id, HH. by apply list_lookup_middle. }
  cbn [app] in Hv.
  pose proof (process_step_value s H E v (vs ++ rest) row rs ps l h Hv Hn
                ltac:(lia) Hcol) as Hstep.
  cbv zeta in Hstep.
  rewrite size_t_wrap_small in Hstep by lia.
  replace (index l + 1 =? 0)%N with false in Hstep
    by (symmetry; apply N.eqb_neq; lia).
  cbn [negb andb] in Hstep.
  cbn [length repeat run foldl].
  destruct hs as [|h2 hs']; cbn [length] in HlenH, Hlen.
  - (* the last value of the row *)
    destruct vs; [|done]. cbn [length repeat foldl zip zip_with app].
    replace (index l + 1)%N with (base + cols_ l)%N in Hstep by lia.
    rewrite mod_add_whole, N.eqb_refl in Hstep by done.
    exact Hstep.
  - replace ((index l + 1) mod cols_ l =? 0)%N with false in Hstep.
    2: { symmetry. apply N.eqb_neq.
         replace (index l + 1)%N
           with (base + N.of_nat (S (length done_h)))%N by lia.
         rewrite mod_add_small; [lia|done|]. lia. }
    pose proof (IH (done_h ++ [h]) vs (exec act_processing s)
                  H E rest (assign (ignore_columns l) row (h, v)) rs ps
                  (mkLocals (index l + 1) (cols_ l) (ignore_columns l)
                            (number_of_rows l))
                  base Hstep) as IH'.
    cbn [index cols_ ignore_columns number_of_rows] in IH'.
    apply IH'; try done.
    + by rewrite HH, <- app_assoc.
    + rewrite length_app. simpl. lia.
Qed.

(** The processing thread assembles a row round-robin: starting on a row
    boundary with as many values queued as there are headers, that many
    iterations assign each value to its header in order (ignored columns
    left out), enqueue the resulting row buffer and publish the next
    count. *)
Theorem process_values_assembles_row s H E vs rest row rs ps l :
  assembly_view s = (H, E, vs ++ rest, row, rs, ps, processing_loop l) ->
  H <> [] ->
  length vs = length H ->
  cols_ l = N.of_nat (length H) ->
  (index l mod cols_ l = 0)%N ->
  (index l + cols_ l < 2 ^ 64)%N ->
  number_of_rows l <> E ->
  let row' := assemble (ignore_columns l) row H vs in
  let n' := size_t_wrap (number_of_rows l + 1) in
  assembly_view (run (repeat act_processing (length H)) s)
  = (H, E, rest, row', rs ++ [row'], ps ++ [n'],
     processing_loop
       (mkLocals (index l + cols_ l) (cols_ l) (ignore_columns l) n')).
Proof.
  intros Hv Hne Hlen Hc Hmod Hsz Hn.
  apply (process_row_tail H [] vs s H E rest row rs ps l (index l));
    try done.
  simpl. lia.
Qed.

Lemma process_values_assembles_row_witness :
  rows_ (reader (run (repeat act_processing 2) assembling_system))
  = [] ++ [assemble ∅ {[lit "a" := []; lit "b" := []]}
             [lit "a"; lit "b"] [lit "1"; lit "2"]].
Proof.
  pose proof (process_values_assembles_row assembling_system
                [lit "a"; lit "b"] 2%N [lit "1"; lit "2"] [lit "3"; lit "4"]
                {[lit "a" := []; lit "b" := []]} [] []
                (mkLocals 0 2 ∅ 0) eq_refl) as H.
  cbv zeta in H. unfold assembly_view at 1 in H.
  assert ([lit "a"; lit "b"] <> []) as H1 by discriminate.
  assert ((0 + 2 < 2 ^ 64)%N) as H2 by (vm_compute; reflexivity).
  assert (0%N <> 2%N) as H3 by discriminate.
  specialize (H H1 eq_refl eq_refl eq_refl H2 H3).
  apply (f_equal (fun t => snd (fst (fst t)))) in H.
  cbn [fst snd] in H. exact H.
Defined.

Lemma assign_lookup_agree (ignore : gset str) (columns : list (str * str)) :
  forall (m m' : Row) k,
    (k ∉ (list_to_set columns.*1 : gset str) ∖ ignore -> m !! k = m' !! k) ->
    foldl (assign ignore) m columns !! k = foldl (assign ignore) m' columns !! k.
Proof.
  induction columns as [|[h v] columns IH]; intros m m' k Hk; simpl.
  - apply Hk. set_solver.
  - apply IH. intros Hn. unfold assign. cbn [fst snd].
    destruct (decide (h ∈ ignore)) as [Hi|Hi].
    + apply Hk. set_solver.
    + destruct (decide (h = k)) as [->|Hne].
      * by rewrite !lookup_insert_eq.
      * rewrite !lookup_insert_ne by done. apply Hk. set_solver.
Qed.

(** A row does not depend on the row before it: when a line brings one
    value for every header, the assembled row is the same whatever values
    the reused row buffer held, as long as the buffer has the keys that
    [read_internal] gave it. *)
Theorem assemble_overwrites_buffer (ignore : gset str) (row row' : Row)
    (headers values : list str) :
  length values = length headers ->
  dom row = list_to_set headers ∖ ignore ->
  dom row' = list_to_set headers ∖ ignore ->
  assemble ignore row headers values = assemble ignore row' headers values.
Proof.
  intros Hlen Hd Hd'. apply map_eq. intros k. unfold assemble.
  apply assign_lookup_agree. rewrite fst_zip by lia. intros Hn.
  rewrite <- Hd in Hn. apply not_elem_of_dom in Hn as Hk. rewrite Hk.
  rewrite Hd, <- Hd' in Hn. apply not_elem_of_dom in Hn. by rewrite Hn.
Qed.

Lemma assemble_overwrites_buffer_witness :
  assemble ∅ {[lit "a" := lit "1"; lit "b" := lit "2"]}
           [lit "a"; lit "b"] [lit "3"; lit "4"]
  = assemble ∅ {[lit "a" := []; lit "b" := []]}
             [lit "a"; lit "b"] [lit "3"; lit "4"].
Proof.
  apply assemble_overwrites_buffer.
  - reflexivity.
  - vm_compute. reflexivity.
  - vm_compute. reflexivity.
Defined.

(** * Further properties of the reading thread *)

Lemma pop_carriage_return_snoc line :
  pop_carriage_return (line ++ [carriage_return]) = line.
Proof.
  unfold pop_carriage_return. rewrite last_snoc, Ascii.eqb_refl.
  apply removelast_last.
Qed.

(** The steps of the reading thread in its loop, on the view. *)
Lemma reading_step_enqueue s stream values d value pending :
  reading_view s = (stream, values, reading_lines d (value :: pending)) ->
  reading_view (exec act_reading s)
  = (stream, values ++ [value], reading_lines d pending).
Proof.
  destruct s as [r rd p c]. unfold reading_view. cbn [reader reading].
  intros [= Hs Hv ->]. cbn [exec reading_step reader reading]. simpl.
  unfold enqueue. congruence.
Qed.

Lemma reading_step_getline s stream values d row stream' fields :
  reading_view s = (stream, values, reading_lines d []) ->
  getline stream = Some (row, stream') ->
  split d (pop_carriage_return row) = Some fields ->
  reading_view (exec act_reading s) = (stream', values, reading_lines d fields).
Proof.
  destruct s as [r rd p c]. unfold reading_view. cbn [reader reading].
  intros [= Hs Hv ->] Hg Hf. cbn [exec reading_step reader reading].
  rewrite Hs, Hg, Hf. simpl. congruence.
Qed.

Lemma reading_step_end s stream values d :
  reading_view s = (stream, values, reading_lines d []) ->
  getline stream = None ->
  reading_view (exec act_reading s) = (stream, values, reading_finished).
Proof.
  destruct s as [r rd p c]. unfold reading_view. cbn [reader reading].
  intros [= Hs Hv ->] Hg. cbn [exec reading_step reader reading].
  rewrite Hs, Hg. simpl. congruence.
Qed.

Lemma run_repeat_S a n s :
  run (repeat a (S n)) s = run (repeat a n) (exec a s).
Proof. reflexivity. Qed.

Lemma reading_enqueues_pending pending : forall s stream values d,
  reading_view s = (stream, values, reading_lines d pending) ->
  reading_view (run (repeat act_reading (length pending)) s)
  = (stream, values ++ pending, reading_lines d []).
Proof.
  induction pending as [|value pending IH]; intros s stream values d Hv.
  - simpl. by rewrite app_nil_r.
  - cbn [length]. rewrite run_repeat_S.
    apply reading_step_enqueue in Hv. apply IH in Hv.
    rewrite Hv. by rewrite <- app_assoc.
Qed.

(** A line that ends in a carriage return before its newline is split
    without the carriage return: a CRLF line gives the fields of the same
    line ended by LF alone. *)
Theorem reading_strips_carriage_return s pre line rest values d fields :
  newline ∉ line ->
  reading_view s
  = (mkStream (pre ++ (line ++ [carriage_return]) ++ newline :: rest)
              (length pre),
     values, reading_lines d []) ->
  split d line = Some fields ->
  exists stream',
    reading_view (exec act_reading s) = (stream', values, reading_lines d fields)
    /\ offset stream' = length pre + S (S (length line)).
Proof.
  intros Hn Hv Hf.
  assert (newline ∉ line ++ [carriage_return]) as Hn'.
  { intros Hin. apply elem_of_app in Hin as [Hin|Hin]; [done|].
    apply list_elem_of_singleton in Hin. discriminate Hin. }
  eexists. split.
  - eapply reading_step_getline; [exact Hv| |].
    + by apply getline_line.
    + by rewrite pop_carriage_return_snoc.
  - cbn [offset]. rewrite length_app. simpl. lia.
Qed.

Lemma reading_strips_carriage_return_witness :
  exists stream',
    reading_view
      (exec act_reading
         (mkSystem
            (with_stream (Reader_new comma_dialect)
               (mkStream ([] ++ (lit "1,2" ++ [carriage_return])
                             ++ newline :: []) 0))
            (reading_lines comma_dialect []) processing_not_started
            rows_not_called))
    = (stream', [], reading_lines comma_dialect [lit "1"; lit "2"])
    /\ offset stream' = 0 + 5.
Proof.
  apply (reading_strips_carriage_return
           (mkSystem
              (with_stream (Reader_new comma_dialect)
                 (mkStream ([] ++ (lit "1,2" ++ [carriage_return])
                               ++ newline :: []) 0))
              (reading_lines comma_dialect []) processing_not_started
              rows_not_called)
           [] (lit "1,2") [] [] comma_dialect [lit "1"; lit "2"]).
  - apply not_elem_of_by_eqb. reflexivity.
  - reflexivity.
  - vm_compute. reflexivity.
Defined.

Lemma reading_enqueues_lines d lines fss :
  Forall2 (fun line fields => split d (pop_carriage_return line) = Some fields)
          lines fss ->
  Forall (fun line => newline ∉ line) lines ->
  forall s pre values,
    reading_view s
    = (mkStream (pre ++ file_of_lines lines) (length pre), values,
       reading_lines d []) ->
    reading_view
      (run (repeat act_reading (length lines + length (concat fss) + 1)) s)
    = (mkStream (pre ++ file_of_lines lines)
                (length (pre ++ file_of_lines lines)),
       values ++ concat fss, reading_finished).
Proof.
  induction 1 as [|line fields lines fss Hf _ IH]; intros Hn s pre values Hv.
  - cbn [length concat Nat.add]. rewrite run_repeat_S. cbn [repeat run foldl].
    unfold file_of_lines in *. cbn [map concat] in *.
    rewrite app_nil_r in *. apply reading_step_end in Hv.
    + by rewrite Hv, app_nil_r.
    + apply getline_end.
  - apply Forall_cons in Hn as [Hn Hns].
    unfold file_of_lines in Hv. cbn [map concat] in Hv.
    fold (file_of_lines lines) in Hv.
    rewrite <- (app_assoc line [newline]) in Hv. cbn [app] in Hv.
    eapply reading_step_getline in Hv; [|by apply getline_line|exact Hf].
    apply reading_enqueues_pending in Hv.
    replace (pre ++ line ++ newline :: file_of_lines lines)
      with ((pre ++ line ++ [newline]) ++ file_of_lines lines) in Hv
      by (by rewrite <- !app_assoc).
    replace (length pre + S (length line))
      with (length (pre ++ line ++ [newline])) in Hv
      by (rewrite !length_app; simpl; lia).
    apply (IH Hns) in Hv.
    cbn [length concat]. rewrite length_app.
    replace (S (length lines) + (length fields + length (concat fss)) + 1)
      with (1 + (length fields
                 + (length lines + length (concat fss) + 1))) by lia.
    rewrite (run_repeat_add _ 1), (run_repeat_add _ (length fields)).
    change (run (repeat act_reading 1) s) with (exec act_reading s).
    rewrite Hv. unfold file_of_lines. cbn [map concat].
    by rewrite <- !app_assoc.
Qed.

(** The reading thread enqueues the fields of the data lines one by one, in
    the order of the file, and then finishes with the stream at its end. *)
Theorem reading_enqueues_fields_in_order s d lines fss values :
  Forall2 (fun line fields => split d (pop_carriage_return line) = Some fields)
          lines fss ->
  Forall (fun line => newline ∉ line) lines ->
  reading_view s = (mkStream (file_of_lines lines) 0, values,
                    reading_lines d []) ->
  reading_view
    (run (repeat act_reading (length lines + length (concat fss) + 1)) s)
  = (mkStream (file_of_lines lines) (length (file_of_lines lines)),
     values ++ concat fss, reading_finished).
Proof.
  intros Hf Hn Hv.
  by apply (reading_enqueues_lines d lines fss Hf Hn s [] values).
Qed.

Lemma reading_enqueues_fields_in_order_witness :
  reading_view
    (run (repeat act_reading (2 + 4 + 1))
       (mkSystem
          (with_stream (Reader_new comma_dialect)
             (mkStream (file_of_lines [lit "1,2"; lit "3,4"]) 0))
          (reading_lines comma_dialect []) processing_not_started
          rows_not_called))
  = (mkStream (file_of_lines [lit "1,2"; lit "3,4"])
              (length (file_of_lines [lit "1,2"; lit "3,4"])),
     [] ++ concat [[lit "1"; lit "2"]; [lit "3"; lit "4"]], reading_finished).
Proof.
  apply (reading_enqueues_fields_in_order
           (mkSystem
              (with_stream (Reader_new comma_dialect)
                 (mkStream (file_of_lines [lit "1,2"; lit "3,4"]) 0))
              (reading_lines comma_dialect []) processing_not_started
              rows_not_called)
           comma_dialect [lit "1,2"; lit "3,4"]
           [[lit "1"; lit "2"]; [lit "3"; lit "4"]] []).
  - repeat constructor.
  - repeat constructor; apply not_elem_of_by_eqb; reflexivity.
  - reflexivity.
Defined.



(** When the header line gave no column, the processing thread computes
    [index % 0] on the first value that reaches it: from its entry, with a
    value queued and at least one row expected, its second step has no
    defined behaviour. *)
Theorem process_values_without_columns s d value values :
  processing s = processing_at_entry ->
  dialects_ (reader s) !! current_dialect_ (reader s) = Some d ->
  headers_ (reader s) = [] ->
  values_ (reader s) = value :: values ->
  expected_number_of_rows_ (reader s) <> 0%N ->
  processing (run [act_processing; act_processing] s) = processing_undefined.
Proof.
  destruct s as [r rd p c]. cbn [reader processing].
  intros -> Hd Hh Hv He.
  cbn [run foldl exec processing_step reader processing].
  unfold process_values_entry. rewrite Hd, Hh.
  cbn [exec processing_step reader processing length].
  unfold process_values_iteration. cbn [number_of_rows cols_].
  destruct (N.eqb_spec 0 (expected_number_of_rows_ r)); [congruence|].
  rewrite Hv. reflexivity.
Qed.

Lemma process_values_without_columns_witness :
  processing
    (run [act_processing; act_processing]
       (mkSystem
          (with_values
             (with_expected_number_of_rows (Reader_new comma_dialect) 1)
             [lit "1"])
          reading_finished processing_at_entry rows_not_called))
  = processing_undefined.
Proof.
  apply (process_values_without_columns _ (header true (double_quote true
           (quote_character double_quote_mark
              (delimiter (lit ",") comma_dialect)))) (lit "1") []).
  - reflexivity.
  - vm_compute. reflexivity.
  - reflexivity.
  - reflexivity.
  - discriminate.
Defined.

(** * The three threads one after the other *)

Lemma length_file_of_lines lines :
  length lines <= length (file_of_lines lines).
Proof.
  unfold file_of_lines. induction lines as [|l ls IH]; simpl; [lia|].
  rewrite !length_app. simpl. lia.
Qed.



Lemma exec_processing_beside s :
  beside_processing (exec act_processing s) = beside_processing s.
Proof.
  assert (forall r p,
            next_index_ (processing_step r p).1 = next_index_ r) as Hnext.
  { intros r p. destruct p; cbn [processing_step]; try done.
    unfold process_values_iteration. repeat case_match; simpl; done. }
  destruct s as [r rd p c]. unfold beside_processing.
  cbn [exec reader reading processing client].
  pose proof (processing_step_frame r p) as H. cbv zeta in H.
  specialize (Hnext r p).
  destruct (processing_step r p) as [r' p']. cbn [fst] in *.
  cbn [reader reading processing client].
  destruct H as (_ & -> & -> & ->). by rewrite Hnext.
Qed.



(** The entry of [process_values] and its exit, on the view. *)
Lemma processing_entry_view s d :
  processing s = processing_at_entry ->
  dialects_ (reader s) !! current_dialect_ (reader s) = Some d ->
  assembly_view (exec act_processing s)
  = (headers_ (reader s), expected_number_of_rows_ (reader s),
     values_ (reader s), current_row_ (reader s), rows_ (reader s),
     number_of_rows_processed_ (reader s),
     processing_loop
       (mkLocals 0 (N.of_nat (length (headers_ (reader s))))
                 (ignore_columns_ d) 0)).
Proof.
  destruct s as [r rd p c]. cbn [reader processing]. intros -> Hd.
  unfold assembly_view. cbn [exec processing_step reader processing].
  unfold process_values_entry. by rewrite Hd.
Qed.

Lemma processing_exit_view s H E vs row rs ps l :
  assembly_view s = (H, E, vs, row, rs, ps, processing_loop l) ->
  number_of_rows l = E ->
  assembly_view (exec act_processing s)
  = (H, E, vs, row, rs, ps, processing_returned l).
Proof.
  destruct s as [r rd p c]. unfold assembly_view. cbn [reader processing].
  intros [= HH HE Hv Hrow Hrs Hps ->] Hn.
  cbn [exec processing_step reader processing].
  unfold process_values_iteration. rewrite HE, Hn, N.eqb_refl.
  cbn [reader processing]. congruence.
Qed.

Lemma assign_dom (ignore : gset str) (columns : list (str * str)) :
  forall row : Row,
    dom (foldl (assign ignore) row columns)
    = dom row ∪ (list_to_set columns.*1 ∖ ignore).
Proof.
  induction columns as [|[h v] columns IH]; intros row; simpl.
  - set_solver.
  - rewrite IH. unfold assign. cbn [fst snd].
    destruct (decide (h ∈ ignore)).
    + set_solver.
    + rewrite dom_insert_L. set_solver.
Qed.

Lemma assemble_dom (ignore : gset str) (row : Row) (headers values : list str) :
  length values = length headers ->
  dom row = list_to_set headers ∖ ignore ->
  dom (assemble ignore row headers values) = list_to_set headers ∖ ignore.
Proof.
  intros Hlen Hd. unfold assemble. rewrite assign_dom, fst_zip by lia.
  set_solver.
Qed.

Lemma assemble_same_keys (ignore : gset str) (row row' : Row)
    (headers values : list str) :
  length values = length headers ->
  dom row = dom row' ->
  dom row' = list_to_set headers ∖ ignore ->
  assemble ignore row headers values = assemble ignore row' headers values.
Proof.
  intros Hlen Hd Hd'. apply map_eq. intros k. unfold assemble.
  apply assign_lookup_agree. rewrite fst_zip by lia. intros Hn.
  rewrite <- Hd' in Hn. apply not_elem_of_dom in Hn as Hk'.
  rewrite <- Hd in Hn. apply not_elem_of_dom in Hn. by rewrite Hn, Hk'.
Qed.


Lemma exec_call_rows s :
  client s = rows_not_called ->
  exec act_call_rows s
  = mkSystem (reader s) (reading s) (processing s) (rows_at_done []).
Proof. intros Hc. cbn [exec]. by rewrite Hc. Qed.


Lemma run_cons a schedule s : run (a :: schedule) s = run schedule (exec a s).
Proof. reflexivity. Qed.

Lemma file_of_lines_cons line lines :
  file_of_lines (line :: lines) = line ++ newline :: file_of_lines lines.
Proof. unfold file_of_lines. cbn [map concat]. by rewrite <- app_assoc. Qed.


(** [read] on a file of newline-terminated lines, for a Reader that has
    not read before. *)
Lemma read_file_of_lines (fs : filesystem) filename r d lines :
  fs filename = Some (file_of_lines lines) ->
  Forall (fun line => newline ∉ line) lines ->
  dialects_ r !! current_dialect_ r = Some d ->
  expected_number_of_rows_ r = 0%N ->
  reading_thread_started_ r = false ->
  (N.of_nat (length lines) < 2 ^ 64)%N ->
  read fs filename r
  = Some (with_reading_thread_started
            (with_stream
               (with_expected_number_of_rows
                  (with_file r filename (mkStream (file_of_lines lines) 0))
                  (N.of_nat (length lines) - if header_ d then 1 else 0))
               (mkStream (file_of_lines lines) 0)) true,
          Returns tt).
Proof.
  intros Hfs Hlines Hd He Hflag Hsize. unfold read. rewrite Hfs, Hflag.
  cbn [stream_ with_file expected_number_of_rows_]. rewrite He.
  pose proof (prescan_file_of_lines _ Hlines [] 0%N
                (S (length (file_of_lines lines)))) as Hp.
  cbn [app length] in Hp. rewrite Hp; [|clear Hp|lia].
  2: { pose proof (length_file_of_lines lines). lia. }
  cbn [dialects_ current_dialect_ with_file]. rewrite Hd.
  rewrite N.add_0_l.
  replace (if header_ d && (0 <? N.of_nat (length lines))%N
           then (N.of_nat (length lines) - 1)%N
           else N.of_nat (length lines))
    with (N.of_nat (length lines) - if header_ d then 1 else 0)%N; [done|].
  destruct (header_ d); cbn [andb]; [|lia].
  destruct (N.ltb_spec 0 (N.of_nat (length lines))); lia.
Qed.

(** The entry of [read_internal] on a stream that stands before a
    terminated first line. *)
Lemma read_internal_entry_eq r d first_line rest fields :
  dialects_ r !! current_dialect_ r = Some d ->
  stream_ r = mkStream (first_line ++ newline :: rest) 0 ->
  newline ∉ first_line ->
  split d (pop_carriage_return first_line) = Some fields ->
  let headers :=
    if header_ d then fields
    else match column_names_ d with
         | [] => map to_string (seq 0 (length fields))
         | _ :: _ => column_names_ d
         end in
  read_internal_entry r
  = (with_header_setup
       (with_stream r
          (mkStream (first_line ++ newline :: rest)
                    (if header_ d then S (length first_line) else 0)))
       headers (initial_row headers (ignore_columns_ d) (current_row_ r)),
     reading_sets_flag d).
Proof.
  intros Hd Hs Hn Hf headers. subst headers. unfold read_internal_entry.
  rewrite Hd, Hs.
  pose proof (getline_line [] first_line rest Hn) as Hg.
  cbn [app length] in Hg. rewrite Hg, Hf.
  destruct (header_ d); cbn [content]; [done|].
  destruct (column_names_ d); done.
Qed.



(** * The processing thread without values *)

Lemma polling_keeps_values r :
  values_ (done r).1 = values_ r
  /\ values_ (ready r).1 = values_ r
  /\ values_ (next_row r).1 = values_ r.
Proof.
  unfold done, ready, next_row, try_dequeue.
  repeat case_match; simplify_eq; simpl; done.
Qed.

Lemma exec_keeps_starving a s l :
  reading s = reading_finished ->
  processing s = processing_loop l ->
  values_ (reader s) = [] ->
  number_of_rows l <> expected_number_of_rows_ (reader s) ->
  reading (exec a s) = reading_finished
  /\ processing (exec a s) = processing_loop l
  /\ values_ (reader (exec a s)) = []
  /\ expected_number_of_rows_ (reader (exec a s))
     = expected_number_of_rows_ (reader s).
Proof.
  destruct s as [r rd p c]. cbn [reader reading processing client].
  intros -> -> Hv Hn.
  destruct (polling_keeps_values r) as (Hvd & Hvr & Hvn).
  pose proof (done_frame r) as Hd. pose proof (ready_frame r) as Hr.
  pose proof (next_row_frame r) as Hx. cbv zeta in Hd, Hr, Hx.
  destruct Hd as [Hd _], Hr as [Hr _], Hx as [Hx _].
  destruct a; cbn [exec reader reading processing client reading_step
                   processing_step].
  - done.
  - unfold process_values_iteration.
    destruct (N.eqb_spec (number_of_rows l) (expected_number_of_rows_ r));
      [done|].
    by rewrite Hv.
  - by rewrite Hvd, Hd.
  - by rewrite Hvr, Hr.
  - by rewrite Hvn, Hx.
  - by destruct c.
  - destruct c; cbn [rows_step]; try done.
    + destruct (done r) as [r' b].
      cbn [fst reader reading processing client] in *. by rewrite Hvd, Hd.
    + destruct (ready r) as [r' b].
      cbn [fst reader reading processing client] in *. by rewrite Hvr, Hr.
    + destruct (next_row r) as [r' row].
      cbn [fst reader reading processing client] in *. by rewrite Hvn, Hx.
Qed.

(** The processing thread does not return on its own.  Once the reading
    thread has finished and the value queue is empty, a processing thread
    that has counted fewer rows than [read] expected stays in its loop
    whatever the three threads do next: it waits for values that nothing
    will enqueue.  This is where a file leaves it whose lines bring fewer
    values than the expected rows need. *)
Theorem process_values_starves schedule s l :
  reading s = reading_finished ->
  processing s = processing_loop l ->
  values_ (reader s) = [] ->
  number_of_rows l <> expected_number_of_rows_ (reader s) ->
  processing (run schedule s) = processing_loop l.
Proof.
  revert s. induction schedule as [|a schedule IH]; intros s Hr Hp Hv Hn;
    [done|].
  rewrite run_cons.
  destruct (exec_keeps_starving a s l Hr Hp Hv Hn) as (Hr' & Hp' & Hv' & HE').
  apply IH; try done. by rewrite HE'.
Qed.

Lemma process_values_starves_witness :
  processing
    (run [act_processing; act_call_rows; act_rows; act_processing]
       (mkSystem (with_expected_number_of_rows (Reader_new comma_dialect) 1)
          reading_finished (processing_loop (mkLocals 1 2 ∅ 0))
          rows_not_called))
  = processing_loop (mkLocals 1 2 ∅ 0).
Proof.
  apply process_values_starves.
  - reflexivity.
  - reflexivity.
  - reflexivity.
  - discriminate.
Defined.

(** * What a row holds *)

Lemma assign_lookup_other (ignore : gset str) (columns : list (str * str)) h :
  h ∉ columns.*1 ->
  forall row : Row, foldl (assign ignore) row columns !! h = row !! h.
Proof.
  induction columns as [|[h0 v0] columns IH]; intros Hh row; [done|].
  cbn [foldl]. rewrite IH by set_solver. unfold assign. cbn [fst snd].
  destruct (decide (h0 ∈ ignore)); [done|].
  apply lookup_insert_ne. set_solver.
Qed.

(** With pairwise different headers, the row assembled from one value for
    each header maps a header that is not ignored to the value at its
    position, and leaves an ignored header as the row buffer had it. *)
Theorem assemble_lookup (ignore : gset str) (row : Row)
    (headers values : list str) c h v :
  NoDup headers ->
  length values = length headers ->
  headers !! c = Some h ->
  values !! c = Some v ->
  assemble ignore row headers values !! h
  = if decide (h ∈ ignore) then row !! h else Some v.
Proof.
  unfold assemble. revert row values c.
  induction headers as [|h0 headers IH]; intros row values c Hnd Hlen Hh Hv;
    [done|].
  destruct values as [|v0 values]; [done|].
  apply NoDup_cons in Hnd as [Hh0 Hnd]. simpl in Hlen.
  cbn [zip zip_with foldl]. fold (zip headers values).
  destruct c as [|c]; simpl in Hh, Hv.
  - simplify_eq. rewrite assign_lookup_other by (rewrite fst_zip; [done|lia]).
    unfold assign. cbn [fst snd].
    destruct (decide (h ∈ ignore)); [done|]. apply lookup_insert_eq.
  - rewrite (IH _ values c) by (done || lia).
    destruct (decide (h ∈ ignore)); [|done].
    unfold assign. cbn [fst snd].
    destruct (decide (h0 ∈ ignore)); [done|].
    apply lookup_insert_ne. intros ->. apply Hh0.
    by eapply list_elem_of_lookup_2.
Qed.

Lemma assemble_lookup_witness :
  assemble ({[lit "b"]} : gset str) ({[lit "a" := []]} : Row)
           [lit "a"; lit "b"] [lit "1"; lit "2"] !! lit "a"
  = Some (lit "1").
Proof.
  rewrite (assemble_lookup ({[lit "b"]} : gset str) ({[lit "a" := []]} : Row)
             [lit "a"; lit "b"] [lit "1"; lit "2"] 0 (lit "a") (lit "1")).
  - vm_compute. reflexivity.
  - apply NoDup_cons. split; [|apply NoDup_singleton].
    apply not_elem_of_cons. split; [discriminate|apply not_elem_of_nil].
  - reflexivity.
  - reflexivity.
  - reflexivity.
Defined.

(** * The two worker threads under any interleaving *)

(** A step of the reading thread keeps the threads at work on the same
    values. *)
Lemma pipelining_reading d H row0 vss s :
  pipelining d H row0 vss s ->
  pipelining d H row0 vss (exec act_reading s).
Proof.
  destruct s as [r rd p c]. unfold pipelining.
  cbn [reader reading processing].
  intros (HH & HE & Hd & consumed & todo & HV & Hrd & Hp).
  destruct rd as [| |d'|d' [|v pending]| | |]; try done.
  - (* the flag is set *)
    destruct Hrd as (-> & Hflag & Hl).
    cbn [exec reading_step reader reading processing client].
    split_and!; try done. exists consumed, todo. split_and!; try done.
    simpl. split_and!; try done. by exists todo.
  - (* the next line is read *)
    destruct Hrd as (-> & Hflag & rest & (pre & lines & fss & Hs & Hnl & HF2 & ->)
                     & ->).
    cbn [exec reading_step reader reading processing client].
    destruct HF2 as [|line fields lines fss Hf HF2].
    + unfold file_of_lines in Hs. cbn [map concat] in Hs.
      rewrite app_nil_r in Hs. rewrite Hs, getline_end.
      cbn [reader reading processing client]. rewrite Hs.
      split_and!; try done. exists consumed, []. split_and!; done.
    + apply Forall_cons in Hnl as [Hn Hnl].
      rewrite file_of_lines_cons in Hs. rewrite Hs, getline_line, Hf by done.
      cbn [reader reading processing client].
      split_and!; try done. exists consumed, (fields ++ concat fss).
      split_and!; try done. simpl. split_and!; try done.
      exists (concat fss). split; [|done].
      exists (pre ++ line ++ [newline]), lines, fss. split_and!; try done.
      rewrite <- !app_assoc, !length_app. cbn [app length].
      by rewrite Nat.add_1_r.
  - (* a value is enqueued *)
    destruct Hrd as (-> & Hflag & rest & Hl & ->).
    cbn [exec reading_step reader reading processing client].
    split_and!; try done. exists consumed, (pending ++ rest).
    split_and!; try done.
    + rewrite HV. simpl. unfold enqueue. by rewrite <- !app_assoc.
    + simpl. split_and!; try done. by exists rest.
  - (* the thread has finished *)
    cbn [exec reading_step reader reading processing client].
    split_and!; try done. by exists consumed, todo.
Qed.

Lemma exec_processing_keeps s :
  stream_ (reader (exec act_processing s)) = stream_ (reader s)
  /\ processing_thread_started_ (reader (exec act_processing s))
     = processing_thread_started_ (reader s)
  /\ dialects_ (reader (exec act_processing s)) = dialects_ (reader s)
  /\ current_dialect_ (reader (exec act_processing s))
     = current_dialect_ (reader s)
  /\ reading (exec act_processing s) = reading s.
Proof.
  assert (forall r p,
            stream_ (processing_step r p).1 = stream_ r
            /\ processing_thread_started_ (processing_step r p).1
               = processing_thread_started_ r
            /\ dialects_ (processing_step r p).1 = dialects_ r
            /\ current_dialect_ (processing_step r p).1 = current_dialect_ r)
    as Hstep.
  { intros r p. destruct p; cbn [processing_step]; try done.
    unfold process_values_iteration. repeat case_match; simpl; done. }
  destruct s as [r rd p c]. cbn [exec reader reading processing client].
  specialize (Hstep r p). destruct (processing_step r p) as [r' p'].
  cbn [fst reader reading] in *. tauto.
Qed.

Lemma processing_spin_view s H E row rs ps l :
  assembly_view s = (H, E, [], row, rs, ps, processing_loop l) ->
  number_of_rows l <> E ->
  assembly_view (exec act_processing s)
  = (H, E, [], row, rs, ps, processing_loop l).
Proof.
  destruct s as [r rd p c]. unfold assembly_view. cbn [reader processing].
  intros [= HH HE Hv Hrow Hrs Hps ->] Hn.
  cbn [exec processing_step reader processing].
  unfold process_values_iteration.
  destruct (N.eqb_spec (number_of_rows l) (expected_number_of_rows_ r));
    [congruence|].
  rewrite Hv. cbn [reader processing]. congruence.
Qed.

Lemma exec_processing_returned s l :
  processing s = processing_returned l -> exec act_processing s = s.
Proof. destruct s as [r rd p c]. cbn. by intros ->. Qed.

Lemma pipelining_of_views d H row0 vss s values row rows counts p consumed
    todo :
  assembly_view s
  = (H, N.of_nat (length vss), values, row, rows, counts, p) ->
  dialects_ (reader s) !! current_dialect_ (reader s) = Some d ->
  concat vss = consumed ++ values ++ todo ->
  reading_at d (stream_ (reader s)) (processing_thread_started_ (reader s))
             (reading s) todo ->
  processing_at (ignore_columns_ d) H row0 vss (N.of_nat (length vss)) row
                rows counts p consumed ->
  pipelining d H row0 vss s.
Proof.
  unfold assembly_view. intros [= HH HE Hv Hrow Hrs Hps Hp] Hd HV Hrd Hpa.
  unfold pipelining. rewrite HH, HE, Hv, Hrow, Hrs, Hps, Hp.
  split_and!; try done. by exists consumed, todo.
Qed.

(** The values of the row that the processing thread is in the middle
    of. *)
Lemma row_prefix (vss : list (list str)) n k partial v tail :
  Forall (fun vs => length vs = n) vss ->
  k < length vss ->
  length partial < n ->
  concat vss = (concat (take k vss) ++ partial) ++ v :: tail ->
  exists vs suffix, vss !! k = Some vs /\ vs = partial ++ v :: suffix.
Proof.
  intros Hlens Hk Hp HV.
  destruct (lookup_lt_is_Some_2 vss k Hk) as [vs Hvs].
  assert (length vs = n) as Hn
    by (by apply (Forall_lookup_1 (fun vs => length vs = n) vss k vs)).
  rewrite <- (take_drop_middle vss k vs Hvs) in HV at 1.
  rewrite concat_app, <- app_assoc in HV. cbn [concat] in HV.
  apply app_inv_head in HV.
  exists vs, (drop (S (length partial)) vs). split; [done|].
  apply (f_equal (take (S (length partial)))) in HV.
  rewrite take_app_le in HV by lia.
  change (partial ++ v :: tail) with (partial ++ [v] ++ tail) in HV.
  rewrite app_assoc, take_app_length' in HV
    by (rewrite length_app; simpl; lia).
  rewrite <- (take_drop (S (length partial)) vs) at 1.
  rewrite HV, <- app_assoc. done.
Qed.

Lemma zip_snoc (H : list str) : forall (partial : list str) h v,
  H !! length partial = Some h ->
  zip H (partial ++ [v]) = zip H partial ++ [(h, v)].
Proof.
  induction H as [|a H IH]; intros [|x partial] h v Hh; simpl in *;
    try done.
  - simplify_eq. by destruct H.
  - f_equal. by apply IH.
Qed.

(** A step of the processing thread keeps the threads at work on the same
    values. *)
Lemma pipelining_processing d H row0 vss s :
  H <> [] ->
  Forall (fun vs => length vs = length H) vss ->
  (N.of_nat (S (length vss) * length H) < 2 ^ 64)%N ->
  dom row0 = list_to_set H ∖ ignore_columns_ d ->
  pipelining d H row0 vss s ->
  pipelining d H row0 vss (exec act_processing s).
Proof.
  intros Hne Hlens Hsz Hdom (HH & HE & Hd & consumed & todo & HV & Hrd & Hp).
  assert (1 <= length H) as HH1 by (destruct H; [done|simpl; lia]).
  destruct (exec_processing_keeps s) as (Ks & Kf & Kd & Kc & Kr).
  assert (assembly_view s
          = (H, N.of_nat (length vss), values_ (reader s),
             current_row_ (reader s), rows_ (reader s),
             number_of_rows_processed_ (reader s), processing s)) as Hview
    by (unfold assembly_view; by rewrite HH, HE).
  rewrite HE in Hp.
  assert (reading_at d (stream_ (reader (exec act_processing s)))
            (processing_thread_started_ (reader (exec act_processing s)))
            (reading (exec act_processing s)) todo) as Hrd'
    by (by rewrite Ks, Kf, Kr).
  assert (dialects_ (reader (exec act_processing s))
            !! current_dialect_ (reader (exec act_processing s)) = Some d)
    as Hd' by (by rewrite Kd, Kc).
  destruct (processing s) as [| |l|l|] eqn:Hps; try done.
  - (* the entry *)
    pose proof (processing_entry_view s d Hps Hd) as Hstep.
    rewrite HH, HE in Hstep. destruct Hp as (-> & Hrow & Hrows & Hcounts).
    apply (pipelining_of_views _ _ _ _ _ _ _ _ _ _ [] todo Hstep); try done.
    exists 0, [], row0. rewrite Hrow, Hrows, Hcounts.
    split_and!; try done; [lia|by destruct H].
  - (* an iteration *)
    destruct Hp as (k & partial & rb & -> & Hpl & Hk & Hix & Hcols & Hign & Hn
                    & Hrows & Hcounts & Hrow & Hrb).
    destruct (decide (number_of_rows l = N.of_nat (length vss))) as [Heq|Hneq].
    { (* the expected number is reached *)
      pose proof (processing_exit_view _ _ _ _ _ _ _ _ Hview Heq) as Hstep.
      apply (pipelining_of_views _ _ _ _ _ _ _ _ _ _
               (concat (take k vss) ++ partial) todo Hstep); try done.
      split; [|done]. exists k, partial, rb. split_and!; done. }
    destruct (values_ (reader s)) as [|v q] eqn:Hq.
    { (* the queue is empty *)
      pose proof (processing_spin_view _ _ _ _ _ _ _ Hview Hneq) as Hstep.
      apply (pipelining_of_views _ _ _ _ _ _ _ _ _ _
               (concat (take k vss) ++ partial) todo Hstep); try done.
      exists k, partial, rb. split_and!; done. }
    (* a value is taken *)
    assert (k < length vss) as Hk' by (rewrite Hn in Hneq; lia).
    rewrite app_assoc in HV. cbn [app] in HV.
    destruct (row_prefix vss (length H) k partial v (q ++ todo) Hlens Hk' Hpl)
      as (vs & suffix & Hvs & Hvseq); [by rewrite HV, <- !app_assoc|].
    assert (length vs = length H) as Hlvs
      by (by apply (Forall_lookup_1 (fun vs => length vs = length H) vss k vs)).
    destruct (lookup_lt_is_Some_2 H (length partial) Hpl) as [h Hh].
    assert (index l mod cols_ l = N.of_nat (length partial))%N as Hmod.
    { rewrite Hix, Hcols, Nat2N.inj_add, Nat2N.inj_mul.
      apply mod_add_small; [apply N.Div0.mod_mul|lia]. }
    pose proof (process_step_value s H _ v q _ _ _ l h Hview Hneq) as Hstep.
    specialize (Hstep ltac:(lia)). rewrite Hmod, Nat2N.id in Hstep.
    specialize (Hstep Hh). cbv zeta in Hstep.
    rewrite !size_t_wrap_small in Hstep by nia.
    replace (index l + 1 =? 0)%N with false in Hstep
      by (symmetry; apply N.eqb_neq; lia).
    cbn [negb andb] in Hstep.
    assert (assign (ignore_columns l) (current_row_ (reader s)) (h, v)
            = foldl (assign (ignore_columns_ d)) rb (zip H (partial ++ [v])))
      as Hassign
      by (by rewrite (zip_snoc H partial h v Hh), foldl_app, Hign, Hrow).
    rewrite Hassign in Hstep.
    destruct (decide (S (length partial) = length H)) as [Hfull|Hpart].
    + (* the row is complete *)
      assert ((index l + 1) mod cols_ l = 0)%N as Hz.
      { replace (index l + 1)%N with (N.of_nat (S k) * cols_ l)%N
          by (rewrite Hix, Hcols; lia).
        apply N.Div0.mod_mul. }
      rewrite Hz, N.eqb_refl in Hstep.
      assert (vs = partial ++ [v]) as Hvs'.
      { rewrite Hvseq in Hlvs. rewrite length_app in Hlvs.
        destruct suffix; [done|simpl in Hlvs; lia]. }
      assert (foldl (assign (ignore_columns_ d)) rb (zip H (partial ++ [v]))
              = assemble (ignore_columns_ d) row0 H vs) as Hnew.
      { rewrite <- Hvs'. apply assemble_same_keys; [done|done|done]. }
      rewrite Hnew in Hstep.
      apply (pipelining_of_views _ _ _ _ _ _ _ _ _ _
               (concat (take (S k) vss)) todo Hstep); try done.
      * rewrite (take_S_r _ _ _ Hvs), concat_app. cbn [concat].
        rewrite app_nil_r, Hvs', HV. by rewrite <- !app_assoc.
      * exists (S k), [], (assemble (ignore_columns_ d) row0 H vs).
        split_and!; try done.
        -- by rewrite app_nil_r.
        -- cbn [index length]. lia.
        -- cbn [number_of_rows]. lia.
        -- by rewrite (take_S_r _ _ _ Hvs), map_app, Hrows.
        -- rewrite seq_S, map_app, Hcounts. cbn [map]. do 2 f_equal. lia.
        -- by destruct H.
        -- rewrite Hdom. by apply assemble_dom.
    + (* the row goes on *)
      replace ((index l + 1) mod cols_ l =? 0)%N with false in Hstep.
      2: { symmetry. apply N.eqb_neq.
           replace (index l + 1)%N
             with (N.of_nat (k * length H) + N.of_nat (S (length partial)))%N
             by lia.
           rewrite Hcols, mod_add_small; [lia| |lia].
           rewrite Nat2N.inj_mul. apply N.Div0.mod_mul. }
      apply (pipelining_of_views _ _ _ _ _ _ _ _ _ _
               (concat (take k vss) ++ partial ++ [v]) todo Hstep); try done.
      * rewrite HV. by rewrite <- !app_assoc.
      * exists k, (partial ++ [v]), rb. split_and!; try done.
        -- rewrite length_app. simpl. lia.
        -- rewrite length_app. simpl. lia.
  - (* returned *)
    rewrite (exec_processing_returned s l Hps).
    unfold pipelining. rewrite Hps, HE. split_and!; try done.
    by exists consumed, todo.
Qed.

Lemma pipelining_workers d H row0 vss workers :
  H <> [] ->
  Forall (fun vs => length vs = length H) vss ->
  (N.of_nat (S (length vss) * length H) < 2 ^ 64)%N ->
  dom row0 = list_to_set H ∖ ignore_columns_ d ->
  forallb is_worker workers = true ->
  forall s,
    pipelining d H row0 vss s -> pipelining d H row0 vss (run workers s).
Proof.
  intros Hne Hlens Hsz Hdom.
  induction workers as [|a workers IH]; intros Hw s Hs; [done|].
  cbn [forallb] in Hw. apply andb_prop in Hw as [Ha Hw].
  rewrite run_cons. apply (IH Hw).
  destruct a; try done.
  - by apply pipelining_reading.
  - by apply pipelining_processing.
Qed.

(** Before the reading thread has made its first step there is no
    processing thread, and its steps are none. *)
Lemma workers_from_start d H row0 vss r workers :
  H <> [] ->
  Forall (fun vs => length vs = length H) vss ->
  (N.of_nat (S (length vss) * length H) < 2 ^ 64)%N ->
  dom row0 = list_to_set H ∖ ignore_columns_ d ->
  pipelining d H row0 vss (exec act_reading (started r)) ->
  forallb is_worker workers = true ->
  run workers (started r) = started r
  \/ pipelining d H row0 vss (run workers (started r)).
Proof.
  intros Hne Hlens Hsz Hdom Hstart.
  induction workers as [|a workers IH]; intros Hw; [by left|].
  cbn [forallb] in Hw. apply andb_prop in Hw as [Ha Hw].
  rewrite run_cons. destruct a; try done.
  - right. by apply pipelining_workers.
  - change (exec act_processing (started r)) with (started r). by apply IH.
Qed.

(** When both threads have come to their end, every row is in the row
    queue, every count is published and the value queue is empty. *)
Lemma pipelining_end d H row0 vss s l :
  pipelining d H row0 vss s ->
  reading s = reading_finished ->
  processing s = processing_returned l ->
  processing_thread_started_ (reader s) = true
  /\ rows_ (reader s) = map (assemble (ignore_columns_ d) row0 H) vss
  /\ number_of_rows_processed_ (reader s)
     = map N.of_nat (seq 1 (length vss))
  /\ values_ (reader s) = [].
Proof.
  intros (HH & HE & Hd & consumed & todo & HV & Hrd & Hp) Hr Hps.
  rewrite Hr in Hrd. rewrite Hps in Hp. destruct Hrd as [Hflag ->].
  destruct Hp as [(k & partial & rb & -> & Hpl & Hk & Hix & Hcols & Hign & Hn
                   & Hrows & Hcounts & Hrow & Hrb) Hend].
  rewrite HE, Hn in Hend. apply Nat2N.inj in Hend. subst k.
  rewrite firstn_all in *.
  rewrite <- app_assoc, app_nil_r in HV.
  rewrite <- (app_nil_r (concat vss)) in HV at 1.
  apply app_inv_head in HV. symmetry in HV. apply app_nil in HV as [-> Hv].
  done.
Qed.

Lemma reading_step_next_index r t :
  next_index_ (reading_step r t).1 = next_index_ r.
Proof.
  destruct t as [| |d|d [|v p]| | |]; cbn [reading_step]; try done.
  - unfold read_internal_entry. repeat case_match; simpl; done.
  - repeat case_match; simpl; done.
Qed.

Lemma run_workers_next_index workers : forall s,
  forallb is_worker workers = true ->
  next_index_ (reader (run workers s)) = next_index_ (reader s).
Proof.
  induction workers as [|a workers IH]; intros s Hw; [done|].
  cbn [forallb] in Hw. apply andb_prop in Hw as [Ha Hw].
  rewrite run_cons, (IH _ Hw). destruct a; try done.
  - cbn [exec]. pose proof (reading_step_next_index (reader s) (reading s)).
    by destruct (reading_step _ _).
  - pose proof (exec_processing_beside s) as Hb.
    unfold beside_processing in Hb. by injection Hb.
Qed.

(** [rows()] called on the finished pipeline. *)
Lemma rows_from_finished rows s :
  2 <= length rows ->
  (N.of_nat (length rows) < 2 ^ 64)%N ->
  poll_view s
  = (true, N.of_nat (length rows), [], 0%N, 0%N, rows,
     map N.of_nat (seq 1 (length rows)), rows_not_called) ->
  client (run (act_call_rows :: repeat act_rows (3 * length rows + 1)) s)
  = rows_returned rows.
Proof.
  intros Hlen Hsize Hv. unfold poll_view in Hv.
  injection Hv as Hst HE Hq Hdi Hni Hrs Hps Hc.
  rewrite run_cons, (exec_call_rows s Hc).
  rewrite run_repeat_add. cbn [repeat run foldl].
  destruct (length rows) as [|j] eqn:Hl; [lia|].
  apply (rows_claim_last rows j); [done|by rewrite Hl|].
  apply rows_claim_many; [lia|lia| |lia].
  unfold poll_view. cbn [reader client].
  by rewrite Hst, HE, Hq, Hdi, Hni, Hrs, Hps, Hl.
Qed.

(** The first step of the reading thread on a Reader that [read] has just
    left puts the two threads to work on the values of the data lines. *)
Lemma pipelining_start d r first_line other_lines first_fields vss :
  let H :=
    if header_ d then first_fields
    else match column_names_ d with
         | [] => map to_string (seq 0 (length first_fields))
         | _ :: _ => column_names_ d
         end in
  let data_lines :=
    if header_ d then other_lines else first_line :: other_lines in
  dialects_ r !! current_dialect_ r = Some d ->
  stream_ r = mkStream (file_of_lines (first_line :: other_lines)) 0 ->
  Forall (fun line => newline ∉ line) (first_line :: other_lines) ->
  split d (pop_carriage_return first_line) = Some first_fields ->
  Forall2 (fun line vs => split d (pop_carriage_return line) = Some vs)
          data_lines vss ->
  expected_number_of_rows_ r = N.of_nat (length data_lines) ->
  (values_ r, rows_ r, number_of_rows_processed_ r, current_row_ r,
   processing_thread_started_ r)
  = ([], [], [], ∅, false) ->
  pipelining d H (initial_row H (ignore_columns_ d) ∅) vss
             (exec act_reading (started r)).
Proof.
  intros H data_lines Hd Hs Hnl Hsplit HF2 HE [= Hv Hrs Hps Hrow Hflag].
  apply Forall_cons in Hnl as [Hn1 Hnl].
  rewrite exec_reading_entry by done. cbn [reader started client processing].
  rewrite file_of_lines_cons in Hs.
  rewrite (read_internal_entry_eq r d first_line (file_of_lines other_lines)
             first_fields) by done.
  cbv zeta. fold H. cbn [fst snd]. unfold pipelining.
  cbn -[initial_row file_of_lines]. rewrite HE, Hv, Hrs, Hps, Hrow, Hflag.
  split_and!; try done.
  - f_equal. by eapply Forall2_length.
  - exists [], (concat vss). split_and!; try done.
    exists (if header_ d then first_line ++ [newline] else []), data_lines, vss.
    split_and!; try done.
    + subst data_lines. destruct (header_ d).
      * rewrite <- app_assoc, length_app. cbn [length app].
        by rewrite Nat.add_1_r.
      * by rewrite file_of_lines_cons.
    + subst data_lines. destruct (header_ d); [done|by apply Forall_cons].
Qed.

(** A well-formed file under any interleaving of the two threads.  With
    the Reader and the file of the theorem before, let the reading thread
    and the processing thread take their steps in any order.  If at some
    point both have come to their end, a call of [rows()] made then
    returns one row for every data line, in the order of the file: how
    the two threads were interleaved makes no difference. *)
Theorem rows_after_any_interleaving fresh registry name d (fs : filesystem)
    filename first_line other_lines first_fields vss r workers l :
  let r0 :=
    with_current_dialect (with_dialects (Reader_new fresh) registry) name in
  let lines := first_line :: other_lines in
  let H :=
    if header_ d then first_fields
    else match column_names_ d with
         | [] => map to_string (seq 0 (length first_fields))
         | _ :: _ => column_names_ d
         end in
  let data_lines := if header_ d then other_lines else lines in
  registry !! name = Some d ->
  fs filename = Some (file_of_lines lines) ->
  Forall (fun line => newline ∉ line) lines ->
  split d (pop_carriage_return first_line) = Some first_fields ->
  Forall2 (fun line vs => split d (pop_carriage_return line) = Some vs)
          data_lines vss ->
  H <> [] ->
  Forall (fun vs => length vs = length H) vss ->
  2 <= length data_lines ->
  (N.of_nat (S (S (length data_lines)) * length H) < 2 ^ 64)%N ->
  read fs filename r0 = Some (r, Returns tt) ->
  forallb is_worker workers = true ->
  reading (run workers (started r)) = reading_finished ->
  processing (run workers (started r)) = processing_returned l ->
  client (run (act_call_rows :: repeat act_rows (3 * length data_lines + 1))
              (run workers (started r)))
  = rows_returned
      (map (assemble (ignore_columns_ d)
                     (initial_row H (ignore_columns_ d) ∅) H) vss).
Proof.
  intros r0 lines H data_lines Hd Hfs Hnl Hsplit HF2 Hne Hlens H2 Hsz Hread
         Hw Hrd Hps.
  assert (length data_lines = length vss) as Hlv
    by (eapply Forall2_length; eauto).
  assert (1 <= length H) as HH by (destruct H; [done|simpl; lia]).
  assert (length data_lines <= length lines) as Hdl
    by (subst data_lines lines; destruct (header_ d); simpl; lia).
  assert (length lines <= S (length data_lines)) as Hdl'
    by (subst data_lines lines; destruct (header_ d); simpl; lia).
  rewrite (read_file_of_lines fs filename r0 d lines Hfs Hnl Hd eq_refl
             eq_refl) in Hread by nia.
  injection Hread as Hr.
  assert (expected_number_of_rows_ r = N.of_nat (length data_lines)) as HE.
  { rewrite <- Hr. cbn -[N.of_nat N.sub length].
    subst data_lines lines. destruct (header_ d); cbn [length]; lia. }
  set (row0 := initial_row H (ignore_columns_ d) ∅).
  assert (dom row0 = list_to_set H ∖ ignore_columns_ d) as Hdom
    by apply dom_initial_row.
  assert (pipelining d H row0 vss (exec act_reading (started r))) as Hstart.
  { apply (pipelining_start d r first_line other_lines first_fields vss);
      try done; by rewrite <- Hr. }
  destruct (workers_from_start d H row0 vss r workers Hne Hlens
              ltac:(nia) Hdom Hstart Hw) as [Hsame|Hpipe].
  { by rewrite Hsame in Hrd. }
  destruct (pipelining_end _ _ _ _ _ _ Hpipe Hrd Hps)
    as (Hflag & Hrows & Hcounts & _).
  destruct (run_workers_frame workers (started r) Hw) as (HE' & Hq & Hdi & Hc).
  pose proof (run_workers_next_index workers (started r) Hw) as Hni.
  set (rows := map (assemble (ignore_columns_ d) row0 H) vss) in *.
  assert (length rows = length vss) as Hlr by (subst rows; apply length_map).
  rewrite Hlv, <- Hlr. apply rows_from_finished; [lia|nia|].
  unfold poll_view.
  rewrite Hflag, HE', Hq, Hdi, Hni, Hrows, Hcounts, Hc, Hlr.
  cbn [reader started client]. rewrite HE, Hlv, <- Hr. reflexivity.
Qed.

Lemma rows_after_any_interleaving_witness :
  let r0 := with_current_dialect
              (with_dialects (Reader_new comma_dialect)
                 (dialects_ (Reader_new comma_dialect)))
              (lit "excel") in
  let workers :=
    [act_processing; act_reading; act_processing; act_processing;
     act_reading; act_reading; act_processing; act_reading; act_reading;
     act_processing; act_processing; act_reading; act_reading;
     act_processing; act_reading; act_processing; act_reading;
     act_processing; act_processing; act_processing] in
  client (run (act_call_rows :: repeat act_rows 7)
              (run workers
                   (started (after_read two_row_fs (lit "two.csv") r0))))
  = rows_returned [ {[lit "a" := lit "1"; lit "b" := lit "2"]};
                    {[lit "a" := lit "3"; lit "b" := lit "4"]} ].
Proof.
  intros r0 workers.
  pose proof (rows_after_any_interleaving
                comma_dialect (dialects_ (Reader_new comma_dialect))
                (lit "excel") comma_dialect two_row_fs (lit "two.csv")
                (lit "a,b") [lit "1,2"; lit "3,4"] [lit "a"; lit "b"]
                [[lit "1"; lit "2"]; [lit "3"; lit "4"]]
                (after_read two_row_fs (lit "two.csv") r0) workers
                (mkLocals 4 2 ∅ 2)) as Hthm.
  cbv zeta in Hthm. cbn [header_ comma_dialect length Nat.mul Nat.add] in Hthm.
  rewrite Hthm.
  - vm_compute. reflexivity.
  - vm_compute. reflexivity.
  - vm_compute. reflexivity.
  - repeat constructor; apply not_elem_of_by_eqb; reflexivity.
  - vm_compute. reflexivity.
  - repeat constructor.
  - discriminate.
  - repeat constructor.
  - lia.
  - vm_compute. reflexivity.
  - vm_compute. reflexivity.
  - reflexivity.
  - vm_compute. reflexivity.
  - vm_compute. reflexivity.
Defined.

(** Under any interleaving of the two threads, whenever the processing
    thread stands between two iterations of its loop (and wherever the
    reading thread stands), the row queue holds the rows of the first [k]
    data lines, in the order of the file, the published counts are
    1, ..., [k], and [k] is the thread's counter [number_of_rows]: rows are
    neither lost nor reordered nor mixed between lines while the threads
    run.  (Inside an iteration the row is enqueued before its count is
    published.) *)
Theorem rows_queue_between_iterations fresh registry name d
    (fs : filesystem) filename first_line other_lines first_fields vss r
    workers :
  let r0 :=
    with_current_dialect (with_dialects (Reader_new fresh) registry) name in
  let lines := first_line :: other_lines in
  let H :=
    if header_ d then first_fields
    else match column_names_ d with
         | [] => map to_string (seq 0 (length first_fields))
         | _ :: _ => column_names_ d
         end in
  let data_lines := if header_ d then other_lines else lines in
  registry !! name = Some d ->
  fs filename = Some (file_of_lines lines) ->
  Forall (fun line => newline ∉ line) lines ->
  split d (pop_carriage_return first_line) = Some first_fields ->
  Forall2 (fun line vs => split d (pop_carriage_return line) = Some vs)
          data_lines vss ->
  H <> [] ->
  Forall (fun vs => length vs = length H) vss ->
  (N.of_nat (S (S (length data_lines)) * length H) < 2 ^ 64)%N ->
  read fs filename r0 = Some (r, Returns tt) ->
  forallb is_worker workers = true ->
  exists k,
    k <= length vss
    /\ rows_ (reader (run workers (started r)))
       = map (assemble (ignore_columns_ d)
                       (initial_row H (ignore_columns_ d) ∅) H)
             (take k vss)
    /\ number_of_rows_processed_ (reader (run workers (started r)))
       = map N.of_nat (seq 1 k)
    /\ match processing (run workers (started r)) with
       | processing_not_started | processing_at_entry => k = 0
       | processing_loop l | processing_returned l =>
           number_of_rows l = N.of_nat k
       | processing_undefined => False
       end.
Proof.
  intros r0 lines H data_lines Hd Hfs Hnl Hsplit HF2 Hne Hlens Hsz Hread Hw.
  assert (length data_lines = length vss) as Hlv
    by (eapply Forall2_length; eauto).
  assert (1 <= length H) as HH by (destruct H; [done|simpl; lia]).
  assert (length lines <= S (length data_lines)) as Hdl'
    by (subst data_lines lines; destruct (header_ d); simpl; lia).
  rewrite (read_file_of_lines fs filename r0 d lines Hfs Hnl Hd eq_refl
             eq_refl) in Hread by nia.
  injection Hread as Hr.
  assert (expected_number_of_rows_ r = N.of_nat (length data_lines)) as HE.
  { rewrite <- Hr. cbn -[N.of_nat N.sub length].
    subst data_lines lines. destruct (header_ d); cbn [length]; lia. }
  set (row0 := initial_row H (ignore_columns_ d) ∅).
  assert (dom row0 = list_to_set H ∖ ignore_columns_ d) as Hdom
    by apply dom_initial_row.
  assert (pipelining d H row0 vss (exec act_reading (started r))) as Hstart.
  { apply (pipelining_start d r first_line other_lines first_fields vss);
      try done; by rewrite <- Hr. }
  destruct (workers_from_start d H row0 vss r workers Hne Hlens
              ltac:(nia) Hdom Hstart Hw) as [Hsame|Hpipe].
  { exists 0. rewrite Hsame. cbn [reader started processing]. rewrite <- Hr.
    split; [lia|done]. }
  destruct Hpipe as (_ & _ & _ & consumed & todo & _ & _ & Hp).
  destruct (processing (run workers (started r))) as [| |l|l|]; try done.
  - destruct Hp as (_ & _ & -> & ->). exists 0. split; [lia|done].
  - destruct Hp as (k & partial & rb & _ & _ & Hk & _ & _ & _ & Hn & Hrows
                    & Hcounts & _).
    by exists k.
  - destruct Hp as [(k & partial & rb & _ & _ & Hk & _ & _ & _ & Hn & Hrows
                     & Hcounts & _) _].
    by exists k.
Qed.

Lemma rows_queue_between_iterations_witness :
  let r0 := with_current_dialect
              (with_dialects (Reader_new comma_dialect)
                 (dialects_ (Reader_new comma_dialect)))
              (lit "excel") in
  let workers :=
    [act_reading; act_processing; act_reading; act_reading; act_reading;
     act_processing; act_reading; act_processing; act_processing] in
  exists k,
    k <= 2
    /\ rows_ (reader (run workers
                        (started (after_read two_row_fs (lit "two.csv") r0))))
       = map (assemble ∅ (initial_row [lit "a"; lit "b"] ∅ ∅)
                       [lit "a"; lit "b"])
             (take k [[lit "1"; lit "2"]; [lit "3"; lit "4"]])
    /\ number_of_rows_processed_
         (reader (run workers
                    (started (after_read two_row_fs (lit "two.csv") r0))))
       = map N.of_nat (seq 1 k)
    /\ match processing
               (run workers
                    (started (after_read two_row_fs (lit "two.csv") r0)))
       with
       | processing_not_started | processing_at_entry => k = 0
       | processing_loop l | processing_returned l =>
           number_of_rows l = N.of_nat k
       | processing_undefined => False
       end.
Proof.
  intros r0 workers.
  apply (rows_queue_between_iterations
           comma_dialect (dialects_ (Reader_new comma_dialect))
           (lit "excel") comma_dialect two_row_fs (lit "two.csv")
           (lit "a,b") [lit "1,2"; lit "3,4"] [lit "a"; lit "b"]
           [[lit "1"; lit "2"]; [lit "3"; lit "4"]]
           (after_read two_row_fs (lit "two.csv") r0) workers).
  - vm_compute. reflexivity.
  - vm_compute. reflexivity.
  - repeat constructor; apply not_elem_of_by_eqb; reflexivity.
  - vm_compute. reflexivity.
  - repeat constructor.
  - discriminate.
  - repeat constructor.
  - vm_compute. reflexivity.
  - vm_compute. reflexivity.
  - reflexivity.
Defined.
